(** * libdsc: the vector implementations and the hash set

    A shallow embedding of the dynamic array of libdsc, in its two versions
    ([struct DSCVector], whose size and capacity are [unsigned int], and
    [struct dsc_vector_t], whose size and capacity are [size_t]), and of the
    hash set declared in [dsc_set.h].

    The C functions mutate a heap object through a pointer and report their
    outcome through a process-wide error slot.  Both are made explicit: a
    function takes the pointed-to structure ([None] for a null handle) and
    returns the structure as it is left, inside a state monad over the
    process ([process]): the error slot, the allocator and a flag for
    undefined behaviour.

    Data model: LP64, [sizeof(int) = 4], [unsigned int] of 32 bits, [size_t]
    of 64 bits, [double] the binary64 format of IEEE 754 with rounding to
    nearest, ties to even.  The product [capacity * 1.5] is computed in
    [double] by the C code: the capacity is converted to [double], which
    rounds it from [2^53] on, and the product is rounded again. *)

From Stdlib Require Import ZArith QArith Qround Qpower Lia Lqa.
From stdpp Require Import list.

Open Scope Z_scope.

(** ** The error channel ([dsc_error.h]) *)

Inductive dsc_error_t : Type :=
| DSC_ERROR_NONE
| DSC_ERROR_INVALID_ARGUMENT
| DSC_ERROR_OUT_OF_RANGE
| DSC_ERROR_OUT_OF_MEMORY
| DSC_ERROR_EMPTY_CONTAINER
| DSC_ERROR_NOT_FOUND
| DSC_ERROR_DUPLICATE_ITEM.

(** ** The process

    [error_log] holds every value written to the last-error slot, the newest
    first: the slot itself is its head, and its length counts the writes.
    [allocator] scripts the answers of [malloc] and [realloc] to the requests
    still to come ([true]: the request is served); once the script is used
    up every request is served.  [undefined] is raised by an access outside
    a block, by the use of a null or indeterminate pointer and by a
    conversion out of range; the execution of the model then goes on as
    written at each such place. *)

Record process : Type := mkProcess {
  error_log : list dsc_error_t;
  allocator : list bool;
  undefined : bool
}.

Definition prog (A : Type) : Type := process -> A * process.

Definition ret {A : Type} (a : A) : prog A := fun p => (a, p).

Definition bind {A B : Type} (m : prog A) (k : A -> prog B) : prog B :=
  fun p => let (a, p') := m p in k a p'.

Notation "x <- m ;; k" := (bind m (fun x => k))
  (at level 100, m at next level, right associativity).
Notation "m ;; k" := (bind m (fun _ => k))
  (at level 100, right associativity).

(** Modelled from the spec: [dsc_set_error] and the accessor of the error
    slot, of [dsc_error.c], which is not among the sources: a process-wide
    last-error slot that every write overwrites. *)
Definition dsc_set_error (e : dsc_error_t) : prog unit :=
  fun p => (tt, {| error_log := e :: error_log p;
                   allocator := allocator p;
                   undefined := undefined p |}).

Definition dsc_get_error (p : process) : dsc_error_t :=
  match error_log p with
  | e :: _ => e
  | [] => DSC_ERROR_NONE
  end.

Definition undefined_behaviour : prog unit :=
  fun p => (tt, {| error_log := error_log p;
                   allocator := allocator p;
                   undefined := true |}).

(** The next answer of the allocator. *)
Definition alloc : prog bool :=
  fun p => match allocator p with
           | [] => (true, p)
           | ok :: script => (ok, {| error_log := error_log p;
                                     allocator := script;
                                     undefined := undefined p |})
           end.

(** ** Arithmetic

    The sizes of the integer types. *)

Definition sizeof_int : Z := 4.
Definition UINT_MAX : Z := 2 ^ 32 - 1.
Definition INT_MAX : Z := 2 ^ 31 - 1.
Definition SIZE_MAX : Z := 2 ^ 64 - 1.

(** The integer nearest to [q], the even one of the two when [q] is half way
    between them. *)
Definition round_half_even (q : Q) : Z :=
  let n := Qfloor q in
  match (q - inject_Z n ?= 1 # 2)%Q with
  | Lt => n
  | Gt => n + 1
  | Eq => if Z.even n then n else n + 1
  end.

(** The value of type [double] nearest to [q]: a significand of 53 bits,
    hence a multiple of [2^e] for [q] from [2^(e+52)] to [2^(e+53)].  The
    library converts integers of at most 64 bits and multiplies them by 1.5:
    [q] is 0 or at least 1 and far below the largest [double]. *)
Definition binary64 (q : Q) : Q :=
  let e := Z.log2 (Qfloor q) - 52 in
  (inject_Z (round_half_even (q / 2 ^ e)) * 2 ^ e)%Q.

(** [(double) z] for an unsigned integer [z], and [x * y] in [double]. *)
Definition to_double (z : Z) : Q := binary64 (inject_Z z).
Definition mul_double (x y : Q) : Q := binary64 (x * y).

Arguments binary64 : simpl never.
Arguments to_double : simpl never.
Arguments mul_double : simpl never.

(** ** Memory: blocks of [int] *)

(** An [int *]: null, a block of cells obtained from the allocator, or the
    content of a field that was never written. *)
Inductive int_ptr : Type :=
| NULL
| Block (cells : list Z)
| Indeterminate.

(** The cells of a fresh block are indeterminate in C; the model fills them
    with [0].  The library reads a cell only below [size]. *)
Definition fresh (n : Z) : list Z := replicate (Z.to_nat n) 0.

(** [malloc(bytes)] *)
Definition malloc (bytes : Z) : prog int_ptr :=
  ok <- alloc ;;
  ret (if ok then Block (fresh (bytes / sizeof_int)) else NULL).

(** [realloc(ptr, bytes)]: the block is resized and keeps its cells up to
    the smaller of the two sizes; on failure the old block is untouched.
    What a request of 0 bytes does is left to the implementation by the C
    standard: the model answers it like any other, with a block of no cell
    when it is served (glibc frees the block and returns a null pointer).
    The library makes such a request at a capacity of 0 only. *)
Definition realloc (ptr : int_ptr) (bytes : Z) : prog int_ptr :=
  match ptr with
  | NULL => malloc bytes
  | Block cells =>
      ok <- alloc ;;
      let n := Z.to_nat (bytes / sizeof_int) in
      ret (if ok then Block (take n (cells ++ replicate n 0)) else NULL)
  | Indeterminate => undefined_behaviour ;; malloc bytes
  end.

(** [memcpy(dst, src, bytes)] *)
Definition memcpy (dst src : int_ptr) (bytes : Z) : prog int_ptr :=
  let n := Z.to_nat (bytes / sizeof_int) in
  match dst, src with
  | Block d, Block s =>
      if (n <=? length d)%nat && (n <=? length s)%nat
      then ret (Block (take n s ++ drop n d))
      else undefined_behaviour ;; ret dst
  | _, _ => undefined_behaviour ;; ret dst
  end.

(** [ptr == NULL] *)
Definition is_null (ptr : int_ptr) : prog bool :=
  match ptr with
  | NULL => ret true
  | Block _ => ret false
  | Indeterminate => undefined_behaviour ;; ret false
  end.

(** [free(ptr)] *)
Definition free (ptr : int_ptr) : prog unit :=
  match ptr with
  | Indeterminate => undefined_behaviour
  | _ => ret tt
  end.

(** [ptr[i]] *)
Definition load (ptr : int_ptr) (i : Z) : prog Z :=
  match ptr with
  | Block cells =>
      match (if 0 <=? i then cells !! Z.to_nat i else None) with
      | Some x => ret x
      | None => undefined_behaviour ;; ret 0
      end
  | _ => undefined_behaviour ;; ret 0
  end.

(** [ptr[i] = x]; a store outside the block is dropped. *)
Definition store (ptr : int_ptr) (i : Z) (x : Z) : prog int_ptr :=
  match ptr with
  | Block cells =>
      if (0 <=? i) && (i <? Z.of_nat (length cells))
      then ret (Block (<[Z.to_nat i := x]> cells))
      else undefined_behaviour ;; ret ptr
  | _ => undefined_behaviour ;; ret ptr
  end.

(** [for (i = size; i > position; --i) values[i] = values[i - 1];]
    with [n = i - position] iterations left. *)
Fixpoint shift_right (n : nat) (position : Z) (values : int_ptr) : prog int_ptr :=
  match n with
  | O => ret values
  | S n' =>
      let i := position + Z.of_nat n in
      x <- load values (i - 1) ;;
      values <- store values i x ;;
      shift_right n' position values
  end.

(** [for (i = position; i < size - 1; ++i) values[i] = values[i + 1];]
    with [n = size - 1 - i] iterations left. *)
Fixpoint shift_left (n : nat) (i : Z) (values : int_ptr) : prog int_ptr :=
  match n with
  | O => ret values
  | S n' =>
      x <- load values (i + 1) ;;
      values <- store values i x ;;
      shift_left n' (i + 1) values
  end.

(** ** The public interface of the vector

    A call of a client on its handle, and what the call returns. *)

Inductive call : Type :=
| PushBack (value : Z)
| PopBack
| Insert (position : Z) (value : Z)
| Erase (position : Z)
| At (index : Z)
| Empty
| Size
| Capacity
| Reserve (new_capacity : Z).

Inductive answer : Type :=
| Void
| Int (z : Z)
| Bool (b : bool).

(** The vector a structure stands for: the cells below [size]. *)
Definition stored (values : int_ptr) (size : Z) : list Z :=
  match values with
  | Block cells => take (Z.to_nat size) cells
  | _ => []
  end.

(** ** [struct DSCVector]: sizes are [unsigned int] *)

Module DSCVector.

Record DSCVector : Type := mkVector {
  values : int_ptr;
  size : Z;
  capacity : Z
}.

(** Arithmetic of [unsigned int]. *)
Definition uint (z : Z) : Z := z mod (UINT_MAX + 1).

(** Conversion of a [double] to [unsigned int]: truncation; undefined
    when the value does not fit (the model then wraps). *)
Definition double_to_uint (q : Q) : prog Z :=
  let z := Qfloor q in
  if z <=? UINT_MAX then ret z else undefined_behaviour ;; ret (uint z).

(** Conversion of an [unsigned int] to [int]. *)
Definition to_int (z : Z) : Z := if z <=? INT_MAX then z else z - (UINT_MAX + 1).

Definition dsc_vector_resize (vector : DSCVector) (new_capacity : Z)
  : prog (bool * DSCVector) :=
  new_values <- realloc (values vector) (new_capacity * sizeof_int) ;;
  match new_values with
  | NULL =>
      dsc_set_error DSC_ERROR_OUT_OF_MEMORY ;;
      ret (false, vector)
  | _ =>
      ret (true, {| values := new_values;
                    size := size vector;
                    capacity := new_capacity |})
  end.

(** [DSC_VECTOR_INITIAL_CAPACITY] is defined in [dsc_vector.h], which is
    not among the sources: it is a parameter of [dsc_vector_create]. *)
Definition dsc_vector_create (DSC_VECTOR_INITIAL_CAPACITY : Z)
  : prog (option DSCVector) :=
  new_vector <- alloc ;;
  if negb new_vector then
    dsc_set_error DSC_ERROR_OUT_OF_MEMORY ;;
    ret None
  else
    let capacity := uint DSC_VECTOR_INITIAL_CAPACITY in
    values <- malloc (capacity * sizeof_int) ;;
    match values with
    | NULL =>
        dsc_set_error DSC_ERROR_OUT_OF_MEMORY ;;
        ret None
    | _ =>
        dsc_set_error DSC_ERROR_NONE ;;
        ret (Some {| values := values; size := 0; capacity := capacity |})
    end.

Definition dsc_vector_free (vector : option DSCVector) : prog unit :=
  match vector with
  | None => dsc_set_error DSC_ERROR_INVALID_ARGUMENT
  | Some v =>
      free (values v) ;;
      dsc_set_error DSC_ERROR_NONE
  end.

Definition dsc_vector_push_back (vector : option DSCVector) (value : Z)
  : prog (option DSCVector) :=
  match vector with
  | None =>
      dsc_set_error DSC_ERROR_INVALID_ARGUMENT ;;
      ret None
  | Some v =>
      r <-
        (if size v >=? capacity v then
           new_capacity <- double_to_uint (mul_double (to_double (capacity v)) 1.5) ;;
           dsc_vector_resize v new_capacity
         else ret (true, v)) ;;
      let '(resized, v) := r in
      if negb resized then ret (Some v)
      else
        values <- store (values v) (size v) value ;;
        dsc_set_error DSC_ERROR_NONE ;;
        ret (Some {| values := values;
                     size := uint (size v + 1);
                     capacity := capacity v |})
  end.

Definition dsc_vector_empty (vector : option DSCVector) : prog bool :=
  match vector with
  | None =>
      dsc_set_error DSC_ERROR_INVALID_ARGUMENT ;;
      ret true
  | Some v =>
      dsc_set_error DSC_ERROR_NONE ;;
      ret (size v =? 0)
  end.

Definition dsc_vector_pop_back (vector : option DSCVector)
  : prog (option DSCVector) :=
  match vector with
  | None =>
      dsc_set_error DSC_ERROR_INVALID_ARGUMENT ;;
      ret None
  | Some v =>
      empty <- dsc_vector_empty vector ;;
      if empty then
        dsc_set_error DSC_ERROR_EMPTY_CONTAINER ;;
        ret (Some v)
      else
        dsc_set_error DSC_ERROR_NONE ;;
        ret (Some {| values := values v;
                     size := uint (size v - 1);
                     capacity := capacity v |})
  end.

Definition dsc_vector_insert (vector : option DSCVector) (position : Z) (value : Z)
  : prog (Z * option DSCVector) :=
  match vector with
  | None =>
      dsc_set_error DSC_ERROR_INVALID_ARGUMENT ;;
      ret (0, None)
  | Some v =>
      if position >? size v then
        dsc_set_error DSC_ERROR_OUT_OF_RANGE ;;
        ret (0, Some v)
      else
        r <-
          (if size v >=? capacity v then
             new_capacity <- double_to_uint (mul_double (to_double (capacity v)) 1.5) ;;
             dsc_vector_resize v new_capacity
           else ret (true, v)) ;;
        let '(resized, v) := r in
        if negb resized then ret (0, Some v)
        else
          values <- shift_right (Z.to_nat (size v - position)) position (values v) ;;
          values <- store values position value ;;
          dsc_set_error DSC_ERROR_NONE ;;
          ret (position, Some {| values := values;
                                 size := uint (size v + 1);
                                 capacity := capacity v |})
  end.

Definition dsc_vector_erase (vector : option DSCVector) (position : Z)
  : prog (option DSCVector) :=
  match vector with
  | None =>
      dsc_set_error DSC_ERROR_INVALID_ARGUMENT ;;
      ret None
  | Some v =>
      if position >=? size v then
        dsc_set_error DSC_ERROR_OUT_OF_RANGE ;;
        ret (Some v)
      else
        values <- shift_left (Z.to_nat (uint (size v - 1) - position)) position (values v) ;;
        dsc_set_error DSC_ERROR_NONE ;;
        ret (Some {| values := values;
                     size := uint (size v - 1);
                     capacity := capacity v |})
  end.

Definition dsc_vector_at (vector : option DSCVector) (index : Z) : prog Z :=
  match vector with
  | None =>
      dsc_set_error DSC_ERROR_INVALID_ARGUMENT ;;
      ret 0
  | Some v =>
      if index >=? size v then
        dsc_set_error DSC_ERROR_OUT_OF_RANGE ;;
        ret 0
      else
        dsc_set_error DSC_ERROR_NONE ;;
        load (values v) index
  end.

Definition dsc_vector_size (vector : option DSCVector) : prog Z :=
  match vector with
  | None =>
      dsc_set_error DSC_ERROR_INVALID_ARGUMENT ;;
      ret (-1)
  | Some v =>
      dsc_set_error DSC_ERROR_NONE ;;
      ret (to_int (size v))
  end.

Definition dsc_vector_capacity (vector : option DSCVector) : prog Z :=
  match vector with
  | None =>
      dsc_set_error DSC_ERROR_INVALID_ARGUMENT ;;
      ret 0
  | Some v =>
      dsc_set_error DSC_ERROR_NONE ;;
      ret (capacity v)
  end.

Definition dsc_vector_reserve (vector : option DSCVector) (new_capacity : Z)
  : prog (option DSCVector) :=
  match vector with
  | None =>
      dsc_set_error DSC_ERROR_INVALID_ARGUMENT ;;
      ret None
  | Some v =>
      if new_capacity <=? capacity v then
        dsc_set_error DSC_ERROR_INVALID_ARGUMENT ;;
        ret (Some v)
      else
        r <- dsc_vector_resize v new_capacity ;;
        let '(resized, v) := r in
        if negb resized then ret (Some v)
        else
          dsc_set_error DSC_ERROR_NONE ;;
          ret (Some v)
  end.

Definition contents (v : DSCVector) : list Z := stored (values v) (size v).

Definition perform (c : call) (vector : option DSCVector)
  : prog (answer * option DSCVector) :=
  match c with
  | PushBack value =>
      vector <- dsc_vector_push_back vector value ;; ret (Void, vector)
  | PopBack =>
      vector <- dsc_vector_pop_back vector ;; ret (Void, vector)
  | Insert position value =>
      r <- dsc_vector_insert vector position value ;; ret (Int (fst r), snd r)
  | Erase position =>
      vector <- dsc_vector_erase vector position ;; ret (Void, vector)
  | At index =>
      x <- dsc_vector_at vector index ;; ret (Int x, vector)
  | Empty =>
      b <- dsc_vector_empty vector ;; ret (Bool b, vector)
  | Size =>
      n <- dsc_vector_size vector ;; ret (Int n, vector)
  | Capacity =>
      n <- dsc_vector_capacity vector ;; ret (Int n, vector)
  | Reserve new_capacity =>
      vector <- dsc_vector_reserve vector new_capacity ;; ret (Void, vector)
  end.

Fixpoint run (calls : list call) (vector : option DSCVector)
  : prog (list answer * option DSCVector) :=
  match calls with
  | [] => ret ([], vector)
  | c :: calls =>
      r <- perform c vector ;;
      rs <- run calls (snd r) ;;
      ret (fst r :: fst rs, snd rs)
  end.

End DSCVector.

(** ** [struct dsc_vector_t]: sizes are [size_t] *)

Module dsc_vector_t.

Record dsc_vector_t : Type := mkVector {
  values : int_ptr;
  size : Z;
  capacity : Z
}.

(** Arithmetic of [size_t]. *)
Definition usize (z : Z) : Z := z mod (SIZE_MAX + 1).

(** Conversion of a [double] to [size_t]: truncation; undefined when the
    value does not fit (the model then wraps). *)
Definition double_to_size (q : Q) : prog Z :=
  let z := Qfloor q in
  if z <=? SIZE_MAX then ret z else undefined_behaviour ;; ret (usize z).

Definition dsc_vector_resize (vector : dsc_vector_t) (new_capacity : Z)
  : prog dsc_vector_t :=
  if new_capacity >? SIZE_MAX / sizeof_int then
    dsc_set_error DSC_ERROR_OUT_OF_MEMORY ;;
    ret vector
  else
    new_values <- malloc (new_capacity * sizeof_int) ;;
    match new_values with
    | NULL =>
        dsc_set_error DSC_ERROR_OUT_OF_MEMORY ;;
        ret vector
    | _ =>
        null <- is_null (values vector) ;;
        new_values <-
          (if negb null then
             copied <- memcpy new_values (values vector)
                              (usize (size vector * sizeof_int)) ;;
             free (values vector) ;;
             ret copied
           else ret new_values) ;;
        ret {| values := new_values;
               size := size vector;
               capacity := new_capacity |}
    end.

(** [DSC_VECTOR_INITIAL_CAPACITY] is defined in [dsc_vector.h], which is
    not among the sources: it is a parameter of [dsc_vector_create].  The
    [values] field of the new structure has not been written when
    [dsc_vector_resize] reads it. *)
Definition dsc_vector_create (DSC_VECTOR_INITIAL_CAPACITY : Z)
  : prog (option dsc_vector_t) :=
  new_vector <- alloc ;;
  if negb new_vector then
    dsc_set_error DSC_ERROR_OUT_OF_MEMORY ;;
    ret None
  else
    let new_vector := {| values := Indeterminate;
                         size := 0;
                         capacity := usize DSC_VECTOR_INITIAL_CAPACITY |} in
    new_vector <- dsc_vector_resize new_vector (capacity new_vector) ;;
    null <- is_null (values new_vector) ;;
    if null then
      dsc_set_error DSC_ERROR_OUT_OF_MEMORY ;;
      ret None
    else
      dsc_set_error DSC_ERROR_NONE ;;
      ret (Some new_vector).

Definition dsc_vector_free (vector : option dsc_vector_t) : prog unit :=
  match vector with
  | None => dsc_set_error DSC_ERROR_INVALID_ARGUMENT
  | Some v =>
      free (values v) ;;
      dsc_set_error DSC_ERROR_NONE
  end.

Definition dsc_vector_push_back (vector : option dsc_vector_t) (value : Z)
  : prog (option dsc_vector_t) :=
  match vector with
  | None =>
      dsc_set_error DSC_ERROR_INVALID_ARGUMENT ;;
      ret None
  | Some v =>
      r <-
        (if size v >=? capacity v then
           new_capacity <- double_to_size (mul_double (to_double (capacity v)) 1.5) ;;
           v <- dsc_vector_resize v new_capacity ;;
           null <- is_null (values v) ;;
           if null then
             dsc_set_error DSC_ERROR_OUT_OF_MEMORY ;;
             ret (false, v)
           else ret (true, v)
         else ret (true, v)) ;;
      let '(proceed, v) := r in
      if negb proceed then ret (Some v)
      else
        values <- store (values v) (size v) value ;;
        dsc_set_error DSC_ERROR_NONE ;;
        ret (Some {| values := values;
                     size := usize (size v + 1);
                     capacity := capacity v |})
  end.

Definition dsc_vector_empty (vector : option dsc_vector_t) : prog bool :=
  match vector with
  | None =>
      dsc_set_error DSC_ERROR_INVALID_ARGUMENT ;;
      ret true
  | Some v =>
      dsc_set_error DSC_ERROR_NONE ;;
      ret (size v =? 0)
  end.

Definition dsc_vector_pop_back (vector : option dsc_vector_t)
  : prog (option dsc_vector_t) :=
  match vector with
  | None =>
      dsc_set_error DSC_ERROR_INVALID_ARGUMENT ;;
      ret None
  | Some v =>
      empty <- dsc_vector_empty vector ;;
      if empty then
        dsc_set_error DSC_ERROR_EMPTY_CONTAINER ;;
        ret (Some v)
      else
        dsc_set_error DSC_ERROR_NONE ;;
        ret (Some {| values := values v;
                     size := usize (size v - 1);
                     capacity := capacity v |})
  end.

Definition dsc_vector_insert (vector : option dsc_vector_t) (position : Z) (value : Z)
  : prog (Z * option dsc_vector_t) :=
  match vector with
  | None =>
      dsc_set_error DSC_ERROR_INVALID_ARGUMENT ;;
      ret (0, None)
  | Some v =>
      if (position <? 0) || (position >? size v) then
        dsc_set_error DSC_ERROR_OUT_OF_RANGE ;;
        ret (0, Some v)
      else
        r <-
          (if size v >=? capacity v then
             new_capacity <- double_to_size (mul_double (to_double (capacity v)) 1.5) ;;
             v <- dsc_vector_resize v new_capacity ;;
             null <- is_null (values v) ;;
             if null then
               dsc_set_error DSC_ERROR_OUT_OF_MEMORY ;;
               ret (false, v)
             else ret (true, v)
           else ret (true, v)) ;;
        let '(proceed, v) := r in
        if negb proceed then ret (0, Some v)
        else
          values <- shift_right (Z.to_nat (size v - position)) position (values v) ;;
          values <- store values position value ;;
          dsc_set_error DSC_ERROR_NONE ;;
          ret (position, Some {| values := values;
                                 size := usize (size v + 1);
                                 capacity := capacity v |})
  end.

Definition dsc_vector_erase (vector : option dsc_vector_t) (position : Z)
  : prog (option dsc_vector_t) :=
  match vector with
  | None =>
      dsc_set_error DSC_ERROR_INVALID_ARGUMENT ;;
      ret None
  | Some v =>
      if (position <? 0) || (position >=? size v) then
        dsc_set_error DSC_ERROR_OUT_OF_RANGE ;;
        ret (Some v)
      else
        values <- shift_left (Z.to_nat (usize (size v - 1) - position)) position (values v) ;;
        dsc_set_error DSC_ERROR_NONE ;;
        ret (Some {| values := values;
                     size := usize (size v - 1);
                     capacity := capacity v |})
  end.

Definition dsc_vector_at (vector : option dsc_vector_t) (index : Z) : prog Z :=
  match vector with
  | None =>
      dsc_set_error DSC_ERROR_INVALID_ARGUMENT ;;
      ret 0
  | Some v =>
      if (index <? 0) || (index >=? size v) then
        dsc_set_error DSC_ERROR_OUT_OF_RANGE ;;
        ret 0
      else
        dsc_set_error DSC_ERROR_NONE ;;
        load (values v) index
  end.

Definition dsc_vector_size (vector : option dsc_vector_t) : prog Z :=
  match vector with
  | None =>
      dsc_set_error DSC_ERROR_INVALID_ARGUMENT ;;
      ret 0
  | Some v =>
      dsc_set_error DSC_ERROR_NONE ;;
      ret (size v)
  end.

Definition dsc_vector_capacity (vector : option dsc_vector_t) : prog Z :=
  match vector with
  | None =>
      dsc_set_error DSC_ERROR_INVALID_ARGUMENT ;;
      ret 0
  | Some v =>
      dsc_set_error DSC_ERROR_NONE ;;
      ret (capacity v)
  end.

Definition dsc_vector_reserve (vector : option dsc_vector_t) (new_capacity : Z)
  : prog (option dsc_vector_t) :=
  match vector with
  | None =>
      dsc_set_error DSC_ERROR_INVALID_ARGUMENT ;;
      ret None
  | Some v =>
      if new_capacity <=? capacity v then
        dsc_set_error DSC_ERROR_INVALID_ARGUMENT ;;
        ret (Some v)
      else
        v <- dsc_vector_resize v new_capacity ;;
        null <- is_null (values v) ;;
        if null then
          dsc_set_error DSC_ERROR_OUT_OF_MEMORY ;;
          ret (Some v)
        else
          dsc_set_error DSC_ERROR_NONE ;;
          ret (Some v)
  end.

Definition contents (v : dsc_vector_t) : list Z := stored (values v) (size v).

Definition perform (c : call) (vector : option dsc_vector_t)
  : prog (answer * option dsc_vector_t) :=
  match c with
  | PushBack value =>
      vector <- dsc_vector_push_back vector value ;; ret (Void, vector)
  | PopBack =>
      vector <- dsc_vector_pop_back vector ;; ret (Void, vector)
  | Insert position value =>
      r <- dsc_vector_insert vector position value ;; ret (Int (fst r), snd r)
  | Erase position =>
      vector <- dsc_vector_erase vector position ;; ret (Void, vector)
  | At index =>
      x <- dsc_vector_at vector index ;; ret (Int x, vector)
  | Empty =>
      b <- dsc_vector_empty vector ;; ret (Bool b, vector)
  | Size =>
      n <- dsc_vector_size vector ;; ret (Int n, vector)
  | Capacity =>
      n <- dsc_vector_capacity vector ;; ret (Int n, vector)
  | Reserve new_capacity =>
      vector <- dsc_vector_reserve vector new_capacity ;; ret (Void, vector)
  end.

Fixpoint run (calls : list call) (vector : option dsc_vector_t)
  : prog (list answer * option dsc_vector_t) :=
  match calls with
  | [] => ret ([], vector)
  | c :: calls =>
      r <- perform c vector ;;
      rs <- run calls (snd r) ;;
      ret (fst r :: fst rs, snd rs)
  end.

End dsc_vector_t.

(** ** The hash set ([dsc_set.h])

    The header declares the structures and the functions; [dsc_set.c] is not
    among the sources.  A collision chain ([struct dsc_set_entry_t], linked
    through [next]) is the list of its keys from the head on, and [buckets]
    is the array of chains. *)

Module dsc_set.

Definition DSC_SET_INITIAL_CAPACITY : Z := 16.
Definition DSC_SET_LOAD_FACTOR : Q := 0.75.

Record dsc_set_t : Type := mkSet {
  buckets : list (list Z);
  capacity : Z;
  size : Z;
  error : dsc_error_t
}.

(** [size / capacity] *)
Definition load_factor (set : dsc_set_t) : Q :=
  (inject_Z (size set) / inject_Z (capacity set))%Q.

(** Modelled from the spec: the hash function of [dsc_set.c], a
    modulo-by-capacity scheme kept non-negative for negative keys. *)
Definition dsc_set_hash (key : Z) (capacity : Z) : Z := key mod capacity.

(** Modelled from the spec: the collision chain of a bucket. *)
Definition chain (buckets : list (list Z)) (index : Z) : list Z :=
  default [] (buckets !! Z.to_nat index).

(** Modelled from the spec: the new entry becomes the head of the chain of
    its bucket. *)
Definition link (capacity : Z) (buckets : list (list Z)) (key : Z) : list (list Z) :=
  alter (cons key) (Z.to_nat (dsc_set_hash key capacity)) buckets.

(** Modelled from the spec: the entry is taken out of its chain. *)
Fixpoint unlink (key : Z) (entries : list Z) : list Z :=
  match entries with
  | [] => []
  | k :: next => if k =? key then next else k :: unlink key next
  end.

(** Modelled from the spec: [dsc_set_create] of [dsc_set.c]: a bucket
    array of [DSC_SET_INITIAL_CAPACITY] null bucket heads, size 0, capacity
    16, error state NONE; a null handle and OUT_OF_MEMORY when the set or
    its bucket array cannot be allocated. *)
Definition dsc_set_create : prog (option dsc_set_t) :=
  set <- alloc ;;
  if negb set then
    dsc_set_error DSC_ERROR_OUT_OF_MEMORY ;;
    ret None
  else
    bucket_array <- alloc ;;
    if negb bucket_array then
      dsc_set_error DSC_ERROR_OUT_OF_MEMORY ;;
      ret None
    else
      dsc_set_error DSC_ERROR_NONE ;;
      ret (Some {| buckets := replicate (Z.to_nat DSC_SET_INITIAL_CAPACITY) [];
                   capacity := DSC_SET_INITIAL_CAPACITY;
                   size := 0;
                   error := DSC_ERROR_NONE |}).

Section Growth.

(** The spec leaves the growth rule open (a simple multiplicative step,
    doubling recommended): the step is a parameter. *)
Variable growth_step : Z.

(** Modelled from the spec: the rehash of [dsc_set.c]: a bucket array of
    the new capacity is allocated and every entry is relinked into it;
    when the array cannot be allocated the set keeps its bucket array
    and its capacity. *)
Definition dsc_set_rehash (set : dsc_set_t) (new_capacity : Z)
  : prog (bool * dsc_set_t) :=
  bucket_array <- alloc ;;
  if negb bucket_array then ret (false, set)
  else
    ret (true, {| buckets := foldl (link new_capacity)
                                   (replicate (Z.to_nat new_capacity) [])
                                   (concat (buckets set));
                  capacity := new_capacity;
                  size := size set;
                  error := error set |}).

(** Modelled from the spec: [dsc_set_add] of [dsc_set.c], steps 1 to 7
    of Add: null handle, duplicate, proactive rehash when
    [(size + 1) / capacity > DSC_SET_LOAD_FACTOR], allocation and
    linking of the entry, increment of the size.  When the entry cannot
    be allocated the table is handed back as it was before the call, also
    when it had been grown for the entry (step 7: the table state remains
    pre-growth). *)
Definition dsc_set_add (set : option dsc_set_t) (value : Z)
  : prog (option dsc_set_t) :=
  match set with
  | None =>
      dsc_set_error DSC_ERROR_INVALID_ARGUMENT ;;
      ret None
  | Some s =>
      if bool_decide (value ∈ chain (buckets s) (dsc_set_hash value (capacity s))) then
        dsc_set_error DSC_ERROR_DUPLICATE_ITEM ;;
        ret (Some s)
      else
        r <-
          (if Qlt_le_dec DSC_SET_LOAD_FACTOR
                         (inject_Z (size s + 1) / inject_Z (capacity s))
           then dsc_set_rehash s (capacity s * growth_step)
           else ret (true, s)) ;;
        let '(grown, s') := r in
        if negb grown then
          dsc_set_error DSC_ERROR_OUT_OF_MEMORY ;;
          ret (Some s)
        else
          entry <- alloc ;;
          if negb entry then
            dsc_set_error DSC_ERROR_OUT_OF_MEMORY ;;
            ret (Some s)
          else
            dsc_set_error DSC_ERROR_NONE ;;
            ret (Some {| buckets := link (capacity s') (buckets s') value;
                         capacity := capacity s';
                         size := size s' + 1;
                         error := error s' |})
  end.

End Growth.

(** Modelled from the spec: [dsc_set_remove] of [dsc_set.c]: null handle,
    NOT_FOUND without mutation, else the entry is unlinked and the size
    decremented; the capacity never decreases. *)
Definition dsc_set_remove (set : option dsc_set_t) (value : Z)
  : prog (option dsc_set_t) :=
  match set with
  | None =>
      dsc_set_error DSC_ERROR_INVALID_ARGUMENT ;;
      ret None
  | Some s =>
      let index := dsc_set_hash value (capacity s) in
      if bool_decide (value ∈ chain (buckets s) index) then
        dsc_set_error DSC_ERROR_NONE ;;
        ret (Some {| buckets := alter (unlink value) (Z.to_nat index) (buckets s);
                     capacity := capacity s;
                     size := size s - 1;
                     error := error s |})
      else
        dsc_set_error DSC_ERROR_NOT_FOUND ;;
        ret (Some s)
  end.

(** Modelled from the spec: [dsc_set_contains] of [dsc_set.c]: reports a
    null handle, NONE on a match and NOT_FOUND on a miss. *)
Definition dsc_set_contains (set : option dsc_set_t) (value : Z) : prog bool :=
  match set with
  | None =>
      dsc_set_error DSC_ERROR_INVALID_ARGUMENT ;;
      ret false
  | Some s =>
      if bool_decide (value ∈ chain (buckets s) (dsc_set_hash value (capacity s))) then
        dsc_set_error DSC_ERROR_NONE ;;
        ret true
      else
        dsc_set_error DSC_ERROR_NOT_FOUND ;;
        ret false
  end.

(** Modelled from the spec: [dsc_set_clear] of [dsc_set.c]: every chain is
    freed, every bucket head reset, the size reset to 0; the capacity is
    preserved. *)
Definition dsc_set_clear (set : option dsc_set_t) : prog (option dsc_set_t) :=
  match set with
  | None =>
      dsc_set_error DSC_ERROR_INVALID_ARGUMENT ;;
      ret None
  | Some s =>
      dsc_set_error DSC_ERROR_NONE ;;
      ret (Some {| buckets := (fun _ => []) <$> buckets s;
                   capacity := capacity s;
                   size := 0;
                   error := error s |})
  end.

(** A client of the set: the calls it makes on its handle. *)
Inductive call : Type :=
| Add (value : Z)
| Remove (value : Z)
| Clear.

Definition perform (growth_step : Z) (c : call) (set : option dsc_set_t)
  : prog (option dsc_set_t) :=
  match c with
  | Add value => dsc_set_add growth_step set value
  | Remove value => dsc_set_remove set value
  | Clear => dsc_set_clear set
  end.

Fixpoint run (growth_step : Z) (calls : list call) (set : option dsc_set_t)
  : prog (option dsc_set_t) :=
  match calls with
  | [] => ret set
  | c :: calls =>
      set <- perform growth_step c set ;;
      run growth_step calls set
  end.

End dsc_set.

(** ** The vector as a sequence

    What a call does to the sequence of the stored elements and to the
    capacity, what it returns and what it writes to the error slot (the
    newest write first), when no allocation fails.  The two implementations
    are compared with this one. *)

Module Sequence.

Record t : Type := mk {
  elements : list Z;
  capacity : Z
}.

Definition length_of (s : t) : Z := Z.of_nat (length (elements s)).

(** The capacity after an element is added. *)
Definition grown (s : t) : Z :=
  if length_of s >=? capacity s
  then Qfloor (inject_Z (capacity s) * 1.5)
  else capacity s.

Definition step (c : call) (s : t) : answer * t * list dsc_error_t :=
  match c with
  | PushBack value =>
      (Void,
       {| elements := elements s ++ [value]; capacity := grown s |},
       [DSC_ERROR_NONE])
  | PopBack =>
      if length_of s =? 0
      then (Void, s, [DSC_ERROR_EMPTY_CONTAINER; DSC_ERROR_NONE])
      else (Void,
            {| elements := take (length (elements s) - 1) (elements s);
               capacity := capacity s |},
            [DSC_ERROR_NONE; DSC_ERROR_NONE])
  | Insert position value =>
      if position >? length_of s
      then (Int 0, s, [DSC_ERROR_OUT_OF_RANGE])
      else (Int position,
            {| elements := take (Z.to_nat position) (elements s)
                           ++ value :: drop (Z.to_nat position) (elements s);
               capacity := grown s |},
            [DSC_ERROR_NONE])
  | Erase position =>
      if position >=? length_of s
      then (Void, s, [DSC_ERROR_OUT_OF_RANGE])
      else (Void,
            {| elements := take (Z.to_nat position) (elements s)
                           ++ drop (S (Z.to_nat position)) (elements s);
               capacity := capacity s |},
            [DSC_ERROR_NONE])
  | At index =>
      if index >=? length_of s
      then (Int 0, s, [DSC_ERROR_OUT_OF_RANGE])
      else (Int (default 0 (elements s !! Z.to_nat index)), s, [DSC_ERROR_NONE])
  | Empty => (Bool (length_of s =? 0), s, [DSC_ERROR_NONE])
  | Size => (Int (length_of s), s, [DSC_ERROR_NONE])
  | Capacity => (Int (capacity s), s, [DSC_ERROR_NONE])
  | Reserve new_capacity =>
      if new_capacity <=? capacity s
      then (Void, s, [DSC_ERROR_INVALID_ARGUMENT])
      else (Void,
            {| elements := elements s; capacity := new_capacity |},
            [DSC_ERROR_NONE])
  end.

Fixpoint run (calls : list call) (s : t) : list answer * t * list dsc_error_t :=
  match calls with
  | [] => ([], s, [])
  | c :: calls =>
      let '(a, s1, written) := step c s in
      let '(answers, s2, log) := run calls s1 in
      (a :: answers, s2, log ++ written)
  end.

(** The call keeps within what [struct DSCVector] can hold: arguments and
    capacities are [unsigned int], and [dsc_vector_size] returns [int]. *)
Definition fits (c : call) (s : t) : bool :=
  match c with
  | PushBack _ => grown s <=? UINT_MAX
  | Insert position _ =>
      (0 <=? position) && (position <=? UINT_MAX) && (grown s <=? UINT_MAX)
  | Erase position => (0 <=? position) && (position <=? UINT_MAX)
  | At index => (0 <=? index) && (index <=? UINT_MAX)
  | Size => length_of s <=? INT_MAX
  | Reserve new_capacity => (0 <=? new_capacity) && (new_capacity <=? UINT_MAX)
  | PopBack | Empty | Capacity => true
  end.

Fixpoint within_unsigned_int (calls : list call) (s : t) : bool :=
  match calls with
  | [] => true
  | c :: calls => fits c s && within_unsigned_int calls (snd (fst (step c s)))
  end.

(** The fields of a vector structure hold the sequence [s]: a block of
    [capacity] cells, of which the first [size] are the elements. *)
Definition models (values : int_ptr) (size capacity : Z) (s : t) : Prop :=
  exists cells,
    values = Block cells /\
    Z.of_nat (length cells) = capacity /\
    capacity = Sequence.capacity s /\
    size = length_of s /\
    take (length (elements s)) cells = elements s /\
    2 <= capacity <= UINT_MAX.

End Sequence.

(** ** Statements

    [reports e p] is the process after one write of [e] to the error slot
    and nothing else. *)

Definition reports (e : dsc_error_t) (p : process) : process :=
  {| error_log := e :: error_log p;
     allocator := allocator p;
     undefined := undefined p |}.

(** The number of requests the allocator serves before it refuses one is at
    least [n]. *)
Definition serves (n : nat) (p : process) : bool :=
  forallb (fun ok => ok) (take n (allocator p)).

(** [quiet m]: the program [m] neither writes to the error slot nor calls
    the allocator. *)
Definition quiet {A : Type} (m : prog A) : Prop :=
  forall p, error_log (snd (m p)) = error_log p /\
            allocator (snd (m p)) = allocator p.

(** The process whose allocator refuses the next request. *)
Definition refusing (p : process) : process :=
  {| error_log := error_log p;
     allocator := false :: allocator p;
     undefined := undefined p |}.

(** [wrote n p p']: from [p] to [p'] the error slot was written [n] times,
    [n] at least 1, on top of what [p] had; the slot holds the last of these
    writes whatever it held before. *)
Definition wrote (n : nat) (p p' : process) : Prop :=
  exists e es,
    length (e :: es) = n /\
    error_log p' = (e :: es) ++ error_log p /\
    dsc_get_error p' = e.

(** The writes of a call of [struct DSCVector]: [dsc_vector_pop_back] calls
    [dsc_vector_empty], which writes too. *)
Definition writes_of {A : Type} (c : call) (vector : option A) : nat :=
  match c, vector with
  | PopBack, Some _ => 2
  | _, _ => 1
  end.

(** The calls that may change the capacity, and those that add an element. *)
Definition changes_capacity (c : call) : bool :=
  match c with
  | PushBack _ | Insert _ _ | Reserve _ => true
  | _ => false
  end.

Definition adds_element (c : call) : bool :=
  match c with
  | PushBack _ | Insert _ _ => true
  | _ => false
  end.

(** The calls that add an element to a full vector: [dsc_vector_push_back],
    and [dsc_vector_insert] at a position within the size. *)
Definition adds_to_full (c : call) (size capacity : Z) : bool :=
  match c with
  | PushBack _ => size >=? capacity
  | Insert position _ => (0 <=? position) && (position <=? size) && (size >=? capacity)
  | _ => false
  end.

(** The invariant of the table behind the load factor: a positive capacity
    and [size / capacity <= 0.75]. *)
Definition table_ok (s : dsc_set.dsc_set_t) : Prop :=
  0 < dsc_set.capacity s /\ 4 * dsc_set.size s <= 3 * dsc_set.capacity s.

(** What a call returns on a null handle; [dsc_vector_size] returns
    [size_on_null]. *)
Definition null_answer (size_on_null : Z) (c : call) : answer :=
  match c with
  | PushBack _ | PopBack | Erase _ | Reserve _ => Void
  | Insert _ _ | At _ | Capacity => Int 0
  | Empty => Bool true
  | Size => Int size_on_null
  end.

(** [v] is well formed and holds the elements [l]: its block has
    [capacity] cells, [capacity] is from 2 to [UINT_MAX], and the first
    [size] cells are [l]. *)
Definition DSCVector_holds (v : DSCVector.DSCVector) (l : list Z) (capacity : Z) : Prop :=
  Sequence.models (DSCVector.values v) (DSCVector.size v) (DSCVector.capacity v)
                  (Sequence.mk l capacity).

Definition dsc_vector_t_holds (v : dsc_vector_t.dsc_vector_t) (l : list Z) (capacity : Z) : Prop :=
  Sequence.models (dsc_vector_t.values v) (dsc_vector_t.size v) (dsc_vector_t.capacity v)
                  (Sequence.mk l capacity).

(** The calls that may ask the allocator for a block, on a vector of the
    given size and capacity. *)
Definition may_allocate (c : call) (size capacity : Z) : bool :=
  match c with
  | PushBack _ => size >=? capacity
  | Insert position _ => (position <=? size) && (size >=? capacity)
  | Reserve new_capacity => capacity <? new_capacity
  | _ => false
  end.

(** [memory_only m]: the program [m] works on the memory alone; it leaves
    the error slot and the allocator as they are and does the same whatever
    they hold. *)
Definition memory_only {A : Type} (m : prog A) : Prop :=
  forall log script ub,
    m (mkProcess log script ub) =
      (fst (m (mkProcess [] [] ub)),
       mkProcess log script (undefined (snd (m (mkProcess [] [] ub))))).

(** Two outcomes that differ in nothing but the answers left in the
    allocator. *)
Definition same_outcome {A : Type} (r1 r2 : A * process) : Prop :=
  fst r1 = fst r2 /\
  error_log (snd r1) = error_log (snd r2) /\
  undefined (snd r1) = undefined (snd r2).

(** * Proofs *)

(** *** The product in [double] *)

Lemma round_half_even_comp (q1 q2 : Q) :
  (q1 == q2)%Q -> round_half_even q1 = round_half_even q2.
Proof.
  intros H. unfold round_half_even.
  rewrite (Qfloor_comp _ _ H).
  rewrite H. reflexivity.
Qed.

Lemma binary64_comp (q1 q2 : Q) : (q1 == q2)%Q -> binary64 q1 = binary64 q2.
Proof.
  intros H. unfold binary64.
  rewrite (Qfloor_comp _ _ H).
  apply (f_equal (fun z => (inject_Z z * 2 ^ (Z.log2 (Qfloor q2) - 52))%Q)).
  apply round_half_even_comp. rewrite H. reflexivity.
Qed.

Lemma round_half_even_Z (n : Z) : round_half_even (inject_Z n) = n.
Proof.
  unfold round_half_even. rewrite Qfloor_Z.
  destruct (Qcompare_spec (inject_Z n - inject_Z n)%Q (1 # 2)%Q) as [H|H|H];
    [exfalso; lra|reflexivity|exfalso; lra].
Qed.

Lemma round_half_even_near (q : Q) :
  (q - (1 # 2) <= inject_Z (round_half_even q) <= q + (1 # 2))%Q.
Proof.
  unfold round_half_even.
  pose proof (Qfloor_le q) as Hlow. pose proof (Qlt_floor q) as Hhigh.
  rewrite inject_Z_plus in Hhigh.
  change (inject_Z 1) with 1%Q in Hhigh.
  destruct (Qcompare_spec (q - inject_Z (Qfloor q))%Q (1 # 2)%Q) as [H|H|H].
  - destruct (Z.even (Qfloor q)); rewrite ?inject_Z_plus;
      change (inject_Z 1) with 1%Q; lra.
  - lra.
  - rewrite inject_Z_plus; change (inject_Z 1) with 1%Q; lra.
Qed.

Lemma two_power_pos (e : Z) : (0 < 2 ^ e)%Q.
Proof. apply Qpower_0_lt. reflexivity. Qed.

(** A value that is a multiple of its unit in the last place is a value of
    the format. *)
Lemma binary64_exact (q : Q) (n : Z) :
  (q == inject_Z n * 2 ^ (Z.log2 (Qfloor q) - 52))%Q -> (binary64 q == q)%Q.
Proof.
  intros H. unfold binary64.
  set (e := Z.log2 (Qfloor q) - 52) in *.
  pose proof (two_power_pos e) as He.
  rewrite (round_half_even_comp (q / 2 ^ e)%Q (inject_Z n)).
  - rewrite round_half_even_Z. symmetry. exact H.
  - rewrite H. field. lra.
Qed.

Lemma two_power_Z (k : Z) : 0 <= k -> (2 ^ k == inject_Z (2 ^ k))%Q.
Proof. intros Hk. rewrite Zpower_Qpower by assumption. reflexivity. Qed.

Lemma two_power_opp (k : Z) : (2 ^ k * 2 ^ (- k) == 1)%Q.
Proof.
  rewrite <- Qpower_plus by discriminate.
  rewrite Z.add_opp_diag_r. reflexivity.
Qed.

(** The error of a rounding, relative to the value. *)
Lemma binary64_near (q : Q) :
  (1 <= q)%Q ->
  (q - q * (1 # 2 ^ 53) <= binary64 q <= q + q * (1 # 2 ^ 53))%Q.
Proof.
  intros Hq. unfold binary64.
  set (f := Qfloor q). set (e := Z.log2 f - 52).
  pose proof (two_power_pos e) as He.
  assert (Hf : 1 <= f).
  { change 1 with (Qfloor 1). apply Qfloor_resp_le. exact Hq. }
  assert (Hulp : (2 ^ e * inject_Z (2 ^ 52) <= q)%Q).
  { apply Qle_trans with (inject_Z f); [|apply Qfloor_le].
    rewrite <- two_power_Z by lia.
    rewrite <- Qpower_plus by discriminate.
    replace (e + 52) with (Z.log2 f) by (unfold e; lia).
    rewrite two_power_Z by apply Z.log2_nonneg.
    rewrite <- Zle_Qle. apply Z.log2_spec. lia. }
  pose proof (round_half_even_near (q / 2 ^ e)%Q) as [Hlow Hhigh].
  set (r := inject_Z (round_half_even (q / 2 ^ e)%Q)) in *.
  apply (Qmult_le_compat_r _ _ (2 ^ e)%Q) in Hlow, Hhigh; try lra.
  assert (Hq' : (q / 2 ^ e * 2 ^ e == q)%Q) by (field; lra).
  change (inject_Z (2 ^ 52)) with (4503599627370496 # 1)%Q in Hulp.
  change (1 # 2 ^ 53)%Q with (1 # 9007199254740992)%Q.
  split; lra.
Qed.

Lemma to_double_exact (c : Z) :
  0 <= c < 2 ^ 53 -> (to_double c == inject_Z c)%Q.
Proof.
  intros Hc. unfold to_double.
  apply (binary64_exact _ (c * 2 ^ (52 - Z.log2 c))).
  rewrite Qfloor_Z.
  assert (Hlog : Z.log2 c <= 52).
  { destruct (Z.eq_dec c 0) as [->|Hpos]; [cbn; lia|].
    assert (Z.log2 c < 53) by (apply Z.log2_lt_pow2; lia). lia. }
  rewrite inject_Z_mult, <- two_power_Z by lia.
  rewrite <- Qmult_assoc, <- Qpower_plus by discriminate.
  replace (52 - Z.log2 c + (Z.log2 c - 52)) with 0 by lia.
  cbn [Qpower]. ring.
Qed.

(** For a capacity whose product with 1.5 is below 2^52, the product in
    [double] is the exact one. *)
Lemma growth_exact (c : Z) :
  0 <= c -> 3 * c < 2 ^ 53 ->
  Qfloor (mul_double (to_double c) 1.5) = 3 * c / 2.
Proof.
  intros Hc Hsmall. unfold mul_double.
  rewrite (binary64_comp (to_double c * 1.5)%Q (inject_Z (3 * c) * (1 # 2))%Q).
  2:{ rewrite to_double_exact by lia. rewrite inject_Z_mult. 
      change (inject_Z 3) with (3 # 1)%Q. change 1.5%Q with (15 # 10)%Q. ring. }
  assert (Hfloor : Qfloor (inject_Z (3 * c) * (1 # 2))%Q = 3 * c / 2).
  { unfold Qfloor. cbn. rewrite Z.mul_1_r. reflexivity. }
  rewrite (Qfloor_comp _ (inject_Z (3 * c) * (1 # 2))%Q).
  - exact Hfloor.
  - apply (binary64_exact _ (3 * c * 2 ^ (51 - Z.log2 (3 * c / 2)))).
    rewrite Hfloor.
    assert (Hlog : Z.log2 (3 * c / 2) <= 51).
    { destruct (Z.eq_dec (3 * c / 2) 0) as [->|Hpos]; [cbn; lia|].
      assert (0 <= 3 * c / 2) by (apply Z.div_pos; lia).
      assert (Z.log2 (3 * c / 2) < 52); [|lia].
      apply Z.log2_lt_pow2; [lia|].
      apply Z.div_lt_upper_bound; lia. }
    rewrite (inject_Z_mult (3 * c)), <- two_power_Z by lia.
    rewrite <- Qmult_assoc, <- Qpower_plus by discriminate.
    replace (51 - Z.log2 (3 * c / 2) + (Z.log2 (3 * c / 2) - 52)) with (-1) by lia.
    reflexivity.
Qed.

(** Whatever the capacity, the product in [double] is between the capacity
    and its double. *)
Lemma growth_bounds (c : Z) :
  0 <= c -> c <= Qfloor (mul_double (to_double c) 1.5) <= 2 * c.
Proof.
  intros Hc.
  destruct (Z.eq_dec c 0) as [->|Hpos]; [vm_compute; split; discriminate|].
  assert (H1 : (1 <= inject_Z c)%Q) by (rewrite <- (Zle_Qle 1); lia).
  pose proof (binary64_near (inject_Z c) H1) as Hx.
  fold (to_double c) in Hx. set (x := to_double c) in *.
  change (1 # 2 ^ 53)%Q with (1 # 9007199254740992)%Q in *.
  assert (H2 : (1 <= x * 1.5)%Q) by (change 1.5%Q with (15 # 10)%Q; lra).
  pose proof (binary64_near (x * 1.5)%Q H2) as Hy.
  fold (mul_double x 1.5) in Hy. set (y := mul_double x 1.5) in *.
  change (1 # 2 ^ 53)%Q with (1 # 9007199254740992)%Q in *.
  change 1.5%Q with (15 # 10)%Q in *.
  split.
  - rewrite <- (Qfloor_Z c). apply Qfloor_resp_le. lra.
  - rewrite <- (Qfloor_Z (2 * c)). apply Qfloor_resp_le.
    rewrite inject_Z_mult. change (inject_Z 2) with (2 # 1)%Q. lra.
Qed.


Ltac tests :=
  repeat match goal with
         | |- context [?a >=? ?b] => rewrite (Z.geb_leb a b)
         | |- context [?a >? ?b] => rewrite (Z.gtb_ltb a b)
         | H : context [?a >=? ?b] |- _ => rewrite (Z.geb_leb a b) in H
         | H : context [?a >? ?b] |- _ => rewrite (Z.gtb_ltb a b) in H
         end;
  repeat match goal with
         | |- context [?a <=? ?b] => destruct (Z.leb_spec a b); try lia
         | |- context [?a <? ?b] => destruct (Z.ltb_spec a b); try lia
         | |- context [?a =? ?b] => destruct (Z.eqb_spec a b); try lia
         end.

Lemma get_error_reports e p : dsc_get_error (reports e p) = e.
Proof. reflexivity. Qed.

(** C6.  A null handle: each operation of both vectors, and add, remove and
    contains of the set, writes INVALID_ARGUMENT to the error slot, does
    nothing else to the process (no allocation, no undefined behaviour),
    hands back the null handle and returns its default value.
    [dsc_vector_create] takes no handle. *)
Theorem null_handle_is_rejected
  (p : process) (value position index new_capacity growth_step : Z) :
  let rejected := reports DSC_ERROR_INVALID_ARGUMENT p in
  (dsc_get_error rejected = DSC_ERROR_INVALID_ARGUMENT /\
   allocator rejected = allocator p /\
   undefined rejected = undefined p) /\
  (DSCVector.dsc_vector_free None p = (tt, rejected) /\
   DSCVector.dsc_vector_push_back None value p = (None, rejected) /\
   DSCVector.dsc_vector_pop_back None p = (None, rejected) /\
   DSCVector.dsc_vector_insert None position value p = (0, None, rejected) /\
   DSCVector.dsc_vector_erase None position p = (None, rejected) /\
   DSCVector.dsc_vector_at None index p = (0, rejected) /\
   DSCVector.dsc_vector_empty None p = (true, rejected) /\
   DSCVector.dsc_vector_size None p = (-1, rejected) /\
   DSCVector.dsc_vector_capacity None p = (0, rejected) /\
   DSCVector.dsc_vector_reserve None new_capacity p = (None, rejected)) /\
  (dsc_vector_t.dsc_vector_free None p = (tt, rejected) /\
   dsc_vector_t.dsc_vector_push_back None value p = (None, rejected) /\
   dsc_vector_t.dsc_vector_pop_back None p = (None, rejected) /\
   dsc_vector_t.dsc_vector_insert None position value p = (0, None, rejected) /\
   dsc_vector_t.dsc_vector_erase None position p = (None, rejected) /\
   dsc_vector_t.dsc_vector_at None index p = (0, rejected) /\
   dsc_vector_t.dsc_vector_empty None p = (true, rejected) /\
   dsc_vector_t.dsc_vector_size None p = (0, rejected) /\
   dsc_vector_t.dsc_vector_capacity None p = (0, rejected) /\
   dsc_vector_t.dsc_vector_reserve None new_capacity p = (None, rejected)) /\
  (dsc_set.dsc_set_add growth_step None value p = (None, rejected) /\
   dsc_set.dsc_set_remove None value p = (None, rejected) /\
   dsc_set.dsc_set_contains None value p = (false, rejected)).
Proof.
  intros rejected. repeat split.
Qed.

(** C7.  An index at or beyond the size: [dsc_vector_at] and
    [dsc_vector_erase] report OUT_OF_RANGE, and so does [dsc_vector_insert]
    for a position beyond the size; the structure is handed back as it was
    (same block, size and capacity) and nothing else happens to the process. *)
Theorem out_of_range_is_reported
  (values : int_ptr) (size capacity index position value : Z) (p : process) :
  size <= index ->
  size < position ->
  let v1 := DSCVector.mkVector values size capacity in
  let v2 := dsc_vector_t.mkVector values size capacity in
  let refused := reports DSC_ERROR_OUT_OF_RANGE p in
  dsc_get_error refused = DSC_ERROR_OUT_OF_RANGE /\
  (DSCVector.dsc_vector_at (Some v1) index p = (0, refused) /\
   DSCVector.dsc_vector_erase (Some v1) index p = (Some v1, refused) /\
   DSCVector.dsc_vector_insert (Some v1) position value p = (0, Some v1, refused)) /\
  (dsc_vector_t.dsc_vector_at (Some v2) index p = (0, refused) /\
   dsc_vector_t.dsc_vector_erase (Some v2) index p = (Some v2, refused) /\
   dsc_vector_t.dsc_vector_insert (Some v2) position value p = (0, Some v2, refused)).
Proof.
  intros Hindex Hposition v1 v2 refused.
  split; [reflexivity|].
  split; repeat split;
    cbn [DSCVector.dsc_vector_at DSCVector.dsc_vector_erase
         DSCVector.dsc_vector_insert dsc_vector_t.dsc_vector_at
         dsc_vector_t.dsc_vector_erase dsc_vector_t.dsc_vector_insert
         v1 v2 DSCVector.size dsc_vector_t.size];
    tests; reflexivity.
Qed.

Lemma out_of_range_is_reported_witness :
  let v1 := DSCVector.mkVector (Block [4; 5; 0]) 2 3 in
  let v2 := dsc_vector_t.mkVector (Block [4; 5; 0]) 2 3 in
  let refused := reports DSC_ERROR_OUT_OF_RANGE (mkProcess [] [] false) in
  dsc_get_error refused = DSC_ERROR_OUT_OF_RANGE /\
  (DSCVector.dsc_vector_at (Some v1) 2 (mkProcess [] [] false) = (0, refused) /\
   DSCVector.dsc_vector_erase (Some v1) 2 (mkProcess [] [] false) = (Some v1, refused) /\
   DSCVector.dsc_vector_insert (Some v1) 3 9 (mkProcess [] [] false) = (0, Some v1, refused)) /\
  (dsc_vector_t.dsc_vector_at (Some v2) 2 (mkProcess [] [] false) = (0, refused) /\
   dsc_vector_t.dsc_vector_erase (Some v2) 2 (mkProcess [] [] false) = (Some v2, refused) /\
   dsc_vector_t.dsc_vector_insert (Some v2) 3 9 (mkProcess [] [] false) = (0, Some v2, refused)).
Proof.
  apply (out_of_range_is_reported (Block [4; 5; 0]) 2 3 2 3 9 (mkProcess [] [] false)); lia.
Defined.

(** C4.  [dsc_set_create]: when the allocator serves its two requests (the
    set, the bucket array) the set has 16 empty bucket heads, size 0,
    capacity 16 and error state NONE, and NONE is reported; when it refuses
    one the handle is null and OUT_OF_MEMORY is reported. *)
Theorem set_create_initial_state (p : process) :
  let (set, p') := dsc_set.dsc_set_create p in
  if serves 2 p
  then set = Some {| dsc_set.buckets := replicate 16 [];
                     dsc_set.capacity := 16;
                     dsc_set.size := 0;
                     dsc_set.error := DSC_ERROR_NONE |} /\
       dsc_set.DSC_SET_INITIAL_CAPACITY = 16 /\
       dsc_get_error p' = DSC_ERROR_NONE
  else set = None /\ dsc_get_error p' = DSC_ERROR_OUT_OF_MEMORY.
Proof.
  destruct p as [log script ub].
  destruct script as [|[] [|[] script]]; vm_compute; repeat split.
Qed.

(** From here on the product in [double] is known by these lemmas alone. *)
Opaque binary64.

(** *** The loops leave the error slot and the allocator alone *)

Lemma quiet_ret {A : Type} (a : A) : quiet (ret a).
Proof. intros p. split; reflexivity. Qed.

Lemma quiet_bind {A B : Type} (m : prog A) (k : A -> prog B) :
  quiet m -> (forall a, quiet (k a)) -> quiet (bind m k).
Proof.
  intros Hm Hk p. unfold bind.
  destruct (Hm p) as [Hlog Hscript].
  destruct (m p) as [a p1]. simpl in *.
  destruct (Hk a p1) as [Hlog' Hscript'].
  split; congruence.
Qed.

Lemma quiet_undefined_behaviour : quiet undefined_behaviour.
Proof. intros p. split; reflexivity. Qed.

Lemma quiet_load values i : quiet (load values i).
Proof.
  unfold load. repeat case_match;
    auto using quiet_ret, quiet_bind, quiet_undefined_behaviour.
Qed.

Lemma quiet_store values i x : quiet (store values i x).
Proof.
  unfold store. repeat case_match;
    auto using quiet_ret, quiet_bind, quiet_undefined_behaviour.
Qed.

Lemma quiet_shift_right n position values : quiet (shift_right n position values).
Proof.
  revert values. induction n as [|n IH]; intros values; simpl.
  - apply quiet_ret.
  - apply quiet_bind; [apply quiet_load|]. intros x.
    apply quiet_bind; [apply quiet_store|]. intros values'. apply IH.
Qed.

Lemma quiet_shift_left n i values : quiet (shift_left n i values).
Proof.
  revert i values. induction n as [|n IH]; intros i values; simpl.
  - apply quiet_ret.
  - apply quiet_bind; [apply quiet_load|]. intros x.
    apply quiet_bind; [apply quiet_store|]. intros values'. apply IH.
Qed.

(** A quiet program leaves a process that differs in the undefined-behaviour
    flag at most. *)
Lemma quiet_process {A : Type} (m : prog A) (p : process) :
  quiet m ->
  exists a ub, m p = (a, {| error_log := error_log p;
                            allocator := allocator p;
                            undefined := ub |}).
Proof.
  intros Hm. destruct (Hm p) as [Hlog Hscript].
  destruct (m p) as [a [log script ub]]. simpl in *. subst.
  eauto.
Qed.

(** *** A failed growth in [struct dsc_vector_t] *)

(** C3.  [dsc_vector_push_back] of [struct dsc_vector_t] on a full vector
    while the allocator refuses the new block: [dsc_vector_resize] reports
    OUT_OF_MEMORY and returns, the caller finds [values] non-null and goes
    on: it stores beyond the block, increments the size beyond the capacity
    and reports NONE. *)
Theorem push_back_failed_growth_dsc_vector_t :
  let v := dsc_vector_t.mkVector (Block [1; 2]) 2 2 in
  let p := mkProcess [] [false] false in
  let (after, p') := dsc_vector_t.dsc_vector_push_back (Some v) 3 p in
  after = Some (dsc_vector_t.mkVector (Block [1; 2]) 3 2) /\
  (forall v', after = Some v' -> dsc_vector_t.capacity v' < dsc_vector_t.size v') /\
  error_log p' = [DSC_ERROR_NONE; DSC_ERROR_OUT_OF_MEMORY] /\
  dsc_get_error p' = DSC_ERROR_NONE /\
  undefined p' = true.
Proof.
  vm_compute. repeat split. intros v' [= <-]. reflexivity.
Qed.

(** The same on every full vector of [struct dsc_vector_t] that owns a
    block: the size is incremented, the capacity is not, NONE is reported. *)
Lemma push_back_failed_growth_any_dsc_vector_t
  (cells : list Z) (size capacity value : Z) (p : process) :
  capacity <= size ->
  let v := dsc_vector_t.mkVector (Block cells) size capacity in
  exists values' p',
    dsc_vector_t.dsc_vector_push_back (Some v) value (refusing p) =
      (Some (dsc_vector_t.mkVector values' (dsc_vector_t.usize (size + 1)) capacity), p') /\
    dsc_get_error p' = DSC_ERROR_NONE.
Proof.
  intros Hfull v.
  unfold dsc_vector_t.dsc_vector_push_back, dsc_vector_t.dsc_vector_resize,
    dsc_vector_t.double_to_size, malloc, alloc, bind, ret, refusing; simpl.
  repeat (tests; cbn); eauto.
Qed.

(** In [struct DSCVector] the failed growth is reported and the structure
    is handed back as it was. *)
Lemma push_back_failed_growth_DSCVector
  (v : DSCVector.DSCVector) (value : Z) (p : process) :
  DSCVector.capacity v <= DSCVector.size v ->
  exists p',
    DSCVector.dsc_vector_push_back (Some v) value (refusing p) = (Some v, p') /\
    dsc_get_error p' = DSC_ERROR_OUT_OF_MEMORY.
Proof.
  intros Hfull. destruct v as [values size capacity]. simpl in Hfull.
  unfold DSCVector.dsc_vector_push_back, DSCVector.dsc_vector_resize,
    DSCVector.double_to_uint, realloc, malloc, alloc, bind, ret, refusing; simpl.
  tests; destruct values; simpl; eauto.
Qed.

Lemma insert_failed_growth_DSCVector
  (v : DSCVector.DSCVector) (position value : Z) (p : process) :
  DSCVector.capacity v <= DSCVector.size v ->
  position <= DSCVector.size v ->
  exists p',
    DSCVector.dsc_vector_insert (Some v) position value (refusing p) = (0, Some v, p') /\
    dsc_get_error p' = DSC_ERROR_OUT_OF_MEMORY.
Proof.
  intros Hfull Hposition. destruct v as [values size capacity]. simpl in *.
  unfold DSCVector.dsc_vector_insert, DSCVector.dsc_vector_resize,
    DSCVector.double_to_uint, realloc, malloc, alloc, bind, ret, refusing; simpl.
  tests; destruct values; simpl; eauto.
Qed.

(** [dsc_vector_insert] of [struct DSCVector] returns its position argument
    when it reports NONE and 0 when it reports anything else, on every
    vector, null handle included, and whatever the allocator answers. *)
Lemma insert_returns_DSCVector
  (vector : option DSCVector.DSCVector) (position value : Z) (p : process) :
  let (r, p') := DSCVector.dsc_vector_insert vector position value p in
  match dsc_get_error p' with
  | DSC_ERROR_NONE => fst r = position
  | _ => fst r = 0
  end.
Proof.
  destruct p as [log script ub], vector as [[values size capacity]|];
    [|reflexivity].
  unfold DSCVector.dsc_vector_insert, DSCVector.dsc_vector_resize,
    DSCVector.double_to_uint, realloc, malloc, alloc, bind, ret; cbn.
  repeat (tests; cbn); try reflexivity.
  all: destruct values; repeat (tests; cbn); try reflexivity.
  all: destruct script as [|[] script]; repeat (tests; cbn); try reflexivity.
  all: repeat match goal with
         | |- context [shift_right ?n ?pos ?vals ?q] =>
             destruct (quiet_process (shift_right n pos vals) q
                         (quiet_shift_right n pos vals)) as (? & ? & ->)
         | |- context [store ?vals ?i ?x ?q] =>
             destruct (quiet_process (store vals i x) q
                         (quiet_store vals i x)) as (? & ? & ->)
         end; reflexivity.
Qed.

(** C10.  [dsc_vector_insert] of [struct dsc_vector_t] on a full vector
    while the allocator refuses the new block: the call returns its position
    argument, not 0, and reports NONE; the element shifted beyond the block
    is lost. *)
Theorem insert_failed_growth_dsc_vector_t :
  let v := dsc_vector_t.mkVector (Block [1; 2]) 2 2 in
  let p := mkProcess [] [false] false in
  dsc_vector_t.dsc_vector_insert (Some v) 1 9 p =
    (1, Some (dsc_vector_t.mkVector (Block [1; 9]) 3 2),
     mkProcess [DSC_ERROR_NONE; DSC_ERROR_OUT_OF_MEMORY] [] true) /\
  fst (fst (dsc_vector_t.dsc_vector_insert (Some v) 1 9 p)) <> 0 /\
  dsc_get_error (snd (dsc_vector_t.dsc_vector_insert (Some v) 1 9 p)) = DSC_ERROR_NONE.
Proof.
  vm_compute. repeat split. discriminate.
Qed.

(** *** The writes to the error slot *)

(** The loops and the accesses to a block are replaced by their result and
    the process they leave. *)
Ltac loops :=
  repeat match goal with
         | |- context [shift_right ?n ?pos ?vals ?q] =>
             destruct (quiet_process (shift_right n pos vals) q
                         (quiet_shift_right n pos vals)) as (? & ? & ->)
         | |- context [shift_left ?n ?i ?vals ?q] =>
             destruct (quiet_process (shift_left n i vals) q
                         (quiet_shift_left n i vals)) as (? & ? & ->)
         | |- context [store ?vals ?i ?x ?q] =>
             destruct (quiet_process (store vals i x) q
                         (quiet_store vals i x)) as (? & ? & ->)
         | |- context [load ?vals ?i ?q] =>
             destruct (quiet_process (load vals i) q
                         (quiet_load vals i)) as (? & ? & ->)
         end.

(** Symbolic execution: every test is decided both ways. *)
Ltac exec :=
  repeat (tests; cbn; loops;
          try match goal with
              | |- context [if ?b then _ else _] => destruct b eqn:?
              end).

Ltac unfold_DSCVector :=
  unfold DSCVector.dsc_vector_push_back, DSCVector.dsc_vector_insert,
    DSCVector.dsc_vector_erase, DSCVector.dsc_vector_at,
    DSCVector.dsc_vector_reserve, DSCVector.dsc_vector_create,
    DSCVector.dsc_vector_free, DSCVector.dsc_vector_resize,
    DSCVector.double_to_uint, realloc, free, malloc, alloc, bind, ret.

Ltac unfold_dsc_vector_t :=
  unfold dsc_vector_t.dsc_vector_push_back, dsc_vector_t.dsc_vector_insert,
    dsc_vector_t.dsc_vector_erase, dsc_vector_t.dsc_vector_at,
    dsc_vector_t.dsc_vector_reserve, dsc_vector_t.dsc_vector_create,
    dsc_vector_t.dsc_vector_free, dsc_vector_t.dsc_vector_resize,
    dsc_vector_t.double_to_size, memcpy, is_null, free, malloc, alloc, bind, ret.

Ltac wrote_once := eexists _, []; repeat split; reflexivity.
Ltac wrote_twice := eexists _, [_]; repeat split; reflexivity.
Ltac wrote_some := first [ wrote_once | wrote_twice | left; wrote_once | right; wrote_twice ].

Lemma DSCVector_call_writes c vector p :
  wrote (writes_of c vector) p (snd (DSCVector.perform c vector p)).
Proof.
  destruct p as [log script ub].
  destruct c, vector as [[values size capacity]|]; cbn; try wrote_some.
  all: unfold_DSCVector; cbn; exec; try wrote_some.
  all: destruct values; exec; try wrote_some.
  all: destruct script as [|[] script]; exec; wrote_some.
Qed.

Lemma DSCVector_create_writes initial_capacity p :
  wrote 1 p (snd (DSCVector.dsc_vector_create initial_capacity p)).
Proof.
  destruct p as [log script ub].
  unfold_DSCVector; cbn.
  destruct script as [|[] [|[] script]]; cbn; wrote_once.
Qed.

Lemma DSCVector_free_writes vector p :
  wrote 1 p (snd (DSCVector.dsc_vector_free vector p)).
Proof.
  destruct vector as [[[] size capacity]|]; cbn; wrote_once.
Qed.

Lemma dsc_vector_t_call_writes c vector p :
  wrote 1 p (snd (dsc_vector_t.perform c vector p)) \/
  wrote 2 p (snd (dsc_vector_t.perform c vector p)).
Proof.
  destruct p as [log script ub].
  destruct c, vector as [[values size capacity]|]; cbn; try wrote_some.
  all: unfold_dsc_vector_t; cbn; exec; try wrote_some.
  all: destruct script as [|[] script]; exec; try wrote_some.
  all: destruct values; exec; wrote_some.
Qed.

Lemma dsc_vector_t_create_writes initial_capacity p :
  wrote 1 p (snd (dsc_vector_t.dsc_vector_create initial_capacity p)) \/
  wrote 2 p (snd (dsc_vector_t.dsc_vector_create initial_capacity p)).
Proof.
  destruct p as [log script ub].
  unfold_dsc_vector_t; cbn.
  destruct script as [|[] [|[] script]]; exec; wrote_some.
Qed.

Lemma dsc_vector_t_free_writes vector p :
  wrote 1 p (snd (dsc_vector_t.dsc_vector_free vector p)).
Proof.
  destruct vector as [[[] size capacity]|]; cbn; wrote_once.
Qed.

Lemma DSCVector_push_back_refused (v : DSCVector.DSCVector) (value : Z) (p : process) :
  dsc_get_error (snd (DSCVector.dsc_vector_push_back (Some v) value (refusing p))) =
    if DSCVector.size v >=? DSCVector.capacity v
    then DSC_ERROR_OUT_OF_MEMORY
    else DSC_ERROR_NONE.
Proof.
  destruct p as [log script ub], v as [values size capacity].
  unfold_DSCVector; unfold refusing; cbn; exec; try reflexivity.
  all: destruct values; exec; reflexivity.
Qed.

(** C2, as the code has it.  Every public operation of the two vectors
    writes the error slot before it returns, once or twice, and the slot
    then holds its last write whatever it held before.  In
    [struct DSCVector] the count is exact: one write, two in
    [dsc_vector_pop_back] on a non-null handle ([dsc_vector_empty] writes
    NONE first); and when the allocator refuses the block
    [dsc_vector_push_back] needs, the slot is left at OUT_OF_MEMORY. *)
Theorem error_slot_is_written
  (c : call) (initial_capacity value : Z)
  (vector1 : option DSCVector.DSCVector)
  (vector2 : option dsc_vector_t.dsc_vector_t)
  (v : DSCVector.DSCVector) (p : process) :
  (wrote (writes_of c vector1) p (snd (DSCVector.perform c vector1 p)) /\
   wrote 1 p (snd (DSCVector.dsc_vector_create initial_capacity p)) /\
   wrote 1 p (snd (DSCVector.dsc_vector_free vector1 p))) /\
  ((wrote 1 p (snd (dsc_vector_t.perform c vector2 p)) \/
    wrote 2 p (snd (dsc_vector_t.perform c vector2 p))) /\
   (wrote 1 p (snd (dsc_vector_t.dsc_vector_create initial_capacity p)) \/
    wrote 2 p (snd (dsc_vector_t.dsc_vector_create initial_capacity p))) /\
   wrote 1 p (snd (dsc_vector_t.dsc_vector_free vector2 p))) /\
  dsc_get_error (snd (DSCVector.dsc_vector_push_back (Some v) value (refusing p))) =
    (if DSCVector.size v >=? DSCVector.capacity v
     then DSC_ERROR_OUT_OF_MEMORY
     else DSC_ERROR_NONE).
Proof.
  repeat split;
    auto using DSCVector_call_writes, DSCVector_create_writes,
      DSCVector_free_writes, dsc_vector_t_call_writes,
      dsc_vector_t_create_writes, dsc_vector_t_free_writes,
      DSCVector_push_back_refused.
Qed.

(** C2, as stated, fails: [dsc_vector_pop_back] on a vector that is not
    empty writes the error slot twice, in both implementations. *)
Lemma pop_back_writes_error_slot_twice :
  let p := mkProcess [DSC_ERROR_OUT_OF_RANGE] [] false in
  let p1 := snd (DSCVector.dsc_vector_pop_back
                   (Some (DSCVector.mkVector (Block [7]) 1 1)) p) in
  let p2 := snd (dsc_vector_t.dsc_vector_pop_back
                   (Some (dsc_vector_t.mkVector (Block [7]) 1 1)) p) in
  error_log p1 = [DSC_ERROR_NONE; DSC_ERROR_NONE; DSC_ERROR_OUT_OF_RANGE] /\
  error_log p2 = [DSC_ERROR_NONE; DSC_ERROR_NONE; DSC_ERROR_OUT_OF_RANGE] /\
  length (error_log p1) <> S (length (error_log p)) /\
  length (error_log p2) <> S (length (error_log p)).
Proof.
  vm_compute. repeat split; discriminate.
Qed.

(** The failed growth in [dsc_vector_insert] of [struct dsc_vector_t], on
    every full vector that owns a block and every position within the size:
    the position is returned, the size incremented and NONE reported. *)
Lemma insert_failed_growth_any_dsc_vector_t
  (cells : list Z) (size capacity position value : Z) (p : process) :
  capacity <= size ->
  0 <= position <= size ->
  let v := dsc_vector_t.mkVector (Block cells) size capacity in
  exists values' p',
    dsc_vector_t.dsc_vector_insert (Some v) position value (refusing p) =
      (position,
       Some (dsc_vector_t.mkVector values' (dsc_vector_t.usize (size + 1)) capacity),
       p') /\
    dsc_get_error p' = DSC_ERROR_NONE.
Proof.
  intros Hfull Hposition v. destruct p as [log script ub].
  unfold v, refusing. unfold_dsc_vector_t; cbn. exec; eauto.
Qed.

(** *** The capacity *)

Ltac arith :=
  change (Z.pos (1 * 10)%positive) with 10 in *;
  unfold DSCVector.uint, dsc_vector_t.usize,
    UINT_MAX, INT_MAX, SIZE_MAX, sizeof_int in *;
  Z.div_mod_to_equations; lia.

Lemma growth_floor (capacity : Z) :
  Qfloor (inject_Z capacity * 1.5) = 3 * capacity / 2.
Proof. cbn. arith. Qed.

(** Where the hypotheses bound the capacity, the product in [double] is
    replaced by its value. *)
Ltac exact_product := rewrite ?growth_exact in * by arith.

Lemma DSCVector_capacity c v p :
  0 <= DSCVector.capacity v ->
  3 * DSCVector.capacity v / 2 <= UINT_MAX ->
  exists v',
    snd (fst (DSCVector.perform c (Some v) p)) = Some v' /\
    if changes_capacity c
    then DSCVector.capacity v <= DSCVector.capacity v'
    else DSCVector.capacity v' = DSCVector.capacity v.
Proof.
  destruct p as [log script ub], v as [values size capacity].
  cbn [DSCVector.capacity]. intros Hcapacity Hfits.
  destruct c; cbn; eauto.
  all: unfold_DSCVector; cbn; exact_product; exec; eauto.
  all: destruct values; exec; eauto.
  all: destruct script as [|[] script]; exec; eauto.
  all: eexists; split; [reflexivity|cbn; arith].
Qed.

Lemma dsc_vector_t_capacity c v p :
  0 <= dsc_vector_t.capacity v <= SIZE_MAX / sizeof_int ->
  exists v',
    snd (fst (dsc_vector_t.perform c (Some v) p)) = Some v' /\
    dsc_vector_t.capacity v' <= SIZE_MAX / sizeof_int /\
    if changes_capacity c
    then dsc_vector_t.capacity v <= dsc_vector_t.capacity v'
    else dsc_vector_t.capacity v' = dsc_vector_t.capacity v.
Proof.
  destruct p as [log script ub], v as [values size capacity].
  cbn [dsc_vector_t.capacity]. intros Hcapacity.
  pose proof (growth_bounds capacity (proj1 Hcapacity)) as Hproduct.
  destruct c; cbn; eauto.
  all: unfold_dsc_vector_t; cbn; exec; eauto.
  all: destruct script as [|[] script]; exec; eauto.
  all: destruct values; exec; eauto.
  all: eexists; split; [reflexivity|cbn; arith].
Qed.

(** No call decreases the capacity of a vector as long as the grown
    capacity fits the type of the field: [dsc_vector_pop_back],
    [dsc_vector_erase] and the calls that only read leave it as it is, and
    [dsc_vector_push_back], [dsc_vector_insert] and [dsc_vector_reserve]
    leave one at least as large, whatever the allocator answers.  The
    capacity of a [struct dsc_vector_t] is at most [SIZE_MAX / sizeof(int)],
    which [dsc_vector_resize] checks and every call preserves; for a
    [struct DSCVector] nothing checks that the grown capacity fits
    [unsigned int]. *)
Lemma capacity_kept_in_range
  (c : call) (v1 : DSCVector.DSCVector) (v2 : dsc_vector_t.dsc_vector_t)
  (p : process) :
  0 <= DSCVector.capacity v1 ->
  3 * DSCVector.capacity v1 / 2 <= UINT_MAX ->
  0 <= dsc_vector_t.capacity v2 <= SIZE_MAX / sizeof_int ->
  (exists v1',
     snd (fst (DSCVector.perform c (Some v1) p)) = Some v1' /\
     if changes_capacity c
     then DSCVector.capacity v1 <= DSCVector.capacity v1'
     else DSCVector.capacity v1' = DSCVector.capacity v1) /\
  (exists v2',
     snd (fst (dsc_vector_t.perform c (Some v2) p)) = Some v2' /\
     dsc_vector_t.capacity v2' <= SIZE_MAX / sizeof_int /\
     if changes_capacity c
     then dsc_vector_t.capacity v2 <= dsc_vector_t.capacity v2'
     else dsc_vector_t.capacity v2' = dsc_vector_t.capacity v2).
Proof.
  intros H1 Hfits H2. split.
  - apply DSCVector_capacity; assumption.
  - apply dsc_vector_t_capacity; assumption.
Qed.

(** A full [struct DSCVector] whose capacity multiplied by 1.5 is beyond
    [unsigned int]: the conversion of the product is undefined; with the
    value wrapped, [dsc_vector_push_back] installs a capacity that is
    smaller than the old one and reports NONE. *)
Lemma DSCVector_push_back_wraps
  (cells : list Z) (size capacity value size' wrapped : Z) (p : process) :
  capacity <= size ->
  capacity <= UINT_MAX ->
  UINT_MAX + 1 < 3 * capacity / 2 ->
  DSCVector.uint (size + 1) = size' ->
  3 * capacity / 2 - (UINT_MAX + 1) = wrapped ->
  hd true (allocator p) = true ->
  exists values' p',
    DSCVector.dsc_vector_push_back
      (Some (DSCVector.mkVector (Block cells) size capacity)) value p =
      (Some (DSCVector.mkVector values' size' wrapped), p') /\
    wrapped < capacity /\
    dsc_get_error p' = DSC_ERROR_NONE /\
    undefined p' = true.
Proof.
  intros Hfull Hcapacity Hbeyond <- <- Hserved.
  destruct p as [log script ub]. cbn [allocator] in Hserved.
  assert (Hwrap : DSCVector.uint (3 * capacity / 2) = 3 * capacity / 2 - (UINT_MAX + 1))
    by arith.
  unfold_DSCVector; cbn. exact_product. rewrite Hwrap.
  destruct script as [|[] script]; try discriminate Hserved.
  all: exec; eexists _, _; (split; [reflexivity|]); repeat split; arith.
Qed.

(** C9.  [dsc_vector_push_back] of [struct DSCVector] on a full vector of
    capacity 2988261580, the capacity that 47 growths from 16 give, with
    the allocator serving: 1.5 times the capacity does not fit
    [unsigned int], the conversion is undefined, and with the value wrapped
    the capacity becomes 187425074, smaller than it was and smaller than the
    new size; NONE is reported. *)
Theorem push_back_shrinks_capacity_DSCVector :
  exists values' p',
    DSCVector.dsc_vector_push_back
      (Some (DSCVector.mkVector (Block (replicate (Z.to_nat 2988261580) 0))
                                2988261580 2988261580)) 7
      (mkProcess [] [] false) =
      (Some (DSCVector.mkVector values' 2988261581 187425074), p') /\
    187425074 < 2988261580 /\
    dsc_get_error p' = DSC_ERROR_NONE /\
    undefined p' = true.
Proof.
  apply DSCVector_push_back_wraps; solve [reflexivity | discriminate].
Qed.

(** *** The growth *)

Lemma DSCVector_grows c v p :
  adds_to_full c (DSCVector.size v) (DSCVector.capacity v) = true ->
  0 <= DSCVector.capacity v ->
  3 * DSCVector.capacity v / 2 <= UINT_MAX ->
  hd true (allocator p) = true ->
  exists v',
    snd (fst (DSCVector.perform c (Some v) p)) = Some v' /\
    DSCVector.capacity v' = 3 * DSCVector.capacity v / 2 /\
    DSCVector.size v' = DSCVector.uint (DSCVector.size v + 1) /\
    dsc_get_error (snd (DSCVector.perform c (Some v) p)) = DSC_ERROR_NONE.
Proof.
  destruct p as [log script ub], v as [values size capacity].
  cbn [DSCVector.capacity DSCVector.size allocator].
  intros Hfull Hcapacity Hfits Hserved.
  destruct c; try discriminate Hfull; cbn in Hfull.
  all: rewrite ?andb_true_iff, ?Z.geb_leb, ?Z.leb_le in Hfull.
  all: cbn; unfold_DSCVector; cbn; exact_product.
  all: destruct values, script as [|[] script]; try discriminate Hserved.
  all: exec; try lia.
  all: eexists; repeat split; reflexivity.
Qed.

Lemma dsc_vector_t_grows c v p :
  adds_to_full c (dsc_vector_t.size v) (dsc_vector_t.capacity v) = true ->
  0 <= dsc_vector_t.capacity v ->
  Qfloor (mul_double (to_double (dsc_vector_t.capacity v)) 1.5) <= SIZE_MAX / sizeof_int ->
  hd true (allocator p) = true ->
  exists v',
    snd (fst (dsc_vector_t.perform c (Some v) p)) = Some v' /\
    dsc_vector_t.capacity v' =
      Qfloor (mul_double (to_double (dsc_vector_t.capacity v)) 1.5) /\
    dsc_vector_t.size v' = dsc_vector_t.usize (dsc_vector_t.size v + 1) /\
    dsc_get_error (snd (dsc_vector_t.perform c (Some v) p)) = DSC_ERROR_NONE.
Proof.
  destruct p as [log script ub], v as [values size capacity].
  cbn [dsc_vector_t.capacity dsc_vector_t.size allocator].
  intros Hfull Hcapacity Hguard Hserved.
  assert (Hproduct := growth_bounds capacity Hcapacity).
  destruct c; try discriminate Hfull; cbn in Hfull.
  all: rewrite ?andb_true_iff, ?Z.geb_leb, ?Z.leb_le in Hfull.
  all: cbn; unfold_dsc_vector_t; cbn.
  all: destruct values, script as [|[] script]; try discriminate Hserved.
  all: exec; try lia; try arith.
  all: eexists; repeat split; reflexivity.
Qed.

(** A capacity of 2 or more grows. *)
Lemma growth_strict (c : Z) :
  2 <= c -> c < Qfloor (mul_double (to_double c) 1.5).
Proof.
  intros Hc.
  destruct (Z.lt_ge_cases c (2 ^ 51)) as [Hsmall|Hlarge].
  - rewrite growth_exact by lia. arith.
  - apply Z.le_succ_l.
    change (2 ^ 51) with 2251799813685248 in Hlarge.
    assert (H1 : (2251799813685248 # 1 <= inject_Z c)%Q).
    { change (2251799813685248 # 1)%Q with (inject_Z 2251799813685248).
      rewrite <- Zle_Qle. exact Hlarge. }
    assert (H1' : (1 <= inject_Z c)%Q) by lra.
    pose proof (binary64_near (inject_Z c) H1') as Hx.
    fold (to_double c) in Hx. set (x := to_double c) in *.
    change (1 # 2 ^ 53)%Q with (1 # 9007199254740992)%Q in *.
    assert (H2 : (1 <= x * 1.5)%Q) by (change 1.5%Q with (15 # 10)%Q; lra).
    pose proof (binary64_near (x * 1.5)%Q H2) as Hy.
    fold (mul_double x 1.5) in Hy. set (y := mul_double x 1.5) in *.
    change (1 # 2 ^ 53)%Q with (1 # 9007199254740992)%Q in *.
    change 1.5%Q with (15 # 10)%Q in *.
    rewrite <- (Qfloor_Z (Z.succ c)). apply Qfloor_resp_le.
    unfold Z.succ. rewrite inject_Z_plus. change (inject_Z 1) with 1%Q. lra.
Qed.

(** C5.  An element added to a full vector, by [dsc_vector_push_back] or by
    [dsc_vector_insert] at a position within the size, makes the vector grow
    when the allocator serves the block: the new capacity is the old one
    multiplied by 1.5 in [double] and truncated.  The product has to fit
    [unsigned int] in [struct DSCVector] and to pass the check of
    [dsc_vector_resize] in [struct dsc_vector_t].  For [struct DSCVector],
    and for a [struct dsc_vector_t] of a capacity below [2^51], the new
    capacity is the integer part of 1.5 times the old one.  A capacity of 2
    or more becomes larger. *)
Theorem growth_factor
  (c : call) (v1 : DSCVector.DSCVector) (v2 : dsc_vector_t.dsc_vector_t)
  (p : process) :
  adds_to_full c (DSCVector.size v1) (DSCVector.capacity v1) = true ->
  adds_to_full c (dsc_vector_t.size v2) (dsc_vector_t.capacity v2) = true ->
  0 <= DSCVector.capacity v1 ->
  3 * DSCVector.capacity v1 / 2 <= UINT_MAX ->
  0 <= dsc_vector_t.capacity v2 ->
  Qfloor (mul_double (to_double (dsc_vector_t.capacity v2)) 1.5) <= SIZE_MAX / sizeof_int ->
  hd true (allocator p) = true ->
  exists v1' v2',
    snd (fst (DSCVector.perform c (Some v1) p)) = Some v1' /\
    snd (fst (dsc_vector_t.perform c (Some v2) p)) = Some v2' /\
    DSCVector.capacity v1' = Qfloor (inject_Z (DSCVector.capacity v1) * 1.5) /\
    dsc_vector_t.capacity v2' =
      Qfloor (mul_double (to_double (dsc_vector_t.capacity v2)) 1.5) /\
    (dsc_vector_t.capacity v2 < 2 ^ 51 ->
     dsc_vector_t.capacity v2' = Qfloor (inject_Z (dsc_vector_t.capacity v2) * 1.5)) /\
    (2 <= DSCVector.capacity v1 -> DSCVector.capacity v1 < DSCVector.capacity v1') /\
    (2 <= dsc_vector_t.capacity v2 -> dsc_vector_t.capacity v2 < dsc_vector_t.capacity v2').
Proof.
  intros Hfull1 Hfull2 Hcapacity1 Hfits1 Hcapacity2 Hguard2 Hserved.
  destruct (DSCVector_grows c v1 p Hfull1 Hcapacity1 Hfits1 Hserved)
    as (v1' & Hv1 & Hgrown1 & _).
  destruct (dsc_vector_t_grows c v2 p Hfull2 Hcapacity2 Hguard2 Hserved)
    as (v2' & Hv2 & Hgrown2 & _).
  exists v1', v2'. rewrite !growth_floor.
  repeat split; try assumption.
  - intros Hsmall. rewrite Hgrown2. apply growth_exact; lia.
  - intros Htwo. rewrite Hgrown1. arith.
  - intros Htwo. rewrite Hgrown2. apply growth_strict. exact Htwo.
Qed.

Lemma growth_factor_witness :
  let v1 := DSCVector.mkVector (Block [1; 2; 3; 4]) 4 4 in
  let v2 := dsc_vector_t.mkVector (Block [1; 2; 3; 4]) 4 4 in
  let p := mkProcess [] [true; false] false in
  exists v1' v2',
    snd (fst (DSCVector.perform (Insert 2 9) (Some v1) p)) = Some v1' /\
    snd (fst (dsc_vector_t.perform (Insert 2 9) (Some v2) p)) = Some v2' /\
    DSCVector.capacity v1' = Qfloor (inject_Z (DSCVector.capacity v1) * 1.5) /\
    dsc_vector_t.capacity v2' =
      Qfloor (mul_double (to_double (dsc_vector_t.capacity v2)) 1.5) /\
    (dsc_vector_t.capacity v2 < 2 ^ 51 ->
     dsc_vector_t.capacity v2' = Qfloor (inject_Z (dsc_vector_t.capacity v2) * 1.5)) /\
    (2 <= DSCVector.capacity v1 -> DSCVector.capacity v1 < DSCVector.capacity v1') /\
    (2 <= dsc_vector_t.capacity v2 -> dsc_vector_t.capacity v2 < dsc_vector_t.capacity v2').
Proof.
  intros v1 v2 p.
  apply (growth_factor (Insert 2 9) v1 v2 p);
    vm_compute; solve [reflexivity | discriminate].
Defined.

Lemma dsc_vector_t_push_back_rounds (cells : list Z) (capacity grown value : Z) :
  0 <= capacity ->
  Qfloor (mul_double (to_double capacity) 1.5) = grown ->
  grown <= SIZE_MAX / sizeof_int ->
  capacity < grown ->
  grown <> Qfloor (inject_Z capacity * 1.5) ->
  exists v',
    fst (dsc_vector_t.dsc_vector_push_back
           (Some (dsc_vector_t.mkVector (Block cells) capacity capacity)) value
           (mkProcess [] [] false)) = Some v' /\
    capacity < dsc_vector_t.capacity v' /\
    dsc_vector_t.capacity v' = grown /\
    dsc_vector_t.capacity v' <> Qfloor (inject_Z capacity * 1.5).
Proof.
  intros Hcapacity Hproduct Hguard Hlarger Hrounded.
  destruct (dsc_vector_t_grows (PushBack value)
              (dsc_vector_t.mkVector (Block cells) capacity capacity)
              (mkProcess [] [] false))
    as (v' & Hv' & Hgrown & _).
  - cbn [adds_to_full dsc_vector_t.size dsc_vector_t.capacity].
    rewrite Z.geb_leb. apply Z.leb_refl.
  - exact Hcapacity.
  - cbn [dsc_vector_t.capacity]. rewrite Hproduct. exact Hguard.
  - reflexivity.
  - cbn [dsc_vector_t.perform] in Hv'. unfold bind, ret in Hv'.
    destruct (dsc_vector_t.dsc_vector_push_back _ _ _) as [vector' p'].
    cbn [fst snd] in *. exists v'. cbn [dsc_vector_t.capacity] in Hgrown.
    rewrite Hproduct in Hgrown. rewrite Hgrown.
    repeat split; assumption.
Qed.

(** In [struct dsc_vector_t] the product is rounded from a capacity of
    [2^52] on: a full vector of [2^52 + 1] elements grows to a capacity of
    6755399441055746, and the integer part of 1.5 times its capacity is
    6755399441055745. *)
Lemma growth_is_rounded_in_double :
  exists v',
    fst (dsc_vector_t.dsc_vector_push_back
           (Some (dsc_vector_t.mkVector
                    (Block (replicate (Z.to_nat 4503599627370497) 0))
                    4503599627370497 4503599627370497)) 7
           (mkProcess [] [] false)) = Some v' /\
    4503599627370497 < dsc_vector_t.capacity v' /\
    dsc_vector_t.capacity v' = 6755399441055746 /\
    dsc_vector_t.capacity v' <> Qfloor (inject_Z 4503599627370497 * 1.5).
Proof.
  apply dsc_vector_t_push_back_rounds.
  - discriminate.
  - vm_compute. reflexivity.
  - vm_compute. discriminate.
  - reflexivity.
  - vm_compute. discriminate.
Qed.

(** *** The load factor of the hash set *)

Lemma load_le a c :
  0 < c -> (inject_Z a / inject_Z c <= 0.75)%Q <-> 4 * a <= 3 * c.
Proof.
  intros Hc. destruct c as [|c|c]; try lia.
  unfold Qle, Qdiv, Qinv, Qmult, inject_Z. cbn. lia.
Qed.

Lemma load_gt a c :
  0 < c -> (0.75 < inject_Z a / inject_Z c)%Q <-> 3 * c < 4 * a.
Proof.
  intros Hc. destruct c as [|c|c]; try lia.
  unfold Qlt, Qdiv, Qinv, Qmult, inject_Z. cbn. lia.
Qed.

Lemma set_create_ok p set p' :
  dsc_set.dsc_set_create p = (Some set, p') -> table_ok set.
Proof.
  destruct p as [log script ub].
  unfold dsc_set.dsc_set_create, alloc, bind, ret.
  destruct script as [|[] [|[] script]]; cbn; intros [= <- <-];
    split; cbn; unfold dsc_set.DSC_SET_INITIAL_CAPACITY; lia.
Qed.

Lemma set_add_outcome growth_step s value p set' p' :
  2 <= growth_step ->
  table_ok s ->
  dsc_set.dsc_set_add growth_step (Some s) value p = (set', p') ->
  exists s',
    set' = Some s' /\ table_ok s' /\
    (dsc_get_error p' = DSC_ERROR_NONE ->
     dsc_set.size s' = dsc_set.size s + 1 /\
     if Qlt_le_dec dsc_set.DSC_SET_LOAD_FACTOR
                   (inject_Z (dsc_set.size s + 1) / inject_Z (dsc_set.capacity s))
     then dsc_set.capacity s' = dsc_set.capacity s * growth_step /\
          dsc_set.capacity s < dsc_set.capacity s'
     else dsc_set.capacity s' = dsc_set.capacity s).
Proof.
  intros Hstep [Hcapacity Hload].
  destruct p as [log script ub], s as [buckets capacity size error].
  unfold dsc_set.dsc_set_add, dsc_set.dsc_set_rehash, alloc, dsc_set_error, bind, ret.
  cbn [dsc_set.buckets dsc_set.capacity dsc_set.size dsc_set.error] in *.
  unfold table_ok.
  destruct (bool_decide _).
  { intros [= <- <-]. eexists; split; [reflexivity|].
    cbn. split; [lia|discriminate]. }
  destruct (Qlt_le_dec _ _) as [Hover|Hunder].
  - apply load_gt in Hover; [|assumption].
    destruct script as [|[] [|[] script]]; cbn; intros [= <- <-]; cbn;
      (eexists; split; [reflexivity|]); cbn; (split; [nia|]);
      try discriminate; intros _; nia.
  - apply load_le in Hunder; [|assumption].
    destruct script as [|[] script]; cbn; intros [= <- <-]; cbn;
      (eexists; split; [reflexivity|]); cbn; (split; [lia|]);
      try discriminate; intros _; lia.
Qed.

Lemma set_perform_ok growth_step c s p set' p' :
  2 <= growth_step ->
  table_ok s ->
  dsc_set.perform growth_step c (Some s) p = (set', p') ->
  exists s', set' = Some s' /\ table_ok s'.
Proof.
  intros Hstep Hok. destruct c as [value|value|]; cbn.
  - intros Hadd.
    destruct (set_add_outcome _ _ _ _ _ _ Hstep Hok Hadd) as (s' & -> & Hok' & _).
    eauto.
  - destruct Hok as [Hcapacity Hload].
    unfold dsc_set.dsc_set_remove, bind, ret.
    destruct (bool_decide _); cbn; intros [= <- <-];
      (eexists; split; [reflexivity|]); split; cbn; lia.
  - destruct Hok as [Hcapacity Hload].
    unfold dsc_set.dsc_set_clear, bind, ret; cbn; intros [= <- <-].
    eexists; split; [reflexivity|]. split; cbn; lia.
Qed.

Lemma set_run_ok growth_step calls s p set' p' :
  2 <= growth_step ->
  table_ok s ->
  dsc_set.run growth_step calls (Some s) p = (set', p') ->
  exists s', set' = Some s' /\ table_ok s'.
Proof.
  intros Hstep. revert s p.
  induction calls as [|c calls IH]; intros s p Hok; cbn.
  - intros [= <- <-]. eauto.
  - unfold bind.
    destruct (dsc_set.perform growth_step c (Some s) p) as [set1 p1] eqn:Hc.
    destruct (set_perform_ok _ _ _ _ _ _ Hstep Hok Hc) as (s1 & -> & Hok1).
    apply IH. assumption.
Qed.

(** C1.  A set obtained from [dsc_set_create] by any calls of add, remove
    and clear, whatever the allocator answers: when [dsc_set_add] then
    succeeds (NONE is reported), the size is one more and
    [size / capacity <= DSC_SET_LOAD_FACTOR]; and when the load with one
    more entry exceeded the threshold, the table was grown, by
    [growth_step], before the entry was linked.  The growth step of the
    modelled rehash is any integer from 2 on. *)
Theorem set_add_keeps_load_factor
  (growth_step : Z) (calls : list dsc_set.call) (value : Z)
  (p p1 p2 : process) (set set' : dsc_set.dsc_set_t) :
  2 <= growth_step ->
  (s <- dsc_set.dsc_set_create ;; dsc_set.run growth_step calls s) p = (Some set, p1) ->
  dsc_set.dsc_set_add growth_step (Some set) value p1 = (Some set', p2) ->
  dsc_get_error p2 = DSC_ERROR_NONE ->
  (dsc_set.load_factor set' <= dsc_set.DSC_SET_LOAD_FACTOR)%Q /\
  dsc_set.size set' = dsc_set.size set + 1 /\
  ((dsc_set.DSC_SET_LOAD_FACTOR <
      inject_Z (dsc_set.size set + 1) / inject_Z (dsc_set.capacity set))%Q ->
   dsc_set.capacity set' = dsc_set.capacity set * growth_step /\
   dsc_set.capacity set < dsc_set.capacity set').
Proof.
  intros Hstep Hrun Hadd Hnone.
  assert (Hok : table_ok set).
  { unfold bind in Hrun.
    destruct (dsc_set.dsc_set_create p) as [[s0|] p0] eqn:Hcreate.
    - apply set_create_ok in Hcreate.
      destruct (set_run_ok _ _ _ _ _ _ Hstep Hcreate Hrun) as (s' & [= <-] & Hok).
      exact Hok.
    - exfalso. clear -Hrun. revert p0 Hrun.
      induction calls as [|c calls IH]; intros p0; cbn.
      + discriminate.
      + unfold bind.
        assert (Hnull : forall q, fst (dsc_set.perform growth_step c None q) = None)
          by (intros q; destruct c; reflexivity).
        specialize (Hnull p0).
        destruct (dsc_set.perform growth_step c None p0) as [set1 q1].
        cbn in Hnull. subst set1. apply IH. }
  destruct (set_add_outcome _ _ _ _ _ _ Hstep Hok Hadd)
    as (s' & [= <-] & [Hcapacity' Hload'] & Hsuccess).
  destruct (Hsuccess Hnone) as [Hsize Hgrowth].
  split; [|split].
  - unfold dsc_set.load_factor, dsc_set.DSC_SET_LOAD_FACTOR.
    apply load_le; assumption.
  - exact Hsize.
  - intros Hover. destruct (Qlt_le_dec _ _) as [_|Hunder].
    + exact Hgrowth.
    + exfalso. exact (Qlt_not_le _ _ Hover Hunder).
Qed.

Lemma set_add_keeps_load_factor_witness :
  let set := dsc_set.mkSet
               ([[]; [1]; [2]; [3]; [4]; [5]; [6]; [7]; [8]; [9]; [10]; [11]; [12]]
                ++ replicate 3 [])
               16 12 DSC_ERROR_NONE in
  let set' := dsc_set.mkSet
                ([[]; [1]; [2]; [3]; [4]; [5]; [6]; [7]; [8]; [9]; [10]; [11]; [12]]
                 ++ replicate 16 [] ++ [[29]; []; []])
                32 13 DSC_ERROR_NONE in
  (dsc_set.load_factor set' <= dsc_set.DSC_SET_LOAD_FACTOR)%Q /\
  dsc_set.size set' = dsc_set.size set + 1 /\
  ((dsc_set.DSC_SET_LOAD_FACTOR <
      inject_Z (dsc_set.size set + 1) / inject_Z (dsc_set.capacity set))%Q ->
   dsc_set.capacity set' = dsc_set.capacity set * 2 /\
   dsc_set.capacity set < dsc_set.capacity set').
Proof.
  intros set set'.
  apply (set_add_keeps_load_factor 2
           (map dsc_set.Add [1; 2; 3; 4; 5; 6; 7; 8; 9; 10; 11; 12]) 29
           (mkProcess [] [] false)
           (mkProcess (replicate 13 DSC_ERROR_NONE) [] false)
           (mkProcess (replicate 14 DSC_ERROR_NONE) [] false)
           set set');
    [lia | reflexivity | reflexivity | reflexivity].
Defined.

(** *** The two vectors against the sequence *)

Lemma load_block cells i x p :
  0 <= i -> cells !! Z.to_nat i = Some x -> load (Block cells) i p = (x, p).
Proof.
  intros Hi Hx. unfold load. destruct (Z.leb_spec 0 i); [|lia].
  rewrite Hx. reflexivity.
Qed.

Lemma store_block cells i x p :
  0 <= i -> (Z.to_nat i < length cells)%nat ->
  store (Block cells) i x p = (Block (<[Z.to_nat i := x]> cells), p).
Proof.
  intros Hi Hlt. unfold store.
  destruct (Z.leb_spec 0 i); [|lia].
  destruct (Z.ltb_spec i (Z.of_nat (length cells))); [|lia].
  reflexivity.
Qed.

Lemma shift_left_block n i cells p :
  0 <= i -> (Z.to_nat i + n < length cells)%nat ->
  shift_left n i (Block cells) p =
    (Block (take (Z.to_nat i) cells
            ++ take n (drop (S (Z.to_nat i)) cells)
            ++ drop (Z.to_nat i + n) cells), p).
Proof.
  revert i cells. induction n as [|n IH]; intros i cells Hi Hlt.
  - cbn [shift_left]. rewrite take_0, Nat.add_0_r, app_nil_l, take_drop. reflexivity.
  - cbn [shift_left]. unfold bind.
    destruct (lookup_lt_is_Some_2 cells (S (Z.to_nat i))) as [x Hx]; [lia|].
    rewrite (load_block cells (i + 1) x) by (rewrite ?Z2Nat.inj_add; try lia; rewrite Nat.add_1_r; assumption).
    rewrite store_block by lia.
    rewrite IH by (rewrite ?length_insert; lia).
    f_equal. f_equal.
    replace (Z.to_nat (i + 1)) with (S (Z.to_nat i)) by lia.
    rewrite (take_S_r _ _ x) by (apply list_lookup_insert_eq; lia).
    rewrite take_insert_ge by lia.
    rewrite !drop_insert_lt by lia.
    rewrite (drop_S cells x (S (Z.to_nat i))) by assumption.
    cbn [take]. rewrite <- app_assoc. cbn.
    replace (Z.to_nat i + S n)%nat with (S (Z.to_nat i + n)) by lia.
    reflexivity.
Qed.

Lemma shift_right_block n position cells p :
  0 <= position -> (Z.to_nat position + n < length cells)%nat ->
  shift_right n position (Block cells) p =
    (Block (take (S (Z.to_nat position)) cells
            ++ take n (drop (Z.to_nat position) cells)
            ++ drop (S (Z.to_nat position + n)) cells), p).
Proof.
  revert cells. induction n as [|n IH]; intros cells Hposition Hlt.
  - cbn [shift_right]. rewrite take_0, Nat.add_0_r, app_nil_l, take_drop. reflexivity.
  - cbn [shift_right]. unfold bind.
    set (k := Z.to_nat position) in *.
    destruct (lookup_lt_is_Some_2 cells (k + n)) as [x Hx]; [lia|].
    destruct (lookup_lt_is_Some_2 cells (k + S n)) as [y Hy]; [lia|].
    rewrite (load_block cells _ x) by (try lia; replace (Z.to_nat (position + Z.of_nat (S n) - 1)) with (k + n)%nat by lia; assumption).
    rewrite store_block by lia.
    replace (Z.to_nat (position + Z.of_nat (S n))) with (k + S n)%nat by lia.
    rewrite IH by (rewrite ?length_insert; lia).
    f_equal. f_equal.
    rewrite take_insert_ge by lia.
    rewrite (drop_insert_ge _ k) by lia.
    rewrite take_insert_ge by lia.
    rewrite (drop_insert_ge _ (S (k + n))) by lia.
    rewrite (drop_S cells y (S (k + n))) by (rewrite <- Hy; f_equal; lia).
    replace (k + S n - S (k + n))%nat with 0%nat by lia. cbn [insert list_insert].
    rewrite (take_S_r _ n x) by (rewrite lookup_drop; assumption).
    rewrite <- !app_assoc. cbn.
    replace (S (k + S n)) with (S (S (k + n))) by lia.
    reflexivity.
Qed.

(** The cells after an insertion at [k] in a vector of [k + n] elements. *)
Lemma insert_cells (cells : list Z) (k n : nat) (value : Z) :
  (k + n < length cells)%nat ->
  take (S (k + n))
       (<[k := value]> (take (S k) cells ++ take n (drop k cells)
                        ++ drop (S (k + n)) cells)) =
  take k (take (k + n) cells) ++ value :: drop k (take (k + n) cells).
Proof.
  intros Hlt.
  rewrite insert_app_l by (rewrite length_take; lia).
  destruct (lookup_lt_is_Some_2 cells k) as [x Hx]; [lia|].
  rewrite (take_S_r cells k x) by assumption.
  replace (<[k:=value]> (take k cells ++ [x])) with (take k cells ++ [value]).
  2:{ rewrite insert_app_r_alt by (rewrite length_take; lia).
      rewrite length_take_le by lia.
      replace (k - k)%nat with 0%nat by lia. reflexivity. }
  rewrite <- app_assoc. cbn.
  rewrite take_app_ge by (rewrite length_take; lia).
  rewrite length_take_le by lia.
  replace (S (k + n) - k)%nat with (S n) by lia. cbn.
  rewrite take_app_le by (rewrite length_take, length_drop; lia).
  rewrite take_take, Nat.min_id.
  rewrite take_take, Nat.min_l by lia.
  rewrite take_drop_commute. reflexivity.
Qed.

(** The cells after an erasure at [k] in a vector of [k + n + 1] elements. *)
Lemma erase_cells (cells : list Z) (k n : nat) :
  (k + n < length cells)%nat ->
  take (k + n)
       (take k cells ++ take n (drop (S k) cells) ++ drop (k + n) cells) =
  take k (take (S (k + n)) cells) ++ drop (S k) (take (S (k + n)) cells).
Proof.
  intros Hlt.
  rewrite app_assoc, take_app_le by (rewrite length_app, !length_take, length_drop; lia).
  rewrite take_ge by (rewrite length_app, !length_take, length_drop; lia).
  rewrite take_take, Nat.min_l by lia.
  rewrite (take_drop_commute cells n (S k)). reflexivity.
Qed.

Lemma take_S_insert (cells : list Z) (n : nat) (x : Z) :
  (n < length cells)%nat -> take (S n) (<[n := x]> cells) = take n cells ++ [x].
Proof.
  intros Hlt. rewrite (take_S_r _ _ x) by (apply list_lookup_insert_eq; lia).
  rewrite take_insert_ge by lia. reflexivity.
Qed.

Lemma alloc_served p : allocator p = [] -> alloc p = (true, p).
Proof. intros Hp. unfold alloc. rewrite Hp. reflexivity. Qed.

Lemma models_length values size capacity s :
  Sequence.models values size capacity s ->
  exists cells,
    values = Block cells /\
    capacity = Z.of_nat (length cells) /\
    size = Z.of_nat (length (Sequence.elements s)) /\
    Sequence.capacity s = Z.of_nat (length cells) /\
    take (length (Sequence.elements s)) cells = Sequence.elements s /\
    (length (Sequence.elements s) <= length cells)%nat /\
    2 <= Z.of_nat (length cells) <= UINT_MAX.
Proof.
  intros (cells & -> & Hlength & Hcapacity & -> & Htake & Hrange).
  exists cells. subst capacity.
  assert (Hle := f_equal length Htake). rewrite length_take in Hle.
  repeat split; try lia; auto.
Qed.

Lemma DSCVector_resize_served cells size capacity m p :
  Z.of_nat (length cells) <= m ->
  allocator p = [] ->
  exists cells',
    DSCVector.dsc_vector_resize (DSCVector.mkVector (Block cells) size capacity) m p =
      (true, DSCVector.mkVector (Block cells') size m, p) /\
    length cells' = Z.to_nat m /\
    take (length cells) cells' = cells.
Proof.
  intros Hm Hp.
  unfold DSCVector.dsc_vector_resize, realloc, bind, ret. cbn [DSCVector.values DSCVector.size].
  rewrite (alloc_served p Hp).
  replace (m * sizeof_int / sizeof_int) with m by (unfold sizeof_int; rewrite Z.div_mul; lia).
  eexists. split; [reflexivity|]. split.
  - rewrite length_take, length_app, length_replicate. lia.
  - rewrite take_take, Nat.min_l by lia. apply take_app_length.
Qed.

Ltac projections :=
  cbn [DSCVector.values DSCVector.size DSCVector.capacity
       dsc_vector_t.values dsc_vector_t.size dsc_vector_t.capacity
       Sequence.elements Sequence.capacity fst snd] in *.

Lemma DSCVector_room v s p :
  Sequence.models (DSCVector.values v) (DSCVector.size v) (DSCVector.capacity v) s ->
  Sequence.grown s <= UINT_MAX ->
  allocator p = [] ->
  exists cells',
    (if DSCVector.size v >=? DSCVector.capacity v then
       new_capacity <- DSCVector.double_to_uint
                         (mul_double (to_double (DSCVector.capacity v)) 1.5) ;;
       DSCVector.dsc_vector_resize v new_capacity
     else ret (true, v)) p =
      (true, DSCVector.mkVector (Block cells') (DSCVector.size v) (Sequence.grown s), p) /\
    Z.of_nat (length cells') = Sequence.grown s /\
    take (length (Sequence.elements s)) cells' = Sequence.elements s /\
    (length (Sequence.elements s) < length cells')%nat.
Proof.
  intros Hmodels Hfits Hp.
  destruct (models_length _ _ _ _ Hmodels)
    as (cells & Hvalues & Hcapacity & Hsize & Hcap & Htake & Hle & Hrange).
  destruct v as [values size capacity], s as [l cap]. projections. subst.
  unfold Sequence.grown, Sequence.length_of in *. projections.
  rewrite growth_floor in *. rewrite Z.geb_leb in *.
  destruct (Z.leb_spec (Z.of_nat (length cells)) (Z.of_nat (length l))).
  - unfold bind, DSCVector.double_to_uint. rewrite growth_exact by arith.
    destruct (Z.leb_spec (3 * Z.of_nat (length cells) / 2) UINT_MAX); [|lia].
    unfold ret at 1.
    destruct (DSCVector_resize_served cells (Z.of_nat (length l)) (Z.of_nat (length cells))
                (3 * Z.of_nat (length cells) / 2) p)
      as (cells' & -> & Hlength & Htake'); [arith|assumption|].
    exists cells'. split; [reflexivity|].
    assert (Hfull : length l = length cells) by lia.
    split; [arith|]. split; [|arith].
    rewrite Hfull, Htake'. rewrite <- Htake, Hfull.
    rewrite take_ge by lia. reflexivity.
  - exists cells. split; [reflexivity|]. repeat split; try lia. assumption.
Qed.

Lemma uint_small z : 0 <= z <= UINT_MAX -> DSCVector.uint z = z.
Proof. intros Hz. unfold DSCVector.uint. apply Z.mod_small. unfold UINT_MAX in *. lia. Qed.

Lemma take_prefix (cells l : list Z) (m n : nat) :
  take m cells = l -> (n <= m)%nat -> take n cells = take n l.
Proof. intros <- Hn. rewrite take_take, Nat.min_l by lia. reflexivity. Qed.

Lemma models_intro cells l cap :
  Z.of_nat (length cells) = cap ->
  take (length l) cells = l ->
  2 <= cap <= UINT_MAX ->
  Sequence.models (Block cells) (Z.of_nat (length l)) cap (Sequence.mk l cap).
Proof. intros Hlength Htake Hrange. exists cells. repeat split; auto; lia. Qed.

Lemma DSCVector_refines c v s p :
  Sequence.models (DSCVector.values v) (DSCVector.size v) (DSCVector.capacity v) s ->
  Sequence.fits c s = true ->
  allocator p = [] ->
  exists v',
    DSCVector.perform c (Some v) p =
      (fst (fst (Sequence.step c s)), Some v',
       {| error_log := snd (Sequence.step c s) ++ error_log p;
          allocator := allocator p;
          undefined := undefined p |}) /\
    Sequence.models (DSCVector.values v') (DSCVector.size v') (DSCVector.capacity v')
                    (snd (fst (Sequence.step c s))).
Proof.
  intros Hmodels Hfits Hp.
  destruct (models_length _ _ _ _ Hmodels)
    as (cells & Hvalues & Hcapacity & Hsize & Hcap & Htake & Hle & Hrange).
  destruct c as [value| |position value|position|index| | | |new_capacity];
    cbn [Sequence.fits] in Hfits.
  - (* push_back *)
    apply Z.leb_le in Hfits.
    destruct (DSCVector_room v s p Hmodels Hfits Hp)
      as (cells' & Hroom & Hlength & Htake' & Hlt).
    unfold DSCVector.perform, DSCVector.dsc_vector_push_back, bind in *.
    rewrite Hroom. cbn [negb]. projections. rewrite Hsize.
    rewrite store_block by lia.
    unfold dsc_set_error, ret. rewrite Nat2Z.id.
    eexists. split; [reflexivity|].
    destruct s as [l cap]. projections. cbn [Sequence.step]. projections.
    rewrite uint_small by lia.
    replace (Z.of_nat (length l) + 1) with (Z.of_nat (length (l ++ [value])))
      by (rewrite length_app; cbn; lia).
    apply models_intro.
    + rewrite length_insert. assumption.
    + rewrite length_app. cbn [length]. rewrite Nat.add_1_r.
      rewrite take_S_insert by lia. rewrite Htake'. reflexivity.
    + unfold Sequence.grown, Sequence.length_of in *. projections.
      rewrite growth_floor in *. tests; arith.
  - (* pop_back *)
    destruct v as [values size capacity], s as [l cap]. projections. subst.
    unfold DSCVector.perform, DSCVector.dsc_vector_pop_back, DSCVector.dsc_vector_empty,
      bind, ret, dsc_set_error. projections.
    cbn [Sequence.step]. unfold Sequence.length_of. projections.
    destruct (Z.eqb_spec (Z.of_nat (length l)) 0) as [Hempty|Hsome].
    + eexists. split; [reflexivity|]. assumption.
    + eexists. split; [reflexivity|]. projections.
      rewrite uint_small by lia.
      replace (Z.of_nat (length l) - 1) with (Z.of_nat (length (take (length l - 1) l)))
        by (rewrite length_take; lia).
      apply models_intro; [reflexivity| |lia].
      rewrite length_take, Nat.min_l by lia.
      apply (take_prefix cells l (length l)); [assumption|lia].
  - (* insert *)
    apply andb_true_iff in Hfits as [Hfits Hgrown].
    apply andb_true_iff in Hfits as [Hlow Hhigh].
    apply Z.leb_le in Hgrown, Hlow, Hhigh.
    destruct (DSCVector_room v s p Hmodels Hgrown Hp)
      as (cells' & Hroom & Hlength & Htake' & Hlt).
    unfold DSCVector.perform, DSCVector.dsc_vector_insert, bind in *.
    destruct s as [l cap]. cbn [Sequence.step]. unfold Sequence.length_of in *.
    projections. rewrite Hsize in *. rewrite Z.gtb_ltb.
    destruct (Z.ltb_spec (Z.of_nat (length l)) position) as [Hbeyond|Hwithin].
    + unfold dsc_set_error, ret. eexists. split; [reflexivity|].
      projections. rewrite Hsize. assumption.
    + rewrite Hroom. cbn [negb]. projections.
      rewrite shift_right_block by lia.
      rewrite store_block by (rewrite ?length_app, ?length_take, ?length_drop; lia).
      unfold dsc_set_error, ret.
      eexists. split; [reflexivity|]. projections.
      rewrite uint_small by lia.
      set (k := Z.to_nat position) in *.
      set (n := Z.to_nat (Z.of_nat (length l) - position)) in *.
      assert (Hkn : length l = (k + n)%nat) by lia.
      replace (Z.of_nat (length l) + 1)
        with (Z.of_nat (length (take k l ++ value :: drop k l)))
        by (rewrite length_app, length_take; cbn [length]; rewrite length_drop; lia).
      apply models_intro.
      * rewrite length_insert, !length_app, !length_take, !length_drop. lia.
      * rewrite length_app, length_take. cbn [length]. rewrite length_drop.
        replace (k `min` length l + S (length l - k))%nat with (S (k + n)) by lia.
        rewrite insert_cells by lia.
        rewrite <- Hkn, Htake'. reflexivity.
      * unfold Sequence.grown, Sequence.length_of in *. projections.
        rewrite growth_floor in *. tests; arith.
  - (* erase *)
    apply andb_true_iff in Hfits as [Hlow Hhigh].
    apply Z.leb_le in Hlow, Hhigh.
    destruct v as [values size capacity], s as [l cap]. projections. subst.
    unfold DSCVector.perform, DSCVector.dsc_vector_erase, bind, ret, dsc_set_error.
    cbn [Sequence.step]. unfold Sequence.length_of. projections.
    rewrite Z.geb_leb.
    destruct (Z.leb_spec (Z.of_nat (length l)) position) as [Hbeyond|Hwithin].
    + eexists. split; [reflexivity|]. assumption.
    + rewrite uint_small by lia.
      rewrite shift_left_block by lia.
      eexists. split; [reflexivity|]. projections.
      set (k := Z.to_nat position) in *.
      set (n := Z.to_nat (Z.of_nat (length l) - 1 - position)) in *.
      assert (Hkn : length l = S (k + n)) by lia.
      replace (Z.of_nat (length l) - 1)
        with (Z.of_nat (length (take k l ++ drop (S k) l)))
        by (rewrite length_app, length_take, length_drop; lia).
      apply models_intro.
      * rewrite !length_app, !length_take, !length_drop. lia.
      * rewrite length_app, length_take, length_drop.
        replace (k `min` length l + (length l - S k))%nat with (k + n)%nat by lia.
        rewrite erase_cells by lia.
        rewrite <- Hkn, Htake. reflexivity.
      * lia.
  - (* at *)
    apply andb_true_iff in Hfits as [Hlow Hhigh].
    apply Z.leb_le in Hlow, Hhigh.
    destruct v as [values size capacity], s as [l cap]. projections. subst.
    unfold DSCVector.perform, DSCVector.dsc_vector_at, bind, ret, dsc_set_error.
    cbn [Sequence.step]. unfold Sequence.length_of. projections.
    rewrite Z.geb_leb.
    destruct (Z.leb_spec (Z.of_nat (length l)) index) as [Hbeyond|Hwithin].
    + eexists. split; [reflexivity|]. assumption.
    + destruct (lookup_lt_is_Some_2 l (Z.to_nat index)) as [x Hx]; [lia|].
      rewrite (load_block cells index x).
      * rewrite Hx. eexists. split; [reflexivity|]. assumption.
      * lia.
      * rewrite <- Htake in Hx. rewrite lookup_take_lt in Hx by lia. assumption.
  - (* empty *)
    destruct v as [values size capacity], s as [l cap]. projections. subst.
    eexists. split; [reflexivity|]. assumption.
  - (* size *)
    apply Z.leb_le in Hfits.
    destruct v as [values size capacity], s as [l cap]. projections. subst.
    unfold DSCVector.perform, DSCVector.dsc_vector_size, bind, ret, dsc_set_error,
      DSCVector.to_int.
    cbn [Sequence.step] in *. unfold Sequence.length_of in *. projections.
    destruct (Z.leb_spec (Z.of_nat (length l)) INT_MAX); [|lia].
    eexists. split; [reflexivity|]. assumption.
  - (* capacity *)
    destruct v as [values size capacity], s as [l cap]. projections. subst.
    eexists. split; [reflexivity|]. assumption.
  - (* reserve *)
    apply andb_true_iff in Hfits as [Hlow Hhigh].
    apply Z.leb_le in Hlow, Hhigh.
    destruct v as [values size capacity], s as [l cap]. projections. subst.
    unfold DSCVector.perform, DSCVector.dsc_vector_reserve, bind, ret, dsc_set_error.
    cbn [Sequence.step]. projections.
    destruct (Z.leb_spec new_capacity (Z.of_nat (length cells))) as [Hsmall|Hlarger].
    + eexists. split; [reflexivity|]. assumption.
    + destruct (DSCVector_resize_served cells (Z.of_nat (length l)) (Z.of_nat (length cells))
                  new_capacity p) as (cells' & -> & Hlength & Htake'); [lia|assumption|].
      cbn [negb]. eexists. split; [reflexivity|]. projections.
      apply models_intro; [lia| |lia].
      rewrite <- Htake at 2.
      apply (take_prefix cells' cells (length cells)); [assumption|lia].
Qed.

Lemma usize_small z : 0 <= z <= SIZE_MAX -> dsc_vector_t.usize z = z.
Proof. intros Hz. unfold dsc_vector_t.usize. apply Z.mod_small. unfold SIZE_MAX in *. lia. Qed.

Lemma dsc_vector_t_resize_served cells size capacity m p :
  0 <= size ->
  (Z.to_nat size <= length cells)%nat ->
  size <= m <= UINT_MAX ->
  allocator p = [] ->
  exists cells',
    dsc_vector_t.dsc_vector_resize (dsc_vector_t.mkVector (Block cells) size capacity) m p =
      (dsc_vector_t.mkVector (Block cells') size m, p) /\
    length cells' = Z.to_nat m /\
    take (Z.to_nat size) cells' = take (Z.to_nat size) cells.
Proof.
  intros Hsize Hle Hm Hp.
  unfold dsc_vector_t.dsc_vector_resize. rewrite Z.gtb_ltb.
  destruct (Z.ltb_spec (SIZE_MAX / sizeof_int) m); [arith|].
  unfold malloc, bind, ret. rewrite (alloc_served p Hp).
  replace (m * sizeof_int / sizeof_int) with m by (unfold sizeof_int; rewrite Z.div_mul; lia).
  projections. unfold is_null, memcpy, free, fresh, ret. cbn [negb].
  rewrite usize_small by arith.
  replace (size * sizeof_int / sizeof_int) with size by (unfold sizeof_int; rewrite Z.div_mul; lia).
  rewrite length_replicate.
  destruct (Nat.leb_spec (Z.to_nat size) (Z.to_nat m)); [|lia].
  destruct (Nat.leb_spec (Z.to_nat size) (length cells)); [|lia].
  cbn [andb]. eexists. split; [reflexivity|]. split.
  - rewrite length_app, length_take, length_drop, length_replicate. lia.
  - rewrite take_app_le by (rewrite length_take; lia).
    rewrite take_take, Nat.min_id. reflexivity.
Qed.

Lemma dsc_vector_t_room v s p :
  Sequence.models (dsc_vector_t.values v) (dsc_vector_t.size v) (dsc_vector_t.capacity v) s ->
  Sequence.grown s <= UINT_MAX ->
  allocator p = [] ->
  exists cells',
    (if dsc_vector_t.size v >=? dsc_vector_t.capacity v then
       new_capacity <- dsc_vector_t.double_to_size
                         (mul_double (to_double (dsc_vector_t.capacity v)) 1.5) ;;
       v <- dsc_vector_t.dsc_vector_resize v new_capacity ;;
       null <- is_null (dsc_vector_t.values v) ;;
       if null then
         dsc_set_error DSC_ERROR_OUT_OF_MEMORY ;;
         ret (false, v)
       else ret (true, v)
     else ret (true, v)) p =
      (true, dsc_vector_t.mkVector (Block cells') (dsc_vector_t.size v) (Sequence.grown s), p) /\
    Z.of_nat (length cells') = Sequence.grown s /\
    take (length (Sequence.elements s)) cells' = Sequence.elements s /\
    (length (Sequence.elements s) < length cells')%nat.
Proof.
  intros Hmodels Hfits Hp.
  destruct (models_length _ _ _ _ Hmodels)
    as (cells & Hvalues & Hcapacity & Hsize & Hcap & Htake & Hle & Hrange).
  destruct v as [values size capacity], s as [l cap]. projections. subst.
  unfold Sequence.grown, Sequence.length_of in *. projections.
  rewrite growth_floor in *. rewrite Z.geb_leb in *.
  destruct (Z.leb_spec (Z.of_nat (length cells)) (Z.of_nat (length l))).
  - unfold bind, dsc_vector_t.double_to_size. rewrite growth_exact by arith.
    destruct (Z.leb_spec (3 * Z.of_nat (length cells) / 2) SIZE_MAX); [|arith].
    unfold ret at 1.
    destruct (dsc_vector_t_resize_served cells (Z.of_nat (length l)) (Z.of_nat (length cells))
                (3 * Z.of_nat (length cells) / 2) p)
      as (cells' & -> & Hlength & Htake'); [lia|lia|arith|assumption|].
    projections. unfold is_null, ret.
    exists cells'. split; [reflexivity|].
    split; [arith|]. split; [|arith].
    rewrite Nat2Z.id in Htake'. rewrite Htake'. assumption.
  - exists cells. split; [reflexivity|]. repeat split; try lia. assumption.
Qed.

Lemma dsc_vector_t_refines c v s p :
  Sequence.models (dsc_vector_t.values v) (dsc_vector_t.size v) (dsc_vector_t.capacity v) s ->
  Sequence.fits c s = true ->
  allocator p = [] ->
  exists v',
    dsc_vector_t.perform c (Some v) p =
      (fst (fst (Sequence.step c s)), Some v',
       {| error_log := snd (Sequence.step c s) ++ error_log p;
          allocator := allocator p;
          undefined := undefined p |}) /\
    Sequence.models (dsc_vector_t.values v') (dsc_vector_t.size v') (dsc_vector_t.capacity v')
                    (snd (fst (Sequence.step c s))).
Proof.
  intros Hmodels Hfits Hp.
  destruct (models_length _ _ _ _ Hmodels)
    as (cells & Hvalues & Hcapacity & Hsize & Hcap & Htake & Hle & Hrange).
  destruct c as [value| |position value|position|index| | | |new_capacity];
    cbn [Sequence.fits] in Hfits.
  - (* push_back *)
    apply Z.leb_le in Hfits.
    destruct (dsc_vector_t_room v s p Hmodels Hfits Hp)
      as (cells' & Hroom & Hlength & Htake' & Hlt).
    unfold dsc_vector_t.perform, dsc_vector_t.dsc_vector_push_back, bind in *.
    rewrite Hroom. cbn [negb]. projections. rewrite Hsize.
    rewrite store_block by lia.
    unfold dsc_set_error, ret. rewrite Nat2Z.id.
    eexists. split; [reflexivity|].
    destruct s as [l cap]. projections. cbn [Sequence.step]. projections.
    rewrite usize_small by arith.
    replace (Z.of_nat (length l) + 1) with (Z.of_nat (length (l ++ [value])))
      by (rewrite length_app; cbn; lia).
    apply models_intro.
    + rewrite length_insert. assumption.
    + rewrite length_app. cbn [length]. rewrite Nat.add_1_r.
      rewrite take_S_insert by lia. rewrite Htake'. reflexivity.
    + unfold Sequence.grown, Sequence.length_of in *. projections.
      rewrite growth_floor in *. tests; arith.
  - (* pop_back *)
    destruct v as [values size capacity], s as [l cap]. projections. subst.
    unfold dsc_vector_t.perform, dsc_vector_t.dsc_vector_pop_back, dsc_vector_t.dsc_vector_empty,
      bind, ret, dsc_set_error. projections.
    cbn [Sequence.step]. unfold Sequence.length_of. projections.
    destruct (Z.eqb_spec (Z.of_nat (length l)) 0) as [Hempty|Hsome].
    + eexists. split; [reflexivity|]. assumption.
    + eexists. split; [reflexivity|]. projections.
      rewrite usize_small by arith.
      replace (Z.of_nat (length l) - 1) with (Z.of_nat (length (take (length l - 1) l)))
        by (rewrite length_take; lia).
      apply models_intro; [reflexivity| |lia].
      rewrite length_take, Nat.min_l by lia.
      apply (take_prefix cells l (length l)); [assumption|lia].
  - (* insert *)
    apply andb_true_iff in Hfits as [Hfits Hgrown].
    apply andb_true_iff in Hfits as [Hlow Hhigh].
    apply Z.leb_le in Hgrown, Hlow, Hhigh.
    destruct (dsc_vector_t_room v s p Hmodels Hgrown Hp)
      as (cells' & Hroom & Hlength & Htake' & Hlt).
    unfold dsc_vector_t.perform, dsc_vector_t.dsc_vector_insert, bind in *.
    destruct s as [l cap]. cbn [Sequence.step]. unfold Sequence.length_of in *.
    projections. rewrite Hsize in *. rewrite !Z.gtb_ltb.
    destruct (Z.ltb_spec position 0); [lia|]. cbn [orb].
    destruct (Z.ltb_spec (Z.of_nat (length l)) position) as [Hbeyond|Hwithin].
    + unfold dsc_set_error, ret. eexists. split; [reflexivity|].
      projections. rewrite Hsize. assumption.
    + rewrite Hroom. cbn [negb]. projections.
      rewrite shift_right_block by lia.
      rewrite store_block by (rewrite ?length_app, ?length_take, ?length_drop; lia).
      unfold dsc_set_error, ret.
      eexists. split; [reflexivity|]. projections.
      rewrite usize_small by arith.
      set (k := Z.to_nat position) in *.
      set (n := Z.to_nat (Z.of_nat (length l) - position)) in *.
      assert (Hkn : length l = (k + n)%nat) by lia.
      replace (Z.of_nat (length l) + 1)
        with (Z.of_nat (length (take k l ++ value :: drop k l)))
        by (rewrite length_app, length_take; cbn [length]; rewrite length_drop; lia).
      apply models_intro.
      * rewrite length_insert, !length_app, !length_take, !length_drop. lia.
      * rewrite length_app, length_take. cbn [length]. rewrite length_drop.
        replace (k `min` length l + S (length l - k))%nat with (S (k + n)) by lia.
        rewrite insert_cells by lia.
        rewrite <- Hkn, Htake'. reflexivity.
      * unfold Sequence.grown, Sequence.length_of in *. projections.
        rewrite growth_floor in *. tests; arith.
  - (* erase *)
    apply andb_true_iff in Hfits as [Hlow Hhigh].
    apply Z.leb_le in Hlow, Hhigh.
    destruct v as [values size capacity], s as [l cap]. projections. subst.
    unfold dsc_vector_t.perform, dsc_vector_t.dsc_vector_erase, bind, ret, dsc_set_error.
    cbn [Sequence.step]. unfold Sequence.length_of. projections.
    rewrite !Z.geb_leb.
    destruct (Z.ltb_spec position 0); [lia|]. cbn [orb].
    destruct (Z.leb_spec (Z.of_nat (length l)) position) as [Hbeyond|Hwithin].
    + eexists. split; [reflexivity|]. assumption.
    + rewrite usize_small by arith.
      rewrite shift_left_block by lia.
      eexists. split; [reflexivity|]. projections.
      set (k := Z.to_nat position) in *.
      set (n := Z.to_nat (Z.of_nat (length l) - 1 - position)) in *.
      assert (Hkn : length l = S (k + n)) by lia.
      replace (Z.of_nat (length l) - 1)
        with (Z.of_nat (length (take k l ++ drop (S k) l)))
        by (rewrite length_app, length_take, length_drop; lia).
      apply models_intro.
      * rewrite !length_app, !length_take, !length_drop. lia.
      * rewrite length_app, length_take, length_drop.
        replace (k `min` length l + (length l - S k))%nat with (k + n)%nat by lia.
        rewrite erase_cells by lia.
        rewrite <- Hkn, Htake. reflexivity.
      * lia.
  - (* at *)
    apply andb_true_iff in Hfits as [Hlow Hhigh].
    apply Z.leb_le in Hlow, Hhigh.
    destruct v as [values size capacity], s as [l cap]. projections. subst.
    unfold dsc_vector_t.perform, dsc_vector_t.dsc_vector_at, bind, ret, dsc_set_error.
    cbn [Sequence.step]. unfold Sequence.length_of. projections.
    rewrite !Z.geb_leb.
    destruct (Z.ltb_spec index 0); [lia|]. cbn [orb].
    destruct (Z.leb_spec (Z.of_nat (length l)) index) as [Hbeyond|Hwithin].
    + eexists. split; [reflexivity|]. assumption.
    + destruct (lookup_lt_is_Some_2 l (Z.to_nat index)) as [x Hx]; [lia|].
      rewrite (load_block cells index x).
      * rewrite Hx. eexists. split; [reflexivity|]. assumption.
      * lia.
      * rewrite <- Htake in Hx. rewrite lookup_take_lt in Hx by lia. assumption.
  - (* empty *)
    destruct v as [values size capacity], s as [l cap]. projections. subst.
    eexists. split; [reflexivity|]. assumption.
  - (* size *)
    apply Z.leb_le in Hfits.
    destruct v as [values size capacity], s as [l cap]. projections. subst.
    eexists. split; [reflexivity|]. assumption.
  - (* capacity *)
    destruct v as [values size capacity], s as [l cap]. projections. subst.
    eexists. split; [reflexivity|]. assumption.
  - (* reserve *)
    apply andb_true_iff in Hfits as [Hlow Hhigh].
    apply Z.leb_le in Hlow, Hhigh.
    destruct v as [values size capacity], s as [l cap]. projections. subst.
    unfold dsc_vector_t.perform, dsc_vector_t.dsc_vector_reserve, bind, ret, dsc_set_error.
    cbn [Sequence.step]. projections.
    destruct (Z.leb_spec new_capacity (Z.of_nat (length cells))) as [Hsmall|Hlarger].
    + eexists. split; [reflexivity|]. assumption.
    + destruct (dsc_vector_t_resize_served cells (Z.of_nat (length l)) (Z.of_nat (length cells))
                  new_capacity p) as (cells' & -> & Hlength & Htake'); [lia|lia|lia|assumption|].
      projections. unfold is_null, ret.
      eexists. split; [reflexivity|]. projections.
      apply models_intro; [lia| |lia].
      rewrite Nat2Z.id in Htake'. rewrite Htake'. assumption.
Qed.

Lemma DSCVector_run_refines calls v s p :
  Sequence.models (DSCVector.values v) (DSCVector.size v) (DSCVector.capacity v) s ->
  Sequence.within_unsigned_int calls s = true ->
  allocator p = [] ->
  exists v',
    DSCVector.run calls (Some v) p =
      (fst (fst (Sequence.run calls s)), Some v',
       {| error_log := snd (Sequence.run calls s) ++ error_log p;
          allocator := allocator p;
          undefined := undefined p |}) /\
    Sequence.models (DSCVector.values v') (DSCVector.size v') (DSCVector.capacity v')
                    (snd (fst (Sequence.run calls s))).
Proof.
  revert v s p. induction calls as [|c calls IH]; intros v s p Hmodels Hwithin Hp.
  - exists v. split; [|assumption]. destruct p; reflexivity.
  - cbn [Sequence.within_unsigned_int] in Hwithin.
    apply andb_true_iff in Hwithin as [Hfits Hwithin].
    destruct (DSCVector_refines c v s p Hmodels Hfits Hp) as (v1 & Hc & Hmodels1).
    cbn [DSCVector.run Sequence.run]. unfold bind. rewrite Hc.
    destruct (Sequence.step c s) as [[a s1] written]. projections.
    destruct (IH v1 s1 {| error_log := written ++ error_log p;
                          allocator := allocator p;
                          undefined := undefined p |} Hmodels1 Hwithin Hp)
      as (v' & Hrun & Hmodels').
    rewrite Hrun.
    destruct (Sequence.run calls s1) as [[answers s2] log]. projections.
    exists v'. split; [|assumption].
    unfold ret. cbn [error_log allocator undefined]. rewrite <- app_assoc. reflexivity.
Qed.

Lemma dsc_vector_t_run_refines calls v s p :
  Sequence.models (dsc_vector_t.values v) (dsc_vector_t.size v) (dsc_vector_t.capacity v) s ->
  Sequence.within_unsigned_int calls s = true ->
  allocator p = [] ->
  exists v',
    dsc_vector_t.run calls (Some v) p =
      (fst (fst (Sequence.run calls s)), Some v',
       {| error_log := snd (Sequence.run calls s) ++ error_log p;
          allocator := allocator p;
          undefined := undefined p |}) /\
    Sequence.models (dsc_vector_t.values v') (dsc_vector_t.size v') (dsc_vector_t.capacity v')
                    (snd (fst (Sequence.run calls s))).
Proof.
  revert v s p. induction calls as [|c calls IH]; intros v s p Hmodels Hwithin Hp.
  - exists v. split; [|assumption]. destruct p; reflexivity.
  - cbn [Sequence.within_unsigned_int] in Hwithin.
    apply andb_true_iff in Hwithin as [Hfits Hwithin].
    destruct (dsc_vector_t_refines c v s p Hmodels Hfits Hp) as (v1 & Hc & Hmodels1).
    cbn [dsc_vector_t.run Sequence.run]. unfold bind. rewrite Hc.
    destruct (Sequence.step c s) as [[a s1] written]. projections.
    destruct (IH v1 s1 {| error_log := written ++ error_log p;
                          allocator := allocator p;
                          undefined := undefined p |} Hmodels1 Hwithin Hp)
      as (v' & Hrun & Hmodels').
    rewrite Hrun.
    destruct (Sequence.run calls s1) as [[answers s2] log]. projections.
    exists v'. split; [|assumption].
    unfold ret. cbn [error_log allocator undefined]. rewrite <- app_assoc. reflexivity.
Qed.

Lemma models_stored values size capacity s :
  Sequence.models values size capacity s ->
  stored values size = Sequence.elements s /\
  size = Sequence.length_of s /\
  capacity = Sequence.capacity s.
Proof.
  intros (cells & -> & Hlength & Hcapacity & -> & Htake & Hrange).
  unfold stored, Sequence.length_of. rewrite Nat2Z.id. auto.
Qed.

Lemma null_handle_runs calls p :
  exists p',
    DSCVector.run calls None p = (map (null_answer (-1)) calls, None, p') /\
    dsc_vector_t.run calls None p = (map (null_answer 0) calls, None, p').
Proof.
  revert p. induction calls as [|c calls IH]; intros p.
  - exists p. split; reflexivity.
  - destruct (IH (reports DSC_ERROR_INVALID_ARGUMENT p)) as (p' & H1 & H2).
    exists p'. cbn [DSCVector.run dsc_vector_t.run map]. unfold bind.
    assert (Hc1 : DSCVector.perform c None p =
                  (null_answer (-1) c, None, reports DSC_ERROR_INVALID_ARGUMENT p))
      by (destruct c; reflexivity).
    assert (Hc2 : dsc_vector_t.perform c None p =
                  (null_answer 0 c, None, reports DSC_ERROR_INVALID_ARGUMENT p))
      by (destruct c; reflexivity).
    rewrite Hc1, Hc2. projections. rewrite H1, H2. split; reflexivity.
Qed.

(** C8, as the code has it.  On every sequence of calls the two
    implementations return the same values, leave the same process (error
    slot included) and hold the same elements, with the same size and
    capacity, when they start from vectors that hold the same sequence with
    the same capacity (2 at least), no allocation fails, and arguments,
    sizes and capacities keep within [unsigned int] (the size within [int]
    where [dsc_vector_size] is called).  On a null handle they agree too,
    but for [dsc_vector_size], which returns -1 in [struct DSCVector] and 0
    in [struct dsc_vector_t]. *)
Theorem vectors_agree
  (calls : list call) (v1 : DSCVector.DSCVector) (v2 : dsc_vector_t.dsc_vector_t)
  (s : Sequence.t) (p : process) :
  Sequence.models (DSCVector.values v1) (DSCVector.size v1) (DSCVector.capacity v1) s ->
  Sequence.models (dsc_vector_t.values v2) (dsc_vector_t.size v2) (dsc_vector_t.capacity v2) s ->
  Sequence.within_unsigned_int calls s = true ->
  allocator p = [] ->
  (exists answers v1' v2' p',
     DSCVector.run calls (Some v1) p = (answers, Some v1', p') /\
     dsc_vector_t.run calls (Some v2) p = (answers, Some v2', p') /\
     undefined p' = undefined p /\
     DSCVector.contents v1' = dsc_vector_t.contents v2' /\
     DSCVector.size v1' = dsc_vector_t.size v2' /\
     DSCVector.capacity v1' = dsc_vector_t.capacity v2') /\
  (exists p',
     DSCVector.run calls None p = (map (null_answer (-1)) calls, None, p') /\
     dsc_vector_t.run calls None p = (map (null_answer 0) calls, None, p')).
Proof.
  intros Hmodels1 Hmodels2 Hwithin Hp. split; [|apply null_handle_runs].
  destruct (DSCVector_run_refines calls v1 s p Hmodels1 Hwithin Hp)
    as (v1' & Hrun1 & Hmodels1').
  destruct (dsc_vector_t_run_refines calls v2 s p Hmodels2 Hwithin Hp)
    as (v2' & Hrun2 & Hmodels2').
  apply models_stored in Hmodels1' as (Hstored1 & Hsize1 & Hcapacity1).
  apply models_stored in Hmodels2' as (Hstored2 & Hsize2 & Hcapacity2).
  eexists _, v1', v2', _. split; [exact Hrun1|]. split; [exact Hrun2|].
  unfold DSCVector.contents, dsc_vector_t.contents.
  repeat split; congruence.
Qed.

Lemma vectors_agree_witness :
  let calls := [PushBack 5; Insert 0 7; Size; Erase 1; At 0; PopBack;
                Reserve 10; Capacity; Empty; At 9; Insert 1 8] in
  let v1 := DSCVector.mkVector (Block [1; 2]) 2 2 in
  let v2 := dsc_vector_t.mkVector (Block [1; 2]) 2 2 in
  let p := mkProcess [] [] false in
  (exists answers v1' v2' p',
     DSCVector.run calls (Some v1) p = (answers, Some v1', p') /\
     dsc_vector_t.run calls (Some v2) p = (answers, Some v2', p') /\
     undefined p' = undefined p /\
     DSCVector.contents v1' = dsc_vector_t.contents v2' /\
     DSCVector.size v1' = dsc_vector_t.size v2' /\
     DSCVector.capacity v1' = dsc_vector_t.capacity v2') /\
  (exists p',
     DSCVector.run calls None p = (map (null_answer (-1)) calls, None, p') /\
     dsc_vector_t.run calls None p = (map (null_answer 0) calls, None, p')).
Proof.
  intros calls v1 v2 p.
  apply (vectors_agree calls v1 v2 (Sequence.mk [1; 2] 2) p).
  - exists [1; 2]. repeat split; vm_compute; congruence.
  - exists [1; 2]. repeat split; vm_compute; congruence.
  - reflexivity.
  - reflexivity.
Defined.

(** C8, as stated, fails: on a null handle [dsc_vector_size] returns -1 in
    [struct DSCVector] and 0 in [struct dsc_vector_t]. *)
Lemma size_of_null_handle_differs :
  let p := mkProcess [] [] false in
  fst (DSCVector.dsc_vector_size None p) = -1 /\
  fst (dsc_vector_t.dsc_vector_size None p) = 0 /\
  fst (fst (DSCVector.run [Size] None p)) <> fst (fst (dsc_vector_t.run [Size] None p)).
Proof.
  vm_compute. repeat split. discriminate.
Qed.

(** The vectors [dsc_vector_create] returns hold the empty sequence with the
    initial capacity in both implementations; the one of
    [struct dsc_vector_t] reads the [values] field before it is written. *)
Lemma created_vectors_agree (initial_capacity : Z) (p : process) :
  2 <= initial_capacity <= UINT_MAX ->
  allocator p = [] ->
  exists v1 v2,
    DSCVector.dsc_vector_create initial_capacity p =
      (Some v1, reports DSC_ERROR_NONE p) /\
    dsc_vector_t.dsc_vector_create initial_capacity p =
      (Some v2, {| error_log := DSC_ERROR_NONE :: error_log p;
                   allocator := allocator p;
                   undefined := true |}) /\
    Sequence.models (DSCVector.values v1) (DSCVector.size v1) (DSCVector.capacity v1)
                    (Sequence.mk [] initial_capacity) /\
    Sequence.models (dsc_vector_t.values v2) (dsc_vector_t.size v2) (dsc_vector_t.capacity v2)
                    (Sequence.mk [] initial_capacity).
Proof.
  intros Hrange Hp. destruct p as [log script ub]. cbn in Hp. subst script.
  unfold DSCVector.dsc_vector_create, dsc_vector_t.dsc_vector_create,
    dsc_vector_t.dsc_vector_resize, malloc, alloc, bind, ret. cbn.
  rewrite uint_small, usize_small by arith.
  rewrite Z.gtb_ltb. destruct (Z.ltb_spec (SIZE_MAX / sizeof_int) initial_capacity); [arith|].
  cbn. rewrite Z.div_mul by (unfold sizeof_int; lia).
  eexists _, _. split; [reflexivity|]. split; [reflexivity|].
  split; cbn; apply (models_intro _ []); unfold fresh;
    rewrite ?length_replicate; try lia; reflexivity.
Qed.

(** A full vector does grow when an element is added and the allocator
    serves the new block: the capacity becomes the old one multiplied by 1.5
    and truncated, which is larger. *)
Lemma full_vector_grows
  (c : call) (v1 : DSCVector.DSCVector) (v2 : dsc_vector_t.dsc_vector_t)
  (s : Sequence.t) (p : process) :
  adds_element c = true ->
  Sequence.models (DSCVector.values v1) (DSCVector.size v1) (DSCVector.capacity v1) s ->
  Sequence.models (dsc_vector_t.values v2) (dsc_vector_t.size v2) (dsc_vector_t.capacity v2) s ->
  Sequence.length_of s = Sequence.capacity s ->
  Sequence.fits c s = true ->
  allocator p = [] ->
  (match c with Insert position _ => position <= Sequence.length_of s | _ => True end) ->
  exists v1' v2',
    snd (fst (DSCVector.perform c (Some v1) p)) = Some v1' /\
    snd (fst (dsc_vector_t.perform c (Some v2) p)) = Some v2' /\
    DSCVector.capacity v1' = Qfloor (inject_Z (DSCVector.capacity v1) * 1.5) /\
    dsc_vector_t.capacity v2' = Qfloor (inject_Z (dsc_vector_t.capacity v2) * 1.5) /\
    DSCVector.capacity v1 < DSCVector.capacity v1' /\
    dsc_vector_t.capacity v2 < dsc_vector_t.capacity v2'.
Proof.
  intros Hadds Hmodels1 Hmodels2 Hfull Hfits Hp Hposition.
  destruct (DSCVector_refines c v1 s p Hmodels1 Hfits Hp) as (v1' & Hc1 & Hmodels1').
  destruct (dsc_vector_t_refines c v2 s p Hmodels2 Hfits Hp) as (v2' & Hc2 & Hmodels2').
  exists v1', v2'. rewrite Hc1, Hc2. projections.
  pose proof Hmodels1 as (cells1 & _ & _ & _ & _ & _ & Hrange1).
  apply models_stored in Hmodels1 as (_ & _ & Hcapacity1).
  apply models_stored in Hmodels2 as (_ & _ & Hcapacity2).
  pose proof Hmodels1' as (cells & _ & _ & _ & _ & _ & Hrange).
  apply models_stored in Hmodels1' as (_ & _ & Hcapacity1').
  apply models_stored in Hmodels2' as (_ & _ & Hcapacity2').
  rewrite Hcapacity1, Hcapacity2, Hcapacity1', Hcapacity2'.
  assert (Hstep : Sequence.capacity (snd (fst (Sequence.step c s))) =
                  Qfloor (inject_Z (Sequence.capacity s) * 1.5)).
  { destruct c; try discriminate Hadds; cbn [Sequence.step].
    - projections. unfold Sequence.grown. rewrite Hfull. tests; reflexivity.
    - rewrite Z.gtb_ltb. destruct (Z.ltb_spec (Sequence.length_of s) position); [lia|].
      projections. unfold Sequence.grown. rewrite Hfull. tests; reflexivity. }
  rewrite Hstep. repeat split; try reflexivity.
  all: rewrite Hcapacity1', Hstep in Hrange; rewrite growth_floor in *;
    rewrite Hcapacity1 in Hrange1; arith.
Qed.

(** The bound of C1 needs the table to grow: with a step of 1 the thirteenth
    entry of a table of 16 buckets leaves a load of 13/16. *)
Lemma set_add_without_growth :
  let p := mkProcess [] [] false in
  let calls := map dsc_set.Add [1; 2; 3; 4; 5; 6; 7; 8; 9; 10; 11; 12; 29] in
  match fst ((s <- dsc_set.dsc_set_create ;; dsc_set.run 1 calls s) p) with
  | Some set =>
      dsc_set.size set = 13 /\ dsc_set.capacity set = 16 /\
      ~ (dsc_set.load_factor set <= dsc_set.DSC_SET_LOAD_FACTOR)%Q
  | None => False
  end.
Proof.
  vm_compute. repeat split. intros H. apply H. reflexivity.
Qed.

(** ** Further properties of the vector code *)

(** *** What the calls do to the elements *)

Lemma DSCVector_holds_inv v l capacity :
  DSCVector_holds v l capacity ->
  exists cells,
    v = DSCVector.mkVector (Block cells) (Z.of_nat (length l)) capacity /\
    capacity = Z.of_nat (length cells) /\
    take (length l) cells = l /\
    (length l <= length cells)%nat /\
    2 <= capacity <= UINT_MAX.
Proof.
  intros Hholds.
  destruct (models_length _ _ _ _ Hholds)
    as (cells & Hvalues & Hcapacity & Hsize & Hcap & Htake & Hle & Hrange).
  destruct v as [values size capacity']. projections. subst.
  exists cells. repeat split; auto; lia.
Qed.

Lemma dsc_vector_t_holds_inv v l capacity :
  dsc_vector_t_holds v l capacity ->
  exists cells,
    v = dsc_vector_t.mkVector (Block cells) (Z.of_nat (length l)) capacity /\
    capacity = Z.of_nat (length cells) /\
    take (length l) cells = l /\
    (length l <= length cells)%nat /\
    2 <= capacity <= UINT_MAX.
Proof.
  intros Hholds.
  destruct (models_length _ _ _ _ Hholds)
    as (cells & Hvalues & Hcapacity & Hsize & Hcap & Htake & Hle & Hrange).
  destruct v as [values size capacity']. projections. subst.
  exists cells. repeat split; auto; lia.
Qed.

Lemma DSCVector_holds_intro cells l capacity :
  Z.of_nat (length cells) = capacity ->
  take (length l) cells = l ->
  2 <= capacity <= UINT_MAX ->
  DSCVector_holds (DSCVector.mkVector (Block cells) (Z.of_nat (length l)) capacity) l capacity.
Proof. intros. apply models_intro; assumption. Qed.

Lemma dsc_vector_t_holds_intro cells l capacity :
  Z.of_nat (length cells) = capacity ->
  take (length l) cells = l ->
  2 <= capacity <= UINT_MAX ->
  dsc_vector_t_holds (dsc_vector_t.mkVector (Block cells) (Z.of_nat (length l)) capacity) l capacity.
Proof. intros. apply models_intro; assumption. Qed.

(** The function behind a call, from what [perform] returns. *)
Ltac of_perform H :=
  cbn [DSCVector.perform dsc_vector_t.perform] in H; unfold bind, ret in H;
  match type of H with
  | (let (_, _) := ?m in _) = _ =>
      let E := fresh "E" in
      destruct m as [? ?] eqn:E; cbn [fst snd] in H;
      inversion H; subst; clear H
  end.

Lemma DSCVector_at_holds v l capacity index x p :
  DSCVector_holds v l capacity ->
  0 <= index -> l !! Z.to_nat index = Some x ->
  DSCVector.dsc_vector_at (Some v) index p = (x, reports DSC_ERROR_NONE p).
Proof.
  intros Hholds Hindex Hx.
  destruct (DSCVector_holds_inv _ _ _ Hholds) as (cells & -> & Hcapacity & Htake & Hle & Hrange).
  assert (Hlt := lookup_lt_Some _ _ _ Hx).
  unfold DSCVector.dsc_vector_at, bind, ret, dsc_set_error. projections.
  rewrite Z.geb_leb. destruct (Z.leb_spec (Z.of_nat (length l)) index); [lia|].
  rewrite (load_block cells index x); [reflexivity|lia|].
  rewrite <- Htake in Hx. rewrite lookup_take_lt in Hx by lia. assumption.
Qed.

Lemma dsc_vector_t_at_holds v l capacity index x p :
  dsc_vector_t_holds v l capacity ->
  0 <= index -> l !! Z.to_nat index = Some x ->
  dsc_vector_t.dsc_vector_at (Some v) index p = (x, reports DSC_ERROR_NONE p).
Proof.
  intros Hholds Hindex Hx.
  destruct (dsc_vector_t_holds_inv _ _ _ Hholds) as (cells & -> & Hcapacity & Htake & Hle & Hrange).
  assert (Hlt := lookup_lt_Some _ _ _ Hx).
  unfold dsc_vector_t.dsc_vector_at, bind, ret, dsc_set_error. projections.
  rewrite Z.geb_leb. destruct (Z.ltb_spec index 0); [lia|]. cbn [orb].
  destruct (Z.leb_spec (Z.of_nat (length l)) index); [lia|].
  rewrite (load_block cells index x); [reflexivity|lia|].
  rewrite <- Htake in Hx. rewrite lookup_take_lt in Hx by lia. assumption.
Qed.

Lemma DSCVector_pop_back_holds v l x capacity p :
  DSCVector_holds v (l ++ [x]) capacity ->
  exists v',
    DSCVector.dsc_vector_pop_back (Some v) p =
      (Some v', reports DSC_ERROR_NONE (reports DSC_ERROR_NONE p)) /\
    DSCVector_holds v' l capacity.
Proof.
  intros Hholds.
  destruct (DSCVector_holds_inv _ _ _ Hholds) as (cells & -> & Hcapacity & Htake & Hle & Hrange).
  rewrite length_app in *. cbn [length] in *.
  unfold DSCVector.dsc_vector_pop_back, DSCVector.dsc_vector_empty, bind, ret, dsc_set_error.
  projections.
  destruct (Z.eqb_spec (Z.of_nat (length l + 1)) 0); [lia|].
  rewrite uint_small by lia.
  replace (Z.of_nat (length l + 1) - 1) with (Z.of_nat (length l)) by lia.
  eexists. split; [reflexivity|].
  apply DSCVector_holds_intro; [lia| |assumption].
  rewrite (take_prefix cells (l ++ [x]) (length l + 1) (length l)) by (assumption || lia).
  apply take_app_length.
Qed.

Lemma dsc_vector_t_pop_back_holds v l x capacity p :
  dsc_vector_t_holds v (l ++ [x]) capacity ->
  exists v',
    dsc_vector_t.dsc_vector_pop_back (Some v) p =
      (Some v', reports DSC_ERROR_NONE (reports DSC_ERROR_NONE p)) /\
    dsc_vector_t_holds v' l capacity.
Proof.
  intros Hholds.
  destruct (dsc_vector_t_holds_inv _ _ _ Hholds) as (cells & -> & Hcapacity & Htake & Hle & Hrange).
  rewrite length_app in *. cbn [length] in *.
  unfold dsc_vector_t.dsc_vector_pop_back, dsc_vector_t.dsc_vector_empty, bind, ret, dsc_set_error.
  projections.
  destruct (Z.eqb_spec (Z.of_nat (length l + 1)) 0); [lia|].
  rewrite usize_small by arith.
  replace (Z.of_nat (length l + 1) - 1) with (Z.of_nat (length l)) by lia.
  eexists. split; [reflexivity|].
  apply dsc_vector_t_holds_intro; [lia| |assumption].
  rewrite (take_prefix cells (l ++ [x]) (length l + 1) (length l)) by (assumption || lia).
  apply take_app_length.
Qed.

Lemma erase_elements (l1 l2 : list Z) (x : Z) :
  take (length l1) (l1 ++ x :: l2) ++ drop (S (length l1)) (l1 ++ x :: l2) = l1 ++ l2.
Proof.
  rewrite take_app_length.
  replace (S (length l1)) with (length (l1 ++ [x])) by (rewrite length_app; cbn; lia).
  replace (l1 ++ x :: l2) with ((l1 ++ [x]) ++ l2) by (rewrite <- app_assoc; reflexivity).
  rewrite drop_app_length. reflexivity.
Qed.

Lemma DSCVector_erase_holds v l1 x l2 capacity p :
  DSCVector_holds v (l1 ++ x :: l2) capacity ->
  exists v',
    DSCVector.dsc_vector_erase (Some v) (Z.of_nat (length l1)) p =
      (Some v', reports DSC_ERROR_NONE p) /\
    DSCVector_holds v' (l1 ++ l2) capacity.
Proof.
  intros Hholds.
  destruct (DSCVector_holds_inv _ _ _ Hholds) as (cells & -> & Hcapacity & Htake & Hle & Hrange).
  set (l := l1 ++ x :: l2) in *.
  assert (Hl : length l = S (length l1 + length l2))
    by (unfold l; rewrite length_app; cbn [length]; lia).
  unfold DSCVector.dsc_vector_erase, bind, ret, dsc_set_error. projections.
  rewrite Z.geb_leb.
  destruct (Z.leb_spec (Z.of_nat (length l)) (Z.of_nat (length l1))); [lia|].
  rewrite uint_small by lia.
  rewrite shift_left_block by lia.
  rewrite Nat2Z.id.
  replace (Z.to_nat (Z.of_nat (length l) - 1 - Z.of_nat (length l1))) with (length l2) by lia.
  replace (Z.of_nat (length l) - 1) with (Z.of_nat (length (l1 ++ l2)))
    by (rewrite length_app; lia).
  eexists. split; [reflexivity|].
  apply DSCVector_holds_intro; [|  |assumption].
  - rewrite !length_app, !length_take, !length_drop. lia.
  - rewrite length_app. rewrite erase_cells by lia.
    replace (S (length l1 + length l2)) with (length l) by lia.
    rewrite Htake. apply erase_elements.
Qed.

Lemma dsc_vector_t_erase_holds v l1 x l2 capacity p :
  dsc_vector_t_holds v (l1 ++ x :: l2) capacity ->
  exists v',
    dsc_vector_t.dsc_vector_erase (Some v) (Z.of_nat (length l1)) p =
      (Some v', reports DSC_ERROR_NONE p) /\
    dsc_vector_t_holds v' (l1 ++ l2) capacity.
Proof.
  intros Hholds.
  destruct (dsc_vector_t_holds_inv _ _ _ Hholds) as (cells & -> & Hcapacity & Htake & Hle & Hrange).
  set (l := l1 ++ x :: l2) in *.
  assert (Hl : length l = S (length l1 + length l2))
    by (unfold l; rewrite length_app; cbn [length]; lia).
  unfold dsc_vector_t.dsc_vector_erase, bind, ret, dsc_set_error. projections.
  rewrite Z.geb_leb.
  destruct (Z.ltb_spec (Z.of_nat (length l1)) 0); [lia|]. cbn [orb].
  destruct (Z.leb_spec (Z.of_nat (length l)) (Z.of_nat (length l1))); [lia|].
  rewrite usize_small by arith.
  rewrite shift_left_block by lia.
  rewrite Nat2Z.id.
  replace (Z.to_nat (Z.of_nat (length l) - 1 - Z.of_nat (length l1))) with (length l2) by lia.
  replace (Z.of_nat (length l) - 1) with (Z.of_nat (length (l1 ++ l2)))
    by (rewrite length_app; lia).
  eexists. split; [reflexivity|].
  apply dsc_vector_t_holds_intro; [|  |assumption].
  - rewrite !length_app, !length_take, !length_drop. lia.
  - rewrite length_app. rewrite erase_cells by lia.
    replace (S (length l1 + length l2)) with (length l) by lia.
    rewrite Htake. apply erase_elements.
Qed.

Lemma DSCVector_push_back_holds v l capacity value p :
  DSCVector_holds v l capacity ->
  Sequence.grown (Sequence.mk l capacity) <= UINT_MAX ->
  allocator p = [] ->
  exists v',
    DSCVector.dsc_vector_push_back (Some v) value p = (Some v', reports DSC_ERROR_NONE p) /\
    DSCVector_holds v' (l ++ [value]) (Sequence.grown (Sequence.mk l capacity)).
Proof.
  intros Hholds Hfits Hp.
  destruct (DSCVector_refines (PushBack value) v _ p Hholds) as (v' & Hc & Hholds');
    [apply Z.leb_le; assumption|assumption|].
  of_perform Hc. exists v'. split; [reflexivity|exact Hholds'].
Qed.

Lemma dsc_vector_t_push_back_holds v l capacity value p :
  dsc_vector_t_holds v l capacity ->
  Sequence.grown (Sequence.mk l capacity) <= UINT_MAX ->
  allocator p = [] ->
  exists v',
    dsc_vector_t.dsc_vector_push_back (Some v) value p = (Some v', reports DSC_ERROR_NONE p) /\
    dsc_vector_t_holds v' (l ++ [value]) (Sequence.grown (Sequence.mk l capacity)).
Proof.
  intros Hholds Hfits Hp.
  destruct (dsc_vector_t_refines (PushBack value) v _ p Hholds) as (v' & Hc & Hholds');
    [apply Z.leb_le; assumption|assumption|].
  of_perform Hc. exists v'. split; [reflexivity|exact Hholds'].
Qed.

Lemma insert_elements (l1 l2 : list Z) (value : Z) :
  take (length l1) (l1 ++ l2) ++ value :: drop (length l1) (l1 ++ l2) = l1 ++ value :: l2.
Proof. rewrite take_app_length, drop_app_length. reflexivity. Qed.

Lemma insert_fits (l1 l2 : list Z) (capacity value : Z) :
  (length (l1 ++ l2) <= Z.to_nat capacity)%nat -> capacity <= UINT_MAX ->
  Sequence.grown (Sequence.mk (l1 ++ l2) capacity) <= UINT_MAX ->
  Sequence.fits (Insert (Z.of_nat (length l1)) value) (Sequence.mk (l1 ++ l2) capacity) = true.
Proof.
  intros Hle Hcapacity Hgrown. cbn [Sequence.fits].
  rewrite !andb_true_iff, !Z.leb_le. rewrite length_app in Hle.
  split; [unfold UINT_MAX in *; lia|assumption].
Qed.

Lemma DSCVector_insert_holds v l1 l2 capacity value p :
  DSCVector_holds v (l1 ++ l2) capacity ->
  Sequence.grown (Sequence.mk (l1 ++ l2) capacity) <= UINT_MAX ->
  allocator p = [] ->
  exists v',
    DSCVector.dsc_vector_insert (Some v) (Z.of_nat (length l1)) value p =
      (Z.of_nat (length l1), Some v', reports DSC_ERROR_NONE p) /\
    DSCVector_holds v' (l1 ++ value :: l2) (Sequence.grown (Sequence.mk (l1 ++ l2) capacity)).
Proof.
  intros Hholds Hfits Hp.
  destruct (DSCVector_holds_inv _ _ _ Hholds) as (cells & _ & Hcapacity & _ & Hle & Hrange).
  destruct (DSCVector_refines (Insert (Z.of_nat (length l1)) value) v _ p Hholds)
    as (v' & Hc & Hholds'); [apply insert_fits; lia|assumption|].
  cbn [Sequence.step] in *. unfold Sequence.length_of in *. projections.
  rewrite Z.gtb_ltb in *.
  destruct (Z.ltb_spec (Z.of_nat (length (l1 ++ l2))) (Z.of_nat (length l1)));
    [rewrite length_app in *; lia|].
  projections. rewrite Nat2Z.id, insert_elements in Hholds'.
  of_perform Hc. destruct p0 as [r vector]. cbn [fst snd] in *. subst.
  exists v'. split; [reflexivity|exact Hholds'].
Qed.

Lemma dsc_vector_t_insert_holds v l1 l2 capacity value p :
  dsc_vector_t_holds v (l1 ++ l2) capacity ->
  Sequence.grown (Sequence.mk (l1 ++ l2) capacity) <= UINT_MAX ->
  allocator p = [] ->
  exists v',
    dsc_vector_t.dsc_vector_insert (Some v) (Z.of_nat (length l1)) value p =
      (Z.of_nat (length l1), Some v', reports DSC_ERROR_NONE p) /\
    dsc_vector_t_holds v' (l1 ++ value :: l2) (Sequence.grown (Sequence.mk (l1 ++ l2) capacity)).
Proof.
  intros Hholds Hfits Hp.
  destruct (dsc_vector_t_holds_inv _ _ _ Hholds) as (cells & _ & Hcapacity & _ & Hle & Hrange).
  destruct (dsc_vector_t_refines (Insert (Z.of_nat (length l1)) value) v _ p Hholds)
    as (v' & Hc & Hholds'); [apply insert_fits; lia|assumption|].
  cbn [Sequence.step] in *. unfold Sequence.length_of in *. projections.
  rewrite Z.gtb_ltb in *.
  destruct (Z.ltb_spec (Z.of_nat (length (l1 ++ l2))) (Z.of_nat (length l1)));
    [rewrite length_app in *; lia|].
  projections. rewrite Nat2Z.id, insert_elements in Hholds'.
  of_perform Hc. destruct p0 as [r vector]. cbn [fst snd] in *. subst.
  exists v'. split; [reflexivity|exact Hholds'].
Qed.

Lemma DSCVector_reserve_holds v l capacity new_capacity p :
  DSCVector_holds v l capacity ->
  capacity < new_capacity <= UINT_MAX ->
  allocator p = [] ->
  exists v',
    DSCVector.dsc_vector_reserve (Some v) new_capacity p = (Some v', reports DSC_ERROR_NONE p) /\
    DSCVector_holds v' l new_capacity.
Proof.
  intros Hholds Hnew Hp.
  destruct (DSCVector_holds_inv _ _ _ Hholds) as (cells & _ & Hcapacity & _ & Hle & Hrange).
  destruct (DSCVector_refines (Reserve new_capacity) v _ p Hholds) as (v' & Hc & Hholds');
    [cbn [Sequence.fits]; rewrite andb_true_iff, !Z.leb_le; lia|assumption|].
  cbn [Sequence.step] in *. projections.
  destruct (Z.leb_spec new_capacity capacity); [lia|]. projections.
  of_perform Hc. exists v'. split; [reflexivity|exact Hholds'].
Qed.

Lemma dsc_vector_t_reserve_holds v l capacity new_capacity p :
  dsc_vector_t_holds v l capacity ->
  capacity < new_capacity <= UINT_MAX ->
  allocator p = [] ->
  exists v',
    dsc_vector_t.dsc_vector_reserve (Some v) new_capacity p = (Some v', reports DSC_ERROR_NONE p) /\
    dsc_vector_t_holds v' l new_capacity.
Proof.
  intros Hholds Hnew Hp.
  destruct (dsc_vector_t_holds_inv _ _ _ Hholds) as (cells & _ & Hcapacity & _ & Hle & Hrange).
  destruct (dsc_vector_t_refines (Reserve new_capacity) v _ p Hholds) as (v' & Hc & Hholds');
    [cbn [Sequence.fits]; rewrite andb_true_iff, !Z.leb_le; lia|assumption|].
  cbn [Sequence.step] in *. projections.
  destruct (Z.leb_spec new_capacity capacity); [lia|]. projections.
  of_perform Hc. exists v'. split; [reflexivity|exact Hholds'].
Qed.

(** Discharges the hypotheses of a statement at a concrete input. *)
Ltac concrete :=
  first [ reflexivity
        | lia
        | (eexists; repeat split; vm_compute; congruence)
        | (vm_compute; intuition discriminate) ].

(** X1.  [dsc_vector_push_back] on a well-formed vector, with the
    allocator serving and the capacity after the call (1.5 times the
    capacity when the vector is full) within [unsigned int]: the value is
    appended to the elements, whether the vector was full or not, NONE is
    reported, and [dsc_vector_at] then returns the value at the old size. *)
Theorem push_back_appends
  (v1 : DSCVector.DSCVector) (v2 : dsc_vector_t.dsc_vector_t)
  (l : list Z) (capacity value : Z) (p : process) :
  DSCVector_holds v1 l capacity ->
  dsc_vector_t_holds v2 l capacity ->
  Sequence.grown (Sequence.mk l capacity) <= UINT_MAX ->
  allocator p = [] ->
  exists v1' v2',
    DSCVector.dsc_vector_push_back (Some v1) value p = (Some v1', reports DSC_ERROR_NONE p) /\
    dsc_vector_t.dsc_vector_push_back (Some v2) value p = (Some v2', reports DSC_ERROR_NONE p) /\
    DSCVector_holds v1' (l ++ [value]) (Sequence.grown (Sequence.mk l capacity)) /\
    dsc_vector_t_holds v2' (l ++ [value]) (Sequence.grown (Sequence.mk l capacity)) /\
    fst (DSCVector.dsc_vector_at (Some v1') (Z.of_nat (length l)) (reports DSC_ERROR_NONE p)) = value /\
    fst (dsc_vector_t.dsc_vector_at (Some v2') (Z.of_nat (length l)) (reports DSC_ERROR_NONE p)) = value.
Proof.
  intros H1 H2 Hfits Hp.
  destruct (DSCVector_push_back_holds v1 l capacity value p H1 Hfits Hp) as (v1' & E1 & H1').
  destruct (dsc_vector_t_push_back_holds v2 l capacity value p H2 Hfits Hp) as (v2' & E2 & H2').
  exists v1', v2'. repeat split; try assumption.
  - rewrite (DSCVector_at_holds v1' _ _ _ value _ H1'); [reflexivity|lia|].
    rewrite Nat2Z.id. apply list_lookup_middle. reflexivity.
  - rewrite (dsc_vector_t_at_holds v2' _ _ _ value _ H2'); [reflexivity|lia|].
    rewrite Nat2Z.id. apply list_lookup_middle. reflexivity.
Qed.

Lemma push_back_appends_witness :
  let v1 := DSCVector.mkVector (Block [1; 2]) 2 2 in
  let v2 := dsc_vector_t.mkVector (Block [1; 2]) 2 2 in
  let p := mkProcess [] [] false in
  exists v1' v2',
    DSCVector.dsc_vector_push_back (Some v1) 3 p = (Some v1', reports DSC_ERROR_NONE p) /\
    dsc_vector_t.dsc_vector_push_back (Some v2) 3 p = (Some v2', reports DSC_ERROR_NONE p) /\
    DSCVector_holds v1' ([1; 2] ++ [3]) (Sequence.grown (Sequence.mk [1; 2] 2)) /\
    dsc_vector_t_holds v2' ([1; 2] ++ [3]) (Sequence.grown (Sequence.mk [1; 2] 2)) /\
    fst (DSCVector.dsc_vector_at (Some v1') 2 (reports DSC_ERROR_NONE p)) = 3 /\
    fst (dsc_vector_t.dsc_vector_at (Some v2') 2 (reports DSC_ERROR_NONE p)) = 3.
Proof.
  intros v1 v2 p.
  apply (push_back_appends v1 v2 [1; 2] 2 3 p); concrete.
Defined.

(** X2.  [dsc_vector_at] with an index below the size returns the element
    at that index and reports NONE; nothing else happens to the process. *)
Theorem at_returns_element
  (v1 : DSCVector.DSCVector) (v2 : dsc_vector_t.dsc_vector_t)
  (l : list Z) (capacity index x : Z) (p : process) :
  DSCVector_holds v1 l capacity ->
  dsc_vector_t_holds v2 l capacity ->
  0 <= index ->
  l !! Z.to_nat index = Some x ->
  DSCVector.dsc_vector_at (Some v1) index p = (x, reports DSC_ERROR_NONE p) /\
  dsc_vector_t.dsc_vector_at (Some v2) index p = (x, reports DSC_ERROR_NONE p).
Proof.
  intros H1 H2 Hindex Hx. split.
  - exact (DSCVector_at_holds v1 l capacity index x p H1 Hindex Hx).
  - exact (dsc_vector_t_at_holds v2 l capacity index x p H2 Hindex Hx).
Qed.

Lemma at_returns_element_witness :
  let v1 := DSCVector.mkVector (Block [4; 5; 6; 0]) 3 4 in
  let v2 := dsc_vector_t.mkVector (Block [4; 5; 6; 0]) 3 4 in
  let p := mkProcess [DSC_ERROR_OUT_OF_RANGE] [false] false in
  DSCVector.dsc_vector_at (Some v1) 1 p = (5, reports DSC_ERROR_NONE p) /\
  dsc_vector_t.dsc_vector_at (Some v2) 1 p = (5, reports DSC_ERROR_NONE p).
Proof.
  intros v1 v2 p.
  apply (at_returns_element v1 v2 [4; 5; 6] 4 1 5 p); concrete.
Defined.

(** X3.  [dsc_vector_pop_back] on a vector that is not empty removes the
    last element and keeps the others and the capacity; the error slot is
    written twice, with NONE. *)
Theorem pop_back_removes_last
  (v1 : DSCVector.DSCVector) (v2 : dsc_vector_t.dsc_vector_t)
  (l : list Z) (x capacity : Z) (p : process) :
  DSCVector_holds v1 (l ++ [x]) capacity ->
  dsc_vector_t_holds v2 (l ++ [x]) capacity ->
  exists v1' v2',
    DSCVector.dsc_vector_pop_back (Some v1) p =
      (Some v1', reports DSC_ERROR_NONE (reports DSC_ERROR_NONE p)) /\
    dsc_vector_t.dsc_vector_pop_back (Some v2) p =
      (Some v2', reports DSC_ERROR_NONE (reports DSC_ERROR_NONE p)) /\
    DSCVector_holds v1' l capacity /\
    dsc_vector_t_holds v2' l capacity.
Proof.
  intros H1 H2.
  destruct (DSCVector_pop_back_holds v1 l x capacity p H1) as (v1' & E1 & H1').
  destruct (dsc_vector_t_pop_back_holds v2 l x capacity p H2) as (v2' & E2 & H2').
  exists v1', v2'. auto.
Qed.

Lemma pop_back_removes_last_witness :
  let v1 := DSCVector.mkVector (Block [4; 5; 6; 0]) 3 4 in
  let v2 := dsc_vector_t.mkVector (Block [4; 5; 6; 0]) 3 4 in
  let p := mkProcess [] [false] false in
  exists v1' v2',
    DSCVector.dsc_vector_pop_back (Some v1) p =
      (Some v1', reports DSC_ERROR_NONE (reports DSC_ERROR_NONE p)) /\
    dsc_vector_t.dsc_vector_pop_back (Some v2) p =
      (Some v2', reports DSC_ERROR_NONE (reports DSC_ERROR_NONE p)) /\
    DSCVector_holds v1' [4; 5] 4 /\
    dsc_vector_t_holds v2' [4; 5] 4.
Proof.
  intros v1 v2 p.
  apply (pop_back_removes_last v1 v2 [4; 5] 6 4 p); concrete.
Defined.

(** X4.  [dsc_vector_insert] on a well-formed vector at a position within
    the size, with the allocator serving and the capacity after the call
    (1.5 times the capacity when the vector is full) within [unsigned int]:
    the value is put at the position, the elements from the position on
    move up by one in their order, the position is returned and NONE
    reported; [dsc_vector_at] then returns the value there. *)
Theorem insert_puts_value_at_position
  (v1 : DSCVector.DSCVector) (v2 : dsc_vector_t.dsc_vector_t)
  (l1 l2 : list Z) (capacity value : Z) (p : process) :
  DSCVector_holds v1 (l1 ++ l2) capacity ->
  dsc_vector_t_holds v2 (l1 ++ l2) capacity ->
  Sequence.grown (Sequence.mk (l1 ++ l2) capacity) <= UINT_MAX ->
  allocator p = [] ->
  let position := Z.of_nat (length l1) in
  let capacity' := Sequence.grown (Sequence.mk (l1 ++ l2) capacity) in
  exists v1' v2',
    DSCVector.dsc_vector_insert (Some v1) position value p =
      (position, Some v1', reports DSC_ERROR_NONE p) /\
    dsc_vector_t.dsc_vector_insert (Some v2) position value p =
      (position, Some v2', reports DSC_ERROR_NONE p) /\
    DSCVector_holds v1' (l1 ++ value :: l2) capacity' /\
    dsc_vector_t_holds v2' (l1 ++ value :: l2) capacity' /\
    fst (DSCVector.dsc_vector_at (Some v1') position (reports DSC_ERROR_NONE p)) = value /\
    fst (dsc_vector_t.dsc_vector_at (Some v2') position (reports DSC_ERROR_NONE p)) = value.
Proof.
  intros H1 H2 Hfits Hp position capacity'.
  destruct (DSCVector_insert_holds v1 l1 l2 capacity value p H1 Hfits Hp) as (v1' & E1 & H1').
  destruct (dsc_vector_t_insert_holds v2 l1 l2 capacity value p H2 Hfits Hp) as (v2' & E2 & H2').
  exists v1', v2'. repeat split; try assumption.
  - rewrite (DSCVector_at_holds v1' _ _ _ value _ H1'); [reflexivity|lia|].
    unfold position. rewrite Nat2Z.id. apply list_lookup_middle. reflexivity.
  - rewrite (dsc_vector_t_at_holds v2' _ _ _ value _ H2'); [reflexivity|lia|].
    unfold position. rewrite Nat2Z.id. apply list_lookup_middle. reflexivity.
Qed.

Lemma insert_puts_value_at_position_witness :
  let v1 := DSCVector.mkVector (Block [4; 5; 6]) 3 3 in
  let v2 := dsc_vector_t.mkVector (Block [4; 5; 6]) 3 3 in
  let p := mkProcess [] [] false in
  exists v1' v2',
    DSCVector.dsc_vector_insert (Some v1) 1 9 p = (1, Some v1', reports DSC_ERROR_NONE p) /\
    dsc_vector_t.dsc_vector_insert (Some v2) 1 9 p = (1, Some v2', reports DSC_ERROR_NONE p) /\
    DSCVector_holds v1' ([4] ++ 9 :: [5; 6]) 4 /\
    dsc_vector_t_holds v2' ([4] ++ 9 :: [5; 6]) 4 /\
    fst (DSCVector.dsc_vector_at (Some v1') 1 (reports DSC_ERROR_NONE p)) = 9 /\
    fst (dsc_vector_t.dsc_vector_at (Some v2') 1 (reports DSC_ERROR_NONE p)) = 9.
Proof.
  intros v1 v2 p.
  apply (insert_puts_value_at_position v1 v2 [4] [5; 6] 3 9 p); concrete.
Defined.

(** X5.  [dsc_vector_erase] at a position below the size removes the
    element there; the elements before it stay, those after it move down by
    one in their order, the capacity is kept and NONE reported. *)
Theorem erase_removes_element
  (v1 : DSCVector.DSCVector) (v2 : dsc_vector_t.dsc_vector_t)
  (l1 l2 : list Z) (x capacity : Z) (p : process) :
  DSCVector_holds v1 (l1 ++ x :: l2) capacity ->
  dsc_vector_t_holds v2 (l1 ++ x :: l2) capacity ->
  let position := Z.of_nat (length l1) in
  exists v1' v2',
    DSCVector.dsc_vector_erase (Some v1) position p = (Some v1', reports DSC_ERROR_NONE p) /\
    dsc_vector_t.dsc_vector_erase (Some v2) position p = (Some v2', reports DSC_ERROR_NONE p) /\
    DSCVector_holds v1' (l1 ++ l2) capacity /\
    dsc_vector_t_holds v2' (l1 ++ l2) capacity.
Proof.
  intros H1 H2 position.
  destruct (DSCVector_erase_holds v1 l1 x l2 capacity p H1) as (v1' & E1 & H1').
  destruct (dsc_vector_t_erase_holds v2 l1 x l2 capacity p H2) as (v2' & E2 & H2').
  exists v1', v2'. auto.
Qed.

Lemma erase_removes_element_witness :
  let v1 := DSCVector.mkVector (Block [4; 5; 6; 7; 0]) 4 5 in
  let v2 := dsc_vector_t.mkVector (Block [4; 5; 6; 7; 0]) 4 5 in
  let p := mkProcess [] [false] false in
  exists v1' v2',
    DSCVector.dsc_vector_erase (Some v1) 1 p = (Some v1', reports DSC_ERROR_NONE p) /\
    dsc_vector_t.dsc_vector_erase (Some v2) 1 p = (Some v2', reports DSC_ERROR_NONE p) /\
    DSCVector_holds v1' ([4] ++ [6; 7]) 5 /\
    dsc_vector_t_holds v2' ([4] ++ [6; 7]) 5.
Proof.
  intros v1 v2 p.
  apply (erase_removes_element v1 v2 [4] [6; 7] 5 5 p); concrete.
Defined.

(** X6.  On a well-formed vector, with the allocator serving and the
    capacity after the insertion (1.5 times the capacity when the vector is
    full) within [unsigned int], an insertion followed by an erasure at the
    same position gives the elements back as they were; only the capacity
    may have grown. *)
Theorem insert_then_erase_restores
  (v1 : DSCVector.DSCVector) (v2 : dsc_vector_t.dsc_vector_t)
  (l1 l2 : list Z) (capacity value : Z) (p : process) :
  DSCVector_holds v1 (l1 ++ l2) capacity ->
  dsc_vector_t_holds v2 (l1 ++ l2) capacity ->
  Sequence.grown (Sequence.mk (l1 ++ l2) capacity) <= UINT_MAX ->
  allocator p = [] ->
  let position := Z.of_nat (length l1) in
  let capacity' := Sequence.grown (Sequence.mk (l1 ++ l2) capacity) in
  let done := reports DSC_ERROR_NONE (reports DSC_ERROR_NONE p) in
  exists v1' v2',
    (r <- DSCVector.dsc_vector_insert (Some v1) position value ;;
     DSCVector.dsc_vector_erase (snd r) position) p = (Some v1', done) /\
    (r <- dsc_vector_t.dsc_vector_insert (Some v2) position value ;;
     dsc_vector_t.dsc_vector_erase (snd r) position) p = (Some v2', done) /\
    DSCVector_holds v1' (l1 ++ l2) capacity' /\
    dsc_vector_t_holds v2' (l1 ++ l2) capacity'.
Proof.
  intros H1 H2 Hfits Hp position capacity' done.
  destruct (DSCVector_insert_holds v1 l1 l2 capacity value p H1 Hfits Hp) as (w1 & E1 & Hw1).
  destruct (dsc_vector_t_insert_holds v2 l1 l2 capacity value p H2 Hfits Hp) as (w2 & E2 & Hw2).
  destruct (DSCVector_erase_holds w1 l1 value l2 _ (reports DSC_ERROR_NONE p) Hw1)
    as (v1' & E1' & H1').
  destruct (dsc_vector_t_erase_holds w2 l1 value l2 _ (reports DSC_ERROR_NONE p) Hw2)
    as (v2' & E2' & H2').
  exists v1', v2'. unfold bind, position. rewrite E1, E2. cbn [snd].
  rewrite E1', E2'. auto.
Qed.

Lemma insert_then_erase_restores_witness :
  let v1 := DSCVector.mkVector (Block [4; 5; 6]) 3 3 in
  let v2 := dsc_vector_t.mkVector (Block [4; 5; 6]) 3 3 in
  let p := mkProcess [] [] false in
  let done := reports DSC_ERROR_NONE (reports DSC_ERROR_NONE p) in
  exists v1' v2',
    (r <- DSCVector.dsc_vector_insert (Some v1) 1 9 ;;
     DSCVector.dsc_vector_erase (snd r) 1) p = (Some v1', done) /\
    (r <- dsc_vector_t.dsc_vector_insert (Some v2) 1 9 ;;
     dsc_vector_t.dsc_vector_erase (snd r) 1) p = (Some v2', done) /\
    DSCVector_holds v1' ([4] ++ [5; 6]) 4 /\
    dsc_vector_t_holds v2' ([4] ++ [5; 6]) 4.
Proof.
  intros v1 v2 p done.
  apply (insert_then_erase_restores v1 v2 [4] [5; 6] 3 9 p); concrete.
Defined.

(** X7.  On a well-formed vector, with the allocator serving and the
    capacity after the call (1.5 times the capacity when the vector is full)
    within [unsigned int], [dsc_vector_push_back] followed by
    [dsc_vector_pop_back] gives the elements back as they were; only the
    capacity may have grown. *)
Theorem push_back_then_pop_back_restores
  (v1 : DSCVector.DSCVector) (v2 : dsc_vector_t.dsc_vector_t)
  (l : list Z) (capacity value : Z) (p : process) :
  DSCVector_holds v1 l capacity ->
  dsc_vector_t_holds v2 l capacity ->
  Sequence.grown (Sequence.mk l capacity) <= UINT_MAX ->
  allocator p = [] ->
  let capacity' := Sequence.grown (Sequence.mk l capacity) in
  let done := reports DSC_ERROR_NONE (reports DSC_ERROR_NONE (reports DSC_ERROR_NONE p)) in
  exists v1' v2',
    (v <- DSCVector.dsc_vector_push_back (Some v1) value ;;
     DSCVector.dsc_vector_pop_back v) p = (Some v1', done) /\
    (v <- dsc_vector_t.dsc_vector_push_back (Some v2) value ;;
     dsc_vector_t.dsc_vector_pop_back v) p = (Some v2', done) /\
    DSCVector_holds v1' l capacity' /\
    dsc_vector_t_holds v2' l capacity'.
Proof.
  intros H1 H2 Hfits Hp capacity' done.
  destruct (DSCVector_push_back_holds v1 l capacity value p H1 Hfits Hp) as (w1 & E1 & Hw1).
  destruct (dsc_vector_t_push_back_holds v2 l capacity value p H2 Hfits Hp) as (w2 & E2 & Hw2).
  destruct (DSCVector_pop_back_holds w1 l value _ (reports DSC_ERROR_NONE p) Hw1)
    as (v1' & E1' & H1').
  destruct (dsc_vector_t_pop_back_holds w2 l value _ (reports DSC_ERROR_NONE p) Hw2)
    as (v2' & E2' & H2').
  exists v1', v2'. unfold bind. rewrite E1, E2, E1', E2'. auto.
Qed.

Lemma push_back_then_pop_back_restores_witness :
  let v1 := DSCVector.mkVector (Block [4; 5]) 2 2 in
  let v2 := dsc_vector_t.mkVector (Block [4; 5]) 2 2 in
  let p := mkProcess [] [] false in
  let done := reports DSC_ERROR_NONE (reports DSC_ERROR_NONE (reports DSC_ERROR_NONE p)) in
  exists v1' v2',
    (v <- DSCVector.dsc_vector_push_back (Some v1) 7 ;;
     DSCVector.dsc_vector_pop_back v) p = (Some v1', done) /\
    (v <- dsc_vector_t.dsc_vector_push_back (Some v2) 7 ;;
     dsc_vector_t.dsc_vector_pop_back v) p = (Some v2', done) /\
    DSCVector_holds v1' [4; 5] 3 /\
    dsc_vector_t_holds v2' [4; 5] 3.
Proof.
  intros v1 v2 p done.
  apply (push_back_then_pop_back_restores v1 v2 [4; 5] 2 7 p); concrete.
Defined.

(** X8.  [dsc_vector_reserve] on a well-formed vector with a larger
    capacity that is within [unsigned int], the allocator serving: the
    elements and the size are kept, the capacity is the one asked for, which
    [dsc_vector_capacity] then returns, and NONE is reported. *)
Theorem reserve_keeps_elements
  (v1 : DSCVector.DSCVector) (v2 : dsc_vector_t.dsc_vector_t)
  (l : list Z) (capacity new_capacity : Z) (p : process) :
  DSCVector_holds v1 l capacity ->
  dsc_vector_t_holds v2 l capacity ->
  capacity < new_capacity <= UINT_MAX ->
  allocator p = [] ->
  exists v1' v2',
    DSCVector.dsc_vector_reserve (Some v1) new_capacity p = (Some v1', reports DSC_ERROR_NONE p) /\
    dsc_vector_t.dsc_vector_reserve (Some v2) new_capacity p = (Some v2', reports DSC_ERROR_NONE p) /\
    DSCVector_holds v1' l new_capacity /\
    dsc_vector_t_holds v2' l new_capacity /\
    fst (DSCVector.dsc_vector_capacity (Some v1') (reports DSC_ERROR_NONE p)) = new_capacity /\
    fst (dsc_vector_t.dsc_vector_capacity (Some v2') (reports DSC_ERROR_NONE p)) = new_capacity.
Proof.
  intros H1 H2 Hnew Hp.
  destruct (DSCVector_reserve_holds v1 l capacity new_capacity p H1 Hnew Hp) as (v1' & E1 & H1').
  destruct (dsc_vector_t_reserve_holds v2 l capacity new_capacity p H2 Hnew Hp) as (v2' & E2 & H2').
  exists v1', v2'. repeat split; try assumption.
  - destruct (DSCVector_holds_inv _ _ _ H1') as (cells & -> & _). reflexivity.
  - destruct (dsc_vector_t_holds_inv _ _ _ H2') as (cells & -> & _). reflexivity.
Qed.

Lemma reserve_keeps_elements_witness :
  let v1 := DSCVector.mkVector (Block [4; 5; 0]) 2 3 in
  let v2 := dsc_vector_t.mkVector (Block [4; 5; 0]) 2 3 in
  let p := mkProcess [] [] false in
  exists v1' v2',
    DSCVector.dsc_vector_reserve (Some v1) 10 p = (Some v1', reports DSC_ERROR_NONE p) /\
    dsc_vector_t.dsc_vector_reserve (Some v2) 10 p = (Some v2', reports DSC_ERROR_NONE p) /\
    DSCVector_holds v1' [4; 5] 10 /\
    dsc_vector_t_holds v2' [4; 5] 10 /\
    fst (DSCVector.dsc_vector_capacity (Some v1') (reports DSC_ERROR_NONE p)) = 10 /\
    fst (dsc_vector_t.dsc_vector_capacity (Some v2') (reports DSC_ERROR_NONE p)) = 10.
Proof.
  intros v1 v2 p.
  apply (reserve_keeps_elements v1 v2 [4; 5] 3 10 p); concrete.
Defined.

(** X9.  [dsc_vector_reserve] while the allocator refuses the block: both
    implementations hand the structure back as it was; [struct DSCVector]
    reports OUT_OF_MEMORY, [struct dsc_vector_t] writes OUT_OF_MEMORY and
    then NONE over it, because [values] is not null. *)
Theorem reserve_refused
  (cells : list Z) (size capacity new_capacity : Z) (p : process) :
  capacity < new_capacity <= SIZE_MAX / sizeof_int ->
  let v1 := DSCVector.mkVector (Block cells) size capacity in
  let v2 := dsc_vector_t.mkVector (Block cells) size capacity in
  DSCVector.dsc_vector_reserve (Some v1) new_capacity (refusing p) =
    (Some v1, reports DSC_ERROR_OUT_OF_MEMORY p) /\
  dsc_vector_t.dsc_vector_reserve (Some v2) new_capacity (refusing p) =
    (Some v2, reports DSC_ERROR_NONE (reports DSC_ERROR_OUT_OF_MEMORY p)).
Proof.
  intros Hnew v1 v2.
  unfold DSCVector.dsc_vector_reserve, dsc_vector_t.dsc_vector_reserve,
    DSCVector.dsc_vector_resize, dsc_vector_t.dsc_vector_resize, v1, v2.
  projections. destruct (Z.leb_spec new_capacity capacity); [lia|].
  rewrite Z.gtb_ltb.
  destruct (Z.ltb_spec (SIZE_MAX / sizeof_int) new_capacity); [lia|].
  split; reflexivity.
Qed.

Lemma reserve_refused_witness :
  let v1 := DSCVector.mkVector (Block [4; 5; 0]) 2 3 in
  let v2 := dsc_vector_t.mkVector (Block [4; 5; 0]) 2 3 in
  let p := mkProcess [] [] false in
  DSCVector.dsc_vector_reserve (Some v1) 10 (refusing p) =
    (Some v1, reports DSC_ERROR_OUT_OF_MEMORY p) /\
  dsc_vector_t.dsc_vector_reserve (Some v2) 10 (refusing p) =
    (Some v2, reports DSC_ERROR_NONE (reports DSC_ERROR_OUT_OF_MEMORY p)).
Proof.
  apply (reserve_refused [4; 5; 0] 2 3 10 (mkProcess [] [] false)).
  vm_compute. intuition discriminate.
Defined.

(** *** Creation *)

(** X10.  [dsc_vector_create] of [struct DSCVector] asks the allocator for
    the structure and for the block.  When both are served the vector is
    well formed and empty, with the initial capacity, and NONE is reported;
    when one is refused the handle is null and OUT_OF_MEMORY is reported.
    Nothing undefined happens either way. *)
Theorem DSCVector_create_outcome (initial_capacity : Z) (p : process) :
  2 <= initial_capacity <= UINT_MAX ->
  let (vector, p') := DSCVector.dsc_vector_create initial_capacity p in
  undefined p' = undefined p /\
  if serves 2 p
  then (exists v, vector = Some v /\ DSCVector_holds v [] initial_capacity) /\
       dsc_get_error p' = DSC_ERROR_NONE /\
       fst (DSCVector.dsc_vector_empty vector p') = true
  else vector = None /\ dsc_get_error p' = DSC_ERROR_OUT_OF_MEMORY.
Proof.
  intros Hrange. destruct p as [log script ub].
  unfold DSCVector.dsc_vector_create, malloc, alloc, bind, ret, serves.
  rewrite uint_small by lia.
  destruct script as [|[] [|[] script]]; cbn; repeat split.
  all: eexists; (split; [reflexivity|]).
  all: rewrite Z.div_mul by (unfold sizeof_int; lia).
  all: apply (DSCVector_holds_intro _ []); unfold fresh;
    rewrite ?length_replicate; try lia; reflexivity.
Qed.

Lemma DSCVector_create_outcome_witness :
  let (vector, p') := DSCVector.dsc_vector_create 16 (mkProcess [] [true; false] false) in
  undefined p' = undefined (mkProcess [] [true; false] false) /\
  if serves 2 (mkProcess [] [true; false] false)
  then (exists v, vector = Some v /\ DSCVector_holds v [] 16) /\
       dsc_get_error p' = DSC_ERROR_NONE /\
       fst (DSCVector.dsc_vector_empty vector p') = true
  else vector = None /\ dsc_get_error p' = DSC_ERROR_OUT_OF_MEMORY.
Proof.
  apply (DSCVector_create_outcome 16 (mkProcess [] [true; false] false)).
  vm_compute. intuition discriminate.
Defined.

(** X11.  [dsc_vector_create] of [struct dsc_vector_t]: when the structure
    cannot be allocated the handle is null and OUT_OF_MEMORY is reported.
    When it is allocated, the [values] field is tested before anything was
    written to it, in [dsc_vector_resize] when the block is served and in
    [dsc_vector_create] itself when it is not. *)
Theorem dsc_vector_t_create_tests_unwritten_values (initial_capacity : Z) (p : process) :
  let (vector, p') := dsc_vector_t.dsc_vector_create initial_capacity p in
  if serves 1 p
  then undefined p' = true
  else vector = None /\
       dsc_get_error p' = DSC_ERROR_OUT_OF_MEMORY /\
       undefined p' = undefined p.
Proof.
  destruct p as [log script ub].
  unfold_dsc_vector_t; unfold serves; cbn.
  destruct script as [|[] [|[] script]]; exec; repeat split.
Qed.

(** *** What a call leaves alone *)





Lemma DSCVector_allocator_use c v p :
  let p' := snd (DSCVector.perform c (Some v) p) in
  allocator p' = allocator p \/
  (may_allocate c (DSCVector.size v) (DSCVector.capacity v) = true /\
   allocator p' = drop 1 (allocator p)).
Proof.
  destruct p as [log script ub], v as [values size capacity].
  destruct c; cbn; try (left; reflexivity).
  all: unfold_DSCVector; cbn; exec; try (left; reflexivity).
  all: destruct values; exec; try (left; reflexivity).
  all: destruct script as [|[] script]; exec; try (left; reflexivity).
  all: right; split; [|reflexivity]; tests; reflexivity.
Qed.

Lemma dsc_vector_t_allocator_use c v p :
  let p' := snd (dsc_vector_t.perform c (Some v) p) in
  allocator p' = allocator p \/
  (may_allocate c (dsc_vector_t.size v) (dsc_vector_t.capacity v) = true /\
   allocator p' = drop 1 (allocator p)).
Proof.
  destruct p as [log script ub], v as [values size capacity].
  destruct c; cbn; try (left; reflexivity).
  all: unfold_dsc_vector_t; cbn; exec; try (left; reflexivity).
  all: destruct script as [|[] script]; exec; try (left; reflexivity).
  all: destruct values; exec; try (left; reflexivity).
  all: right; split; [|reflexivity]; tests; reflexivity.
Qed.

(** X13.  A call asks the allocator for one block at most, and only where a
    block is needed: [dsc_vector_push_back] and [dsc_vector_insert] on a
    full vector, and [dsc_vector_reserve] with a larger capacity.  Every
    other call leaves the allocator alone, so that an allocation that would
    fail cannot make it fail. *)
Theorem allocator_is_asked_only_for_room
  (c : call) (v1 : DSCVector.DSCVector) (v2 : dsc_vector_t.dsc_vector_t) (p : process) :
  let p1 := snd (DSCVector.perform c (Some v1) p) in
  let p2 := snd (dsc_vector_t.perform c (Some v2) p) in
  (allocator p1 = allocator p \/
   (may_allocate c (DSCVector.size v1) (DSCVector.capacity v1) = true /\
    allocator p1 = drop 1 (allocator p))) /\
  (allocator p2 = allocator p \/
   (may_allocate c (dsc_vector_t.size v2) (dsc_vector_t.capacity v2) = true /\
    allocator p2 = drop 1 (allocator p))).
Proof.
  split; [apply DSCVector_allocator_use|apply dsc_vector_t_allocator_use].
Qed.

(** *** Calls that coincide *)

Ltac go :=
  repeat (tests; cbn; rewrite ?Z.sub_diag; change (Z.to_nat 0) with O; cbn).

(** X14.  [dsc_vector_insert] at the position [size] does what
    [dsc_vector_push_back] does: it leaves the same structure and the same
    process, whatever the vector and whatever the allocator answers. *)
Theorem insert_at_size_is_push_back
  (values : int_ptr) (size capacity value : Z) (p : process) :
  0 <= size ->
  let v1 := DSCVector.mkVector values size capacity in
  let v2 := dsc_vector_t.mkVector values size capacity in
  (snd (fst (DSCVector.dsc_vector_insert (Some v1) size value p)) =
     fst (DSCVector.dsc_vector_push_back (Some v1) value p) /\
   snd (DSCVector.dsc_vector_insert (Some v1) size value p) =
     snd (DSCVector.dsc_vector_push_back (Some v1) value p)) /\
  (snd (fst (dsc_vector_t.dsc_vector_insert (Some v2) size value p)) =
     fst (dsc_vector_t.dsc_vector_push_back (Some v2) value p) /\
   snd (dsc_vector_t.dsc_vector_insert (Some v2) size value p) =
     snd (dsc_vector_t.dsc_vector_push_back (Some v2) value p)).
Proof.
  intros Hsize v1 v2. unfold v1, v2. destruct p as [log script ub].
  split.
  - unfold DSCVector.dsc_vector_insert, DSCVector.dsc_vector_push_back,
      DSCVector.dsc_vector_resize, DSCVector.double_to_uint,
      realloc, malloc, alloc, bind, ret; cbn.
    go; try (split; reflexivity).
    all: destruct values; go; try (split; reflexivity).
    all: destruct script as [|[] script]; go; split; reflexivity.
  - unfold dsc_vector_t.dsc_vector_insert, dsc_vector_t.dsc_vector_push_back,
      dsc_vector_t.dsc_vector_resize, dsc_vector_t.double_to_size,
      memcpy, is_null, free, malloc, alloc, bind, ret; cbn.
    go; try (split; reflexivity).
    all: destruct script as [|[] script]; go; try (split; reflexivity).
    all: destruct values; go; try (split; reflexivity).
    all: repeat (match goal with
                 | |- context [if ?b then _ else _] => destruct b eqn:?
                 end; go); split; reflexivity.
Qed.

Lemma insert_at_size_is_push_back_witness :
  let v1 := DSCVector.mkVector (Block [4; 5]) 2 2 in
  let v2 := dsc_vector_t.mkVector (Block [4; 5]) 2 2 in
  let p := mkProcess [] [false] false in
  (snd (fst (DSCVector.dsc_vector_insert (Some v1) 2 9 p)) =
     fst (DSCVector.dsc_vector_push_back (Some v1) 9 p) /\
   snd (DSCVector.dsc_vector_insert (Some v1) 2 9 p) =
     snd (DSCVector.dsc_vector_push_back (Some v1) 9 p)) /\
  (snd (fst (dsc_vector_t.dsc_vector_insert (Some v2) 2 9 p)) =
     fst (dsc_vector_t.dsc_vector_push_back (Some v2) 9 p) /\
   snd (dsc_vector_t.dsc_vector_insert (Some v2) 2 9 p) =
     snd (dsc_vector_t.dsc_vector_push_back (Some v2) 9 p)).
Proof.
  apply (insert_at_size_is_push_back (Block [4; 5]) 2 2 9 (mkProcess [] [false] false)).
  lia.
Defined.

(** X15.  [dsc_vector_erase] at the last position leaves the structure
    [dsc_vector_pop_back] leaves: no element is moved and the size is one
    less. *)
Theorem erase_last_is_pop_back
  (values : int_ptr) (size capacity : Z) (p : process) :
  1 <= size <= UINT_MAX ->
  let v1 := DSCVector.mkVector values size capacity in
  let v2 := dsc_vector_t.mkVector values size capacity in
  fst (DSCVector.dsc_vector_erase (Some v1) (size - 1) p) =
    fst (DSCVector.dsc_vector_pop_back (Some v1) p) /\
  fst (DSCVector.dsc_vector_erase (Some v1) (size - 1) p) =
    Some (DSCVector.mkVector values (size - 1) capacity) /\
  fst (dsc_vector_t.dsc_vector_erase (Some v2) (size - 1) p) =
    fst (dsc_vector_t.dsc_vector_pop_back (Some v2) p) /\
  fst (dsc_vector_t.dsc_vector_erase (Some v2) (size - 1) p) =
    Some (dsc_vector_t.mkVector values (size - 1) capacity).
Proof.
  intros Hsize v1 v2. unfold v1, v2.
  unfold DSCVector.dsc_vector_erase, DSCVector.dsc_vector_pop_back,
    DSCVector.dsc_vector_empty, dsc_vector_t.dsc_vector_erase,
    dsc_vector_t.dsc_vector_pop_back, dsc_vector_t.dsc_vector_empty, bind, ret.
  projections.
  rewrite uint_small, usize_small by arith.
  rewrite !Z.geb_leb.
  destruct (Z.leb_spec size (size - 1)); [lia|].
  destruct (Z.ltb_spec (size - 1) 0); [lia|].
  destruct (Z.eqb_spec size 0); [lia|].
  rewrite Z.sub_diag. change (Z.to_nat 0) with O.
  repeat split.
Qed.

Lemma erase_last_is_pop_back_witness :
  let v1 := DSCVector.mkVector (Block [4; 5; 6]) 3 3 in
  let v2 := dsc_vector_t.mkVector (Block [4; 5; 6]) 3 3 in
  let p := mkProcess [] [] false in
  fst (DSCVector.dsc_vector_erase (Some v1) (3 - 1) p) =
    fst (DSCVector.dsc_vector_pop_back (Some v1) p) /\
  fst (DSCVector.dsc_vector_erase (Some v1) (3 - 1) p) =
    Some (DSCVector.mkVector (Block [4; 5; 6]) (3 - 1) 3) /\
  fst (dsc_vector_t.dsc_vector_erase (Some v2) (3 - 1) p) =
    fst (dsc_vector_t.dsc_vector_pop_back (Some v2) p) /\
  fst (dsc_vector_t.dsc_vector_erase (Some v2) (3 - 1) p) =
    Some (dsc_vector_t.mkVector (Block [4; 5; 6]) (3 - 1) 3).
Proof.
  apply (erase_last_is_pop_back (Block [4; 5; 6]) 3 3 (mkProcess [] [] false)).
  vm_compute. intuition discriminate.
Defined.

(** *** Pushing a list *)

Lemma sequence_push_back_all (xs : list Z) (s : Sequence.t) :
  Sequence.length_of s <= Sequence.capacity s ->
  2 <= Sequence.capacity s <= UINT_MAX ->
  3 * (Sequence.length_of s + Z.of_nat (length xs)) / 2 <= UINT_MAX ->
  exists capacity',
    Sequence.within_unsigned_int (map PushBack xs) s = true /\
    Sequence.run (map PushBack xs) s =
      (map (fun _ => Void) xs,
       Sequence.mk (Sequence.elements s ++ xs) capacity',
       replicate (length xs) DSC_ERROR_NONE) /\
    Sequence.capacity s <= capacity' <= UINT_MAX.
Proof.
  revert s. induction xs as [|x xs IH]; intros [l capacity] Hle Hrange Hbound;
    unfold Sequence.length_of in *; projections.
  - exists capacity. cbn. rewrite app_nil_r. repeat split; lia.
  - cbn [length] in Hbound.
    assert (Hgrown : capacity <= Sequence.grown (Sequence.mk l capacity) <= UINT_MAX /\
                     Z.of_nat (length l) + 1 <= Sequence.grown (Sequence.mk l capacity)).
    { unfold Sequence.grown, Sequence.length_of. projections.
      rewrite growth_floor. tests; arith. }
    destruct (IH (Sequence.mk (l ++ [x]) (Sequence.grown (Sequence.mk l capacity))))
      as (capacity' & Hwithin & Hrun & Hcapacity').
    + unfold Sequence.length_of. projections. rewrite length_app. cbn [length]. lia.
    + projections. lia.
    + unfold Sequence.length_of. projections. rewrite length_app. cbn [length].
      replace (Z.of_nat (length l + 1) + Z.of_nat (length xs))
        with (Z.of_nat (length l) + Z.of_nat (S (length xs))) by lia.
      assumption.
    + exists capacity'. cbn [map Sequence.within_unsigned_int Sequence.run Sequence.step
                             Sequence.fits].
      projections. rewrite Hwithin, Hrun. projections.
      rewrite <- app_assoc. cbn [app length]. rewrite replicate_S_end.
      rewrite (proj2 (Z.leb_le _ _)) by lia.
      repeat split; lia.
Qed.

(** X16.  Pushing the values of a list one after the other, the allocator
    serving, appends them in their order, through every growth on the way;
    each call reports NONE and the capacity does not decrease. *)
Theorem push_back_all_appends
  (v1 : DSCVector.DSCVector) (v2 : dsc_vector_t.dsc_vector_t)
  (l xs : list Z) (capacity : Z) (p : process) :
  DSCVector_holds v1 l capacity ->
  dsc_vector_t_holds v2 l capacity ->
  3 * Z.of_nat (length l + length xs) / 2 <= UINT_MAX ->
  allocator p = [] ->
  let p' := {| error_log := replicate (length xs) DSC_ERROR_NONE ++ error_log p;
               allocator := allocator p;
               undefined := undefined p |} in
  exists v1' v2' capacity',
    DSCVector.run (map PushBack xs) (Some v1) p = (map (fun _ => Void) xs, Some v1', p') /\
    dsc_vector_t.run (map PushBack xs) (Some v2) p = (map (fun _ => Void) xs, Some v2', p') /\
    DSCVector_holds v1' (l ++ xs) capacity' /\
    dsc_vector_t_holds v2' (l ++ xs) capacity' /\
    capacity <= capacity'.
Proof.
  intros H1 H2 Hbound Hp p'.
  destruct (DSCVector_holds_inv _ _ _ H1) as (cells & _ & Hcapacity & _ & Hle & Hrange).
  destruct (sequence_push_back_all xs (Sequence.mk l capacity))
    as (capacity' & Hwithin & Hrun & Hcapacity');
    [unfold Sequence.length_of; projections; lia|projections; lia
    |unfold Sequence.length_of; projections;
     replace (Z.of_nat (length l) + Z.of_nat (length xs))
       with (Z.of_nat (length l + length xs)) by lia; assumption|].
  destruct (DSCVector_run_refines _ v1 _ p H1 Hwithin Hp) as (v1' & E1 & H1').
  destruct (dsc_vector_t_run_refines _ v2 _ p H2 Hwithin Hp) as (v2' & E2 & H2').
  rewrite Hrun in *. projections.
  exists v1', v2', capacity'. repeat split; try assumption. lia.
Qed.

Lemma push_back_all_appends_witness :
  let v1 := DSCVector.mkVector (Block [4; 5]) 2 2 in
  let v2 := dsc_vector_t.mkVector (Block [4; 5]) 2 2 in
  let p := mkProcess [] [] false in
  let xs := [6; 7; 8; 9; 10] in
  let p' := {| error_log := replicate (length xs) DSC_ERROR_NONE ++ error_log p;
               allocator := allocator p;
               undefined := undefined p |} in
  exists v1' v2' capacity',
    DSCVector.run (map PushBack xs) (Some v1) p = (map (fun _ => Void) xs, Some v1', p') /\
    dsc_vector_t.run (map PushBack xs) (Some v2) p = (map (fun _ => Void) xs, Some v2', p') /\
    DSCVector_holds v1' ([4; 5] ++ xs) capacity' /\
    dsc_vector_t_holds v2' ([4; 5] ++ xs) capacity' /\
    2 <= capacity'.
Proof.
  intros v1 v2 p xs p'.
  apply (push_back_all_appends v1 v2 [4; 5] xs 2 p); concrete.
Defined.

(** *** Safety *)

Lemma memory_only_ret {A : Type} (a : A) : memory_only (ret a).
Proof. intros log script ub. reflexivity. Qed.

Lemma memory_only_undefined_behaviour : memory_only undefined_behaviour.
Proof. intros log script ub. reflexivity. Qed.

Lemma memory_only_bind {A B : Type} (m : prog A) (k : A -> prog B) :
  memory_only m -> (forall a, memory_only (k a)) -> memory_only (bind m k).
Proof.
  intros Hm Hk log script ub. unfold bind.
  rewrite (Hm log script ub).
  pose proof (Hm [] [] ub) as H0.
  destruct (m (mkProcess [] [] ub)) as [a q]. cbn [fst snd] in *.
  injection H0 as ->.
  rewrite (Hk a log script). reflexivity.
Qed.

Lemma memory_only_load values i : memory_only (load values i).
Proof.
  unfold load. repeat case_match;
    auto using memory_only_ret, memory_only_bind, memory_only_undefined_behaviour.
Qed.

Lemma memory_only_store values i x : memory_only (store values i x).
Proof.
  unfold store. repeat case_match;
    auto using memory_only_ret, memory_only_bind, memory_only_undefined_behaviour.
Qed.

Lemma memory_only_shift_right n position values :
  memory_only (shift_right n position values).
Proof.
  revert values. induction n as [|n IH]; intros values; simpl.
  - apply memory_only_ret.
  - apply memory_only_bind; [apply memory_only_load|]. intros x.
    apply memory_only_bind; [apply memory_only_store|]. intros values'. apply IH.
Qed.

Lemma memory_only_shift_left n i values : memory_only (shift_left n i values).
Proof.
  revert i values. induction n as [|n IH]; intros i values; simpl.
  - apply memory_only_ret.
  - apply memory_only_bind; [apply memory_only_load|]. intros x.
    apply memory_only_bind; [apply memory_only_store|]. intros values'. apply IH.
Qed.

(** The loops and the accesses to a block are put on the process that has
    nothing but the undefined-behaviour flag. *)
Ltac on_memory :=
  repeat match goal with
         | |- context [shift_right ?n ?pos ?vals (mkProcess ?log ?script ?ub)] =>
             lazymatch script with
             | [] => lazymatch log with [] => fail | _ => idtac end
             | _ => idtac
             end;
             rewrite (memory_only_shift_right n pos vals log script ub)
         | |- context [shift_left ?n ?i ?vals (mkProcess ?log ?script ?ub)] =>
             lazymatch script with
             | [] => lazymatch log with [] => fail | _ => idtac end
             | _ => idtac
             end;
             rewrite (memory_only_shift_left n i vals log script ub)
         | |- context [store ?vals ?i ?x (mkProcess ?log ?script ?ub)] =>
             lazymatch script with
             | [] => lazymatch log with [] => fail | _ => idtac end
             | _ => idtac
             end;
             rewrite (memory_only_store vals i x log script ub)
         | |- context [load ?vals ?i (mkProcess ?log ?script ?ub)] =>
             lazymatch script with
             | [] => lazymatch log with [] => fail | _ => idtac end
             | _ => idtac
             end;
             rewrite (memory_only_load vals i log script ub)
         end;
  repeat match goal with
         | |- context [shift_right ?n ?pos ?vals ?q] =>
             destruct (shift_right n pos vals q) as [? [? ? ?]]
         | |- context [shift_left ?n ?i ?vals ?q] =>
             destruct (shift_left n i vals q) as [? [? ? ?]]
         | |- context [store ?vals ?i ?x ?q] =>
             destruct (store vals i x q) as [? [? ? ?]]
         | |- context [load ?vals ?i ?q] =>
             destruct (load vals i q) as [? [? ? ?]]
         end.

Ltac exec_memory :=
  repeat (tests; cbn; on_memory;
          try match goal with
              | |- context [if ?b then _ else _] => destruct b eqn:?
              end).

Lemma DSCVector_allocator_frame c v log script ub :
  hd true script = true \/
  may_allocate c (DSCVector.size v) (DSCVector.capacity v) = false ->
  same_outcome (DSCVector.perform c (Some v) (mkProcess log script ub))
               (DSCVector.perform c (Some v) (mkProcess log [] ub)).
Proof.
  intros Hserved. destruct v as [values size capacity]. cbn in Hserved.
  unfold same_outcome.
  destruct c; cbn; try (repeat split; reflexivity).
  all: unfold_DSCVector; cbn.
  all: destruct values, script as [|[] script].
  all: exec_memory; try (repeat split; reflexivity).
  all: try congruence.
  all: try (destruct (_ !! _); repeat split; reflexivity).
  all: cbn in Hserved; destruct Hserved as [Hs|Hs]; [discriminate Hs|].
  all: exfalso; revert Hs;
    rewrite ?Z.geb_leb, ?andb_false_iff, ?Z.leb_gt, ?Z.ltb_ge; lia.
Qed.


Lemma may_allocate_or_not c size capacity script :
  (hd true script = true \/ may_allocate c size capacity = false) \/
  (exists script', script = false :: script') /\ may_allocate c size capacity = true.
Proof.
  destruct script as [|[] script']; cbn; auto.
  destruct (may_allocate c size capacity); eauto.
Qed.

Lemma DSCVector_refused c v l capacity log script ub :
  DSCVector_holds v l capacity ->
  Sequence.fits c (Sequence.mk l capacity) = true ->
  may_allocate c (Z.of_nat (length l)) capacity = true ->
  DSCVector.perform c (Some v) (mkProcess log (false :: script) ub) =
    (null_answer 0 c, Some v, mkProcess (DSC_ERROR_OUT_OF_MEMORY :: log) script ub).
Proof.
  intros Hholds Hfits Hroom.
  destruct (DSCVector_holds_inv _ _ _ Hholds) as (cells & -> & Hcapacity & Htake & Hle & Hrange).
  destruct c; try discriminate Hroom; cbn in Hroom, Hfits.
  all: unfold Sequence.grown, Sequence.length_of in Hfits; cbn in Hfits;
    rewrite ?growth_floor in Hfits.
  all: rewrite ?andb_true_iff, ?Z.geb_leb, ?Z.leb_le, ?Z.ltb_lt in *.
  all: cbn; unfold_DSCVector; cbn; rewrite ?growth_exact by arith.
  all: repeat (tests; cbn); try reflexivity.
  all: try (exfalso; revert Hfits; tests; arith).
Qed.

Lemma DSCVector_served c v l capacity p :
  DSCVector_holds v l capacity ->
  Sequence.fits c (Sequence.mk l capacity) = true ->
  hd true (allocator p) = true \/ may_allocate c (Z.of_nat (length l)) capacity = false ->
  let r := DSCVector.perform c (Some v) p in
  let s' := snd (fst (Sequence.step c (Sequence.mk l capacity))) in
  fst (fst r) = fst (fst (Sequence.step c (Sequence.mk l capacity))) /\
  (exists v', snd (fst r) = Some v' /\
              DSCVector_holds v' (Sequence.elements s') (Sequence.capacity s')) /\
  error_log (snd r) = snd (Sequence.step c (Sequence.mk l capacity)) ++ error_log p /\
  undefined (snd r) = undefined p.
Proof.
  intros Hholds Hfits Hserved r s'. subst r s'.
  destruct p as [log script ub]. cbn [allocator error_log undefined] in *.
  destruct (DSCVector_holds_inv _ _ _ Hholds) as (cells & Hv & _).
  destruct (DSCVector_allocator_frame c v log script ub) as (Hanswer & Hlog & Hub).
  { rewrite Hv. exact Hserved. }
  destruct (DSCVector_refines c v (Sequence.mk l capacity) (mkProcess log [] ub)
              Hholds Hfits eq_refl) as (v' & Hperform & Hmodels).
  rewrite Hperform in Hanswer, Hlog, Hub. cbn [fst snd error_log undefined] in *.
  destruct (DSCVector.perform c (Some v) (mkProcess log script ub)) as [[a vector'] p'].
  cbn [fst snd] in *. injection Hanswer as -> ->.
  repeat split; try assumption.
  exists v'. split; [reflexivity|].
  destruct (Sequence.step c (Sequence.mk l capacity)) as [[a s'] written].
  destruct s' as [l' capacity']. exact Hmodels.
Qed.

(** X17.  Within the bounds of [Sequence.fits], [struct DSCVector] is safe
    whatever the allocator answers.  The bounds: the arguments are
    [unsigned int]s; for [dsc_vector_push_back] and [dsc_vector_insert] the
    capacity after the call (1.5 times the capacity when the vector is full)
    is within [unsigned int]; for [dsc_vector_size] the size is within
    [int].  On a well-formed vector such a call either does what the call
    does to the sequence of elements, leaving a well-formed vector, or, when
    the block it needs is refused, hands the vector back as it was and
    reports OUT_OF_MEMORY.  In both cases nothing undefined happens: no
    access outside the block and no use of a null pointer.  Beyond the
    bounds the code is not safe: [DSCVector_push_back_wraps]. *)
Theorem DSCVector_is_safe_within_bounds
  (c : call) (v : DSCVector.DSCVector) (l : list Z) (capacity : Z) (p : process) :
  DSCVector_holds v l capacity ->
  Sequence.fits c (Sequence.mk l capacity) = true ->
  let r := DSCVector.perform c (Some v) p in
  let s' := snd (fst (Sequence.step c (Sequence.mk l capacity))) in
  undefined (snd r) = undefined p /\
  ((fst (fst r) = fst (fst (Sequence.step c (Sequence.mk l capacity))) /\
    (exists v', snd (fst r) = Some v' /\
                DSCVector_holds v' (Sequence.elements s') (Sequence.capacity s')) /\
    error_log (snd r) = snd (Sequence.step c (Sequence.mk l capacity)) ++ error_log p) \/
   (may_allocate c (Z.of_nat (length l)) capacity = true /\
    hd true (allocator p) = false /\
    snd (fst r) = Some v /\
    dsc_get_error (snd r) = DSC_ERROR_OUT_OF_MEMORY)).
Proof.
  intros Hholds Hfits r s'. subst r s'.
  destruct (may_allocate_or_not c (Z.of_nat (length l)) capacity (allocator p))
    as [Hserved|[[script Hscript] Hroom]].
  - destruct (DSCVector_served c v l capacity p Hholds Hfits Hserved)
      as (Hanswer & Hvector & Hlog & Hub).
    split; [exact Hub|]. left. repeat split; assumption.
  - destruct p as [log script' ub]. cbn [allocator] in Hscript. subst script'.
    rewrite (DSCVector_refused c v l capacity log script ub Hholds Hfits Hroom).
    split; [reflexivity|]. right. repeat split; assumption.
Qed.

Lemma DSCVector_is_safe_within_bounds_witness :
  let v := DSCVector.mkVector (Block [4; 5]) 2 2 in
  let p := mkProcess [] [false; true] false in
  let r := DSCVector.perform (Insert 1 9) (Some v) p in
  let s' := snd (fst (Sequence.step (Insert 1 9) (Sequence.mk [4; 5] 2))) in
  undefined (snd r) = undefined p /\
  ((fst (fst r) = fst (fst (Sequence.step (Insert 1 9) (Sequence.mk [4; 5] 2))) /\
    (exists v', snd (fst r) = Some v' /\
                DSCVector_holds v' (Sequence.elements s') (Sequence.capacity s')) /\
    error_log (snd r) = snd (Sequence.step (Insert 1 9) (Sequence.mk [4; 5] 2)) ++ error_log p) \/
   (may_allocate (Insert 1 9) (Z.of_nat (length [4; 5])) 2 = true /\
    hd true (allocator p) = false /\
    snd (fst r) = Some v /\
    dsc_get_error (snd r) = DSC_ERROR_OUT_OF_MEMORY)).
Proof.
  intros v p.
  apply (DSCVector_is_safe_within_bounds (Insert 1 9) v [4; 5] 2 p); concrete.
Defined.



